(** * Parking-space discovery and ordering: a shallow embedding

    Verification of [src/utils/process_parking_lot.py]: the functions
    [get_parking_spaces], [get_order] and [apply_order].

    Modelling choices.
    - Numeric cells (Python floats and ints) are exact rationals [Q],
      a column holds no NaN, and arithmetic on cells is exact.  Where
      pandas produces NaN from an empty reduction ([Series.max] of an
      empty column) the model uses [option Q] with [None] for NaN.
    - Rounding is modelled where it decides which clusters are kept: the
      product [total_frames * threshold] of line 37 is also taken in
      float64, over Rocq's binary64 floats ([get_parking_spaces_f64]),
      and what is said of the boundary of the recurrence test is said
      there.  [get_order] subtracts exactly; of its answer only what
      float64 subtraction cannot change is stated where the two spans
      are compared ([get_order_f64] is the test on float columns).
      [calc_crop_from_vertices] computes on unbounded numbers: it is
      the source where the sums of line 83 stay within the 64-bit
      integers of numpy ([calc_crop_from_vertices_int64] wraps around
      as numpy does, and agrees with it there).
    - A [DataFrame] is column-major, as in pandas: an index, the name of
      the index, and an ordered association list of named columns.
    - Python exceptions are values of [exception]; fallible code lives in
      [result]; [get_parking_spaces], which assigns a column into the
      caller's table, lives in a state-and-error monad over that table.
    - The library routines the source calls (pandas selection, grouping,
      sorting, merging and scikit-learn's DBSCAN) are embedded with the
      behaviour the source relies on. *)

From Stdlib Require Import String List QArith ZArith Bool Lia Arith.
From Stdlib Require Import Permutation Sorted Qminmax Qround Lqa.
From Stdlib Require PrimFloat FloatOps SpecFloat Uint63.
Import ListNotations.

Open Scope string_scope.
Open Scope list_scope.
Open Scope Q_scope.

Set Implicit Arguments.

(** ** Exceptions and the error monad *)

Inductive exception : Type :=
| KeyError (key : string)
| ValueError (msg : string)
| Unmodelled (what : string).

Inductive result (A : Type) : Type :=
| Ok (a : A)
| Raise (e : exception).

Arguments Ok {A} a.
Arguments Raise {A} e.

Definition bindR {A B : Type} (r : result A) (k : A -> result B) : result B :=
  match r with
  | Ok a => k a
  | Raise e => Raise e
  end.

Declare Scope py_scope.
Delimit Scope py_scope with py.

Notation "x <- c ;; k" := (bindR c (fun x => k))
  (at level 61, c at next level, right associativity) : py_scope.

Definition raises {A : Type} (r : result A) : Prop :=
  exists e, r = Raise e.

(** The exceptions Python raises on a bad table or a bad argument: the
    failures the specification calls [InvalidInput]. *)
Definition invalid_input (e : exception) : Prop :=
  match e with
  | KeyError _ | ValueError _ => True
  | Unmodelled _ => False
  end.

Definition fails_invalid_input {A : Type} (r : result A) : Prop :=
  exists e, r = Raise e /\ invalid_input e.

Fixpoint mapR {A B : Type} (f : A -> result B) (l : list A) : result (list B) :=
  match l with
  | [] => Ok []
  | a :: t =>
      (b <- f a ;; bs <- mapR f t ;; Ok (b :: bs))%py
  end.

(** ** Numbers *)

Definition Qltb (x y : Q) : bool := negb (Qle_bool y x).

Definition Zq (z : Z) : Q := inject_Z z.

Definition Nq (n : nat) : Q := inject_Z (Z.of_nat n).

(** [range n] is the labels [0, 1, ..., n-1] of a pandas [RangeIndex]. *)
Definition range (n : nat) : list Q := map Nq (seq 0 n).

(** Stable insertion sort of keyed items; [leb] is the order of the keys. *)
Fixpoint insert_by {A : Type} (leb : Q -> Q -> bool) (x : Q * A)
  (l : list (Q * A)) : list (Q * A) :=
  match l with
  | [] => [x]
  | y :: t => if leb (fst x) (fst y) then x :: y :: t
              else y :: insert_by leb x t
  end.

Definition sort_by {A : Type} (leb : Q -> Q -> bool) (l : list (Q * A))
  : list (Q * A) :=
  fold_right (insert_by leb) [] l.

Definition sorted_values (l : list Q) : list Q :=
  map fst (sort_by Qle_bool (map (fun x => (x, tt)) l)).

(** [numpy.median]: the middle element of the sorted values, or the mean
    of the two middle ones.  pandas gives NaN on an empty group; groups of
    a [groupby] are never empty, and the model returns 0 there. *)
Definition median (l : list Q) : Q :=
  let s := sorted_values l in
  let n := length s in
  if Nat.even n
  then (nth (n / 2 - 1) s 0 + nth (n / 2) s 0) / 2
  else nth (n / 2) s 0.

(** Insertion into a strictly increasing list, dropping a value already
    present (up to numeric equality). *)
Fixpoint insert_unique (x : Q) (l : list Q) : list Q :=
  match l with
  | [] => [x]
  | y :: t =>
      if Qeq_bool x y then y :: t
      else if Qle_bool x y then x :: y :: t
      else y :: insert_unique x t
  end.

(** The distinct values of a column in ascending order: the group keys of
    [groupby] (with its default [sort=True]). *)
Definition unique_sorted (l : list Q) : list Q :=
  fold_right insert_unique [] l.

(** [Series.nunique]. *)
Definition nunique (l : list Q) : nat := length (unique_sorted l).

(** [Series.max] and [Series.min]; [None] stands for NaN. *)
Definition series_max (l : list Q) : option Q :=
  match l with
  | [] => None
  | x :: t => Some (fold_left Qmax t x)
  end.

Definition series_min (l : list Q) : option Q :=
  match l with
  | [] => None
  | x :: t => Some (fold_left Qmin t x)
  end.

(** Float subtraction and comparison, NaN-propagating. *)
Definition nan_sub (a b : option Q) : option Q :=
  match a, b with
  | Some x, Some y => Some (x - y)
  | _, _ => None
  end.

Definition nan_gt (a b : option Q) : bool :=
  match a, b with
  | Some x, Some y => Qltb y x
  | _, _ => false
  end.

(** ** pandas *)

Definition column : Type := list Q.

Record Series : Type := mkSeries {
  s_name : string;
  s_index : list Q;
  s_values : column
}.

Record DataFrame : Type := mkDataFrame {
  index_name : option string;
  index : list Q;
  columns : list (string * column)
}.

Definition nrows (df : DataFrame) : nat := length (index df).

Fixpoint lookup (k : string) (cols : list (string * column)) : option column :=
  match cols with
  | [] => None
  | (k', c) :: rest => if String.eqb k k' then Some c else lookup k rest
  end.

(** Replace the column in place when the name exists, append otherwise. *)
Fixpoint update (k : string) (c : column) (cols : list (string * column))
  : list (string * column) :=
  match cols with
  | [] => [(k, c)]
  | (k', c') :: rest =>
      if String.eqb k k' then (k, c) :: rest
      else (k', c') :: update k c rest
  end.

(** [df[k]]: the values of a column. *)
Definition getitem (df : DataFrame) (k : string) : result column :=
  match lookup k (columns df) with
  | Some c => Ok c
  | None => Raise (KeyError k)
  end.

(** [df[k]] as a [Series], carrying the index of the frame. *)
Definition getitem_series (df : DataFrame) (k : string) : result Series :=
  (c <- getitem df k ;; Ok (mkSeries k (index df) c))%py.

(** [df[[k1; ...; kn]]]: a frame of the selected columns, in that order. *)
Definition getitems (df : DataFrame) (ks : list string) : result DataFrame :=
  (cols <- mapR (fun k => c <- getitem df k ;; Ok (k, c)) ks ;;
   Ok (mkDataFrame (index_name df) (index df) cols))%py.

(** [df[k] = vals] for an array: positional, the length must match. *)
Definition setitem (df : DataFrame) (k : string) (vals : column)
  : result DataFrame :=
  if Nat.eqb (length vals) (nrows df)
  then Ok (mkDataFrame (index_name df) (index df) (update k vals (columns df)))
  else Raise (ValueError "Length of values does not match length of index").

(** [df.values]: the rows of the table. *)
Definition values (df : DataFrame) : list (list Q) :=
  map (fun i => map (fun c => nth i (snd c) 0) (columns df))
      (seq 0 (nrows df)).

(** Positional selection of rows. *)
Definition take (idx : list nat) (c : column) : column :=
  map (fun i => nth i c 0) idx.

Definition take_rows (idx : list nat) (df : DataFrame) : DataFrame :=
  mkDataFrame (index_name df) (take idx (index df))
              (map (fun nc => (fst nc, take idx (snd nc))) (columns df)).

(** Boolean-mask selection [df[mask]]. *)
Definition mask_positions (mask : list bool) : list nat :=
  map snd (filter fst (combine mask (seq 0 (length mask)))).

Definition mask_rows (df : DataFrame) (mask : list bool) : DataFrame :=
  take_rows (mask_positions mask) df.

(** [Series.isin]. *)
Definition isin (c : column) (vals : list Q) : list bool :=
  map (fun x => existsb (Qeq_bool x) vals) c.

(** Elementwise difference of two columns of one frame. *)
Definition col_sub (a b : column) : column :=
  map (fun p => fst p - snd p) (combine a b).

Definition col_scale (a : column) (s : Q) : column :=
  map (fun x => x * s) a.

(** The positions of the rows of one group. *)
Definition group_positions (keys : column) (k : Q) : list nat :=
  mask_positions (map (fun x => Qeq_bool x k) keys).

Definition group_values (keys c : column) (k : Q) : column :=
  take (group_positions keys k) c.

(** [df.groupby(by)[col].nunique()]: a Series indexed by the group keys. *)
Definition groupby_nunique (df : DataFrame) (by_ col : string) : result Series :=
  (keys <- getitem df by_ ;;
   c <- getitem df col ;;
   let ks := unique_sorted keys in
   Ok (mkSeries col ks (map (fun k => Nq (nunique (group_values keys c k))) ks)))%py.

(** [df.groupby(by)[cols].median()]: indexed by the group keys; the index
    is named after the grouping column. *)
Definition groupby_median (df : DataFrame) (by_ : string) (cols : list string)
  : result DataFrame :=
  (keys <- getitem df by_ ;;
   sel <- getitems df cols ;;
   let ks := unique_sorted keys in
   Ok (mkDataFrame (Some by_) ks
         (map (fun nc => (fst nc, map (fun k => median (group_values keys (snd nc) k)) ks))
              (columns sel))))%py.

(** [s[s >= threshold].index]. *)
Definition index_where_ge (s : Series) (threshold : Q) : list Q :=
  map fst (filter (fun kv => Qle_bool threshold (snd kv))
                  (combine (s_index s) (s_values s))).

Definition has_column (df : DataFrame) (k : string) : bool :=
  match lookup k (columns df) with Some _ => true | None => false end.

(** [df.reset_index(drop=True)]. *)
Definition reset_index_drop (df : DataFrame) : DataFrame :=
  mkDataFrame None (range (nrows df)) (columns df).

(** [df.reset_index()] and [df.reset_index(names=...)]: the old index
    becomes the first column. *)
Definition reset_index (df : DataFrame) (names : option string)
  : result DataFrame :=
  let name := match names with
              | Some s => s
              | None => match index_name df with
                        | Some s => s
                        | None => "index"
                        end
              end in
  if has_column df name
  then Raise (ValueError "cannot insert, already exists")
  else Ok (mkDataFrame None (range (nrows df)) ((name, index df) :: columns df)).

(** [numpy.argsort] on the key column (stable); descending order sorts
    with the reversed comparison. *)
Definition argsort (ascending : bool) (keys : column) : list nat :=
  let leb := if ascending then Qle_bool else (fun a b => Qle_bool b a) in
  map snd (sort_by leb (combine keys (seq 0 (length keys)))).

(** [df.sort_values(by=..., ascending=...)]. *)
Definition sort_values (df : DataFrame) (by_ : string) (ascending : bool)
  : result DataFrame :=
  (keys <- getitem df by_ ;;
   Ok (take_rows (argsort ascending keys) df))%py.

Fixpoint remove_column (k : string) (cols : list (string * column))
  : list (string * column) :=
  match cols with
  | [] => []
  | (k', c) :: rest =>
      if String.eqb k k' then remove_column k rest
      else (k', c) :: remove_column k rest
  end.

(** [pd.merge(left, right, on=key)]: inner join; the rows follow the left
    frame, the columns are the left ones then the right ones without the
    key.  (Suffixes for clashing names are not modelled: the source merges
    frames whose other columns are [width] and [height].) *)
Definition merge (left right : DataFrame) (on : string) : result DataFrame :=
  (lk <- getitem left on ;;
   rk <- getitem right on ;;
   let pairs :=
     flat_map (fun i =>
                 map (fun j => (i, j))
                     (filter (fun j => Qeq_bool (nth i lk 0) (nth j rk 0))
                             (seq 0 (length rk))))
              (seq 0 (length lk)) in
   let li := map fst pairs in
   let ri := map snd pairs in
   Ok (mkDataFrame None (range (length pairs))
         (map (fun nc => (fst nc, take li (snd nc))) (columns left) ++
          map (fun nc => (fst nc, take ri (snd nc)))
              (remove_column on (columns right)))))%py.

(** [df.apply(f, axis=1)]: [f] receives each row as a lookup by column
    name and yields one value per row. *)
Definition apply_axis1 (df : DataFrame)
  (f : (string -> result Q) -> result Q) : result column :=
  mapR (fun i =>
          f (fun k => c <- getitem df k ;; Ok (nth i c 0))%py)
       (seq 0 (nrows df)).

Fixpoint index_eqb (a b : list Q) : bool :=
  match a, b with
  | [], [] => true
  | x :: a', y :: b' => Qeq_bool x y && index_eqb a' b'
  | _, _ => false
  end.

(** [pd.concat([df, s], axis=1)] for operands with the same index; the
    outer join of different indexes is outside the model. *)
Definition concat_axis1 (df : DataFrame) (s : Series) : result DataFrame :=
  if index_eqb (index df) (s_index s)
  then Ok (mkDataFrame (index_name df) (index df)
             (columns df ++ [(s_name s, s_values s)]))
  else Raise (Unmodelled "concat of frames with different indexes").

(** ** scikit-learn: [DBSCAN(eps, min_samples).fit(X).labels_] *)

Module DBSCAN.

(** Squared Euclidean distance of two points; a point [q] lies in the
    [eps]-neighbourhood of [p] when the distance is at most [eps]. *)
Definition sq_dist (p q : list Q) : Q :=
  fold_right Qplus 0
    (map (fun ab => (fst ab - snd ab) * (fst ab - snd ab)) (combine p q)).

(** Sample [j] lies within [eps] of sample [i]. *)
Definition near (eps : Q) (X : list (list Q)) (i j : nat) : bool :=
  Qle_bool (sq_dist (nth i X []) (nth j X [])) (eps * eps).

(** [radius_neighbors]: the neighbours of sample [i], itself included. *)
Definition neighborhood (eps : Q) (X : list (list Q)) (i : nat) : list nat :=
  filter (fun j => Qle_bool (sq_dist (nth i X []) (nth j X [])) (eps * eps))
         (seq 0 (length X)).

Definition neighborhoods (eps : Q) (X : list (list Q)) : list (list nat) :=
  map (neighborhood eps X) (seq 0 (length X)).

Definition core_samples (min_samples : nat) (nbs : list (list nat)) : list bool :=
  map (fun nb => Nat.leb min_samples (length nb)) nbs.

Fixpoint set_label (i : nat) (v : Z) (labels : list Z) : list Z :=
  match labels, i with
  | [], _ => []
  | _ :: t, O => v :: t
  | x :: t, S i' => x :: set_label i' v t
  end.

Definition unlabelled (labels : list Z) (v : nat) : bool :=
  Z.eqb (nth v labels 0%Z) (-1)%Z.

(** The number of samples not labelled yet. *)
Definition pending (labels : list Z) : nat :=
  length (filter (fun z => Z.eqb z (-1)%Z) labels).

(** The depth-first expansion of one cluster ([while True] of
    [dbscan_inner]); the stack keeps its top at the head.  [None] when the
    fuel runs out. *)
Fixpoint expand (fuel : nat) (is_core : list bool) (nbs : list (list nat))
  (label_num : Z) (i : nat) (stack : list nat) (labels : list Z)
  : option (list Z) :=
  match fuel with
  | O => None
  | S fuel' =>
      let labels1 :=
        if unlabelled labels i then set_label i label_num labels else labels in
      let stack1 :=
        if unlabelled labels i && nth i is_core false
        then rev (filter (unlabelled labels1) (nth i nbs [])) ++ stack
        else stack in
      match stack1 with
      | [] => Some labels1
      | j :: stack2 => expand fuel' is_core nbs label_num j stack2 labels1
      end
  end.

(** Enough fuel for one expansion over [n] samples. *)
Definition expand_fuel (n : nat) : nat := S (n * S n).

(** [for i in range(n)] of [dbscan_inner]. *)
Definition inner_step (is_core : list bool) (nbs : list (list nat))
  (st : option (list Z * Z)) (i : nat) : option (list Z * Z) :=
  match st with
  | None => None
  | Some (labels, label_num) =>
      if negb (unlabelled labels i) || negb (nth i is_core false)
      then Some (labels, label_num)
      else match expand (expand_fuel (length labels)) is_core nbs
                        label_num i [] labels with
           | Some labels' => Some (labels', (label_num + 1)%Z)
           | None => None
           end
  end.

Definition dbscan_inner (is_core : list bool) (nbs : list (list nat))
  (labels : list Z) : option (list Z) :=
  option_map fst
    (fold_left (inner_step is_core nbs) (seq 0 (length labels))
               (Some (labels, 0%Z))).

(** [fit]: parameter validation, input validation, then the labelling. *)
Definition fit (eps : Q) (min_samples : nat) (X : list (list Q))
  : result (list Z) :=
  if negb (Qltb 0 eps) then Raise (ValueError "eps must be positive")
  else if Nat.eqb (length X) 0
  then Raise (ValueError "Found array with 0 sample(s)")
  else
    let nbs := neighborhoods eps X in
    match dbscan_inner (core_samples min_samples nbs) nbs
                       (repeat (-1)%Z (length X)) with
    | Some labels => Ok labels
    | None => Raise (Unmodelled "out of fuel")
    end.

End DBSCAN.

(** The label scikit-learn gives to noise samples. *)
Definition noise_label : Z := (-1)%Z.

(** ** The source: [process_parking_lot.py] *)

(** Code that may assign into the caller's table. *)
Definition Py (A : Type) : Type := DataFrame -> result A * DataFrame.

Definition ret {A : Type} (a : A) : Py A := fun df => (Ok a, df).

Definition bind {A B : Type} (m : Py A) (k : A -> Py B) : Py B :=
  fun df =>
    match m df with
    | (Ok a, df') => k a df'
    | (Raise e, df') => (Raise e, df')
    end.

(** Evaluate an expression that reads the caller's table. *)
Definition reading {A : Type} (f : DataFrame -> result A) : Py A :=
  fun df => (f df, df).

(** [df[k] = vals] on the caller's table. *)
Definition assign (k : string) (vals : column) : Py unit :=
  fun df =>
    match setitem df k vals with
    | Ok df' => (Ok tt, df')
    | Raise e => (Raise e, df)
    end.

Declare Scope pym_scope.
Delimit Scope pym_scope with pym.

Notation "x <~ c ;; k" := (bind c (fun x => k))
  (at level 61, c at next level, right associativity) : pym_scope.

(** The lambda of line 58: the smaller of the two median sides. *)
Definition min_side (x : string -> result Q) : result Q :=
  (w <- x "width" ;;
   h <- x "height" ;;
   if Qltb w h then x "width" else x "height")%py.

(** Lines 33-64: everything after the labels are stored in [df]. *)
Definition aggregate (df : DataFrame) (threshold space_size : Q)
  : result DataFrame :=
  (ts <- getitem df "timestamp" ;;
   let total_frames := nunique ts in
   let threshold := Nq total_frames * threshold in
   cluster_counts <- groupby_nunique df "cluster" "timestamp" ;;
   let valid_clusters := index_where_ge cluster_counts threshold in
   cl <- getitem df "cluster" ;;
   let df_filtered := mask_rows df (isin cl valid_clusters) in
   x2 <- getitem df_filtered "x2" ;;
   x1 <- getitem df_filtered "x1" ;;
   df_filtered <- setitem df_filtered "width" (col_sub x2 x1) ;;
   y2 <- getitem df_filtered "y2" ;;
   y1 <- getitem df_filtered "y1" ;;
   df_filtered <- setitem df_filtered "height" (col_sub y2 y1) ;;
   g <- groupby_median df_filtered "cluster" ["cx"; "cy"] ;;
   median_centers <- reset_index g None ;;
   g <- groupby_median df_filtered "cluster" ["width"] ;;
   median_width <- reset_index g None ;;
   g <- groupby_median df_filtered "cluster" ["height"] ;;
   median_height <- reset_index g None ;;
   sides <- merge median_width median_height "cluster" ;;
   m <- apply_axis1 sides min_side ;;
   sides <- setitem sides "min_side" m ;;
   ms <- getitem sides "min_side" ;;
   sides <- setitem sides "radius" (col_scale ms (space_size / 2)) ;;
   radius <- getitem_series sides "radius" ;;
   median_coords <- concat_axis1 median_centers radius ;;
   median_coords <- getitems median_coords ["cx"; "cy"; "radius"] ;;
   Ok (reset_index_drop median_coords))%py.

Definition get_parking_spaces (eps threshold space_size : Q) : Py DataFrame :=
  (coords <~ reading (fun df => xy <- getitems df ["cx"; "cy"] ;;
                                Ok (values xy))%py ;;
   labels <~ reading (fun _ => DBSCAN.fit eps 2 coords) ;;
   _ <~ assign "cluster" (map Zq labels) ;;
   reading (fun df => aggregate df threshold space_size))%pym.

Definition get_order (parking_spaces : DataFrame) : result bool :=
  (cx <- getitem parking_spaces "cx" ;;
   cx' <- getitem parking_spaces "cx" ;;
   let spaces_width := nan_sub (series_max cx) (series_min cx') in
   cy <- getitem parking_spaces "cy" ;;
   cy' <- getitem parking_spaces "cy" ;;
   let spaces_height := nan_sub (series_max cy) (series_min cy') in
   let order_left_right :=
     if nan_gt spaces_width spaces_height then true else false in
   Ok order_left_right)%py.

Definition apply_order (parking_spaces : DataFrame) (order_left_right : bool)
  : result DataFrame :=
  (parking_spaces <-
     (if order_left_right
      then s <- sort_values parking_spaces "cx" true ;;
           Ok (reset_index_drop s)
      else s <- sort_values parking_spaces "cy" false ;;
           Ok (reset_index_drop s)) ;;
   reset_index parking_spaces (Some "space"))%py.

(** ** The data model of the specification *)

(** One observed bounding box in one frame. *)
Record Detection : Type := mkDetection {
  timestamp : Q;
  cx : Q; cy : Q;
  x1 : Q; y1 : Q; x2 : Q; y2 : Q
}.

(** The detection table the detector hands over: [pd.DataFrame(rows)]. *)
Definition detections_frame (dets : list Detection) : DataFrame :=
  mkDataFrame None (range (length dets))
    [("timestamp", map timestamp dets);
     ("cx", map cx dets); ("cy", map cy dets);
     ("x1", map x1 dets); ("y1", map y1 dets);
     ("x2", map x2 dets); ("y2", map y2 dets)].

(** One inferred parking slot. *)
Record ParkingSpace : Type := mkParkingSpace {
  p_cx : Q; p_cy : Q; p_radius : Q
}.

Definition spaces_frame (ps : list ParkingSpace) : DataFrame :=
  mkDataFrame None (range (length ps))
    [("cx", map p_cx ps); ("cy", map p_cy ps); ("radius", map p_radius ps)].

Definition required_columns : list string :=
  ["timestamp"; "cx"; "cy"; "x1"; "y1"; "x2"; "y2"].

(** Every column of a pandas frame is as long as its index. *)
Definition well_formed (df : DataFrame) : Prop :=
  Forall (fun nc => length (snd nc) = nrows df) (columns df).

(** The table [df] carries the detections [dets], one per row (it may
    carry other columns as well). *)
Definition holds (df : DataFrame) (dets : list Detection) : Prop :=
  nrows df = length dets /\
  getitem df "timestamp" = Ok (map timestamp dets) /\
  getitem df "cx" = Ok (map cx dets) /\
  getitem df "cy" = Ok (map cy dets) /\
  getitem df "x1" = Ok (map x1 dets) /\
  getitem df "y1" = Ok (map y1 dets) /\
  getitem df "x2" = Ok (map x2 dets) /\
  getitem df "y2" = Ok (map y2 dets).

(** The points handed to the clustering: [df[['cx', 'cy']].values]. *)
Definition centers (dets : list Detection) : list (list Q) :=
  map (fun d => [cx d; cy d]) dets.

(** The rows of a table of parking spaces. *)
Definition spaces_of (df : DataFrame) : result (list ParkingSpace) :=
  (xs <- getitem df "cx" ;;
   ys <- getitem df "cy" ;;
   rs <- getitem df "radius" ;;
   Ok (map (fun i => mkParkingSpace (nth i xs 0) (nth i ys 0) (nth i rs 0))
           (seq 0 (nrows df))))%py.

(** The horizontal and vertical spans of section 4.2. *)
Definition span (l : list Q) : option Q :=
  nan_sub (series_max l) (series_min l).

(** ** The specification, in its own words *)

Module Spec.

(** The distinct values of a list of timestamps. *)
Fixpoint distinct (l : list Q) : list Q :=
  match l with
  | [] => []
  | x :: t => if existsb (Qeq_bool x) t then distinct t else x :: distinct t
  end.

(** [T]: the number of distinct timestamps in the input. *)
Definition T (dets : list Detection) : nat :=
  length (distinct (map timestamp dets)).

(** The member detections of the group labelled [c]. *)
Definition members (labels : list Z) (dets : list Detection) (c : Z)
  : list Detection :=
  map snd (filter (fun ld => Z.eqb (fst ld) c) (combine labels dets)).

(** The number of distinct timestamps at which group [c] has a member. *)
Definition presence (labels : list Z) (dets : list Detection) (c : Z) : nat :=
  length (distinct (map timestamp (members labels dets c))).

(** The recurrence test: [count >= min_recurrence_fraction * T]. *)
Definition recurs (fraction : Q) (labels : list Z) (dets : list Detection)
  (c : Z) : Prop :=
  fraction * Nq (T dets) <= Nq (presence labels dets c).

Definition width (d : Detection) : Q := x2 d - x1 d.
Definition height (d : Detection) : Q := y2 d - y1 d.

(** The canonical space of a group: median centre, and the radius from
    the smaller of the median width and the median height. *)
Definition canonical (space_size : Q) (ms : list Detection) : ParkingSpace :=
  mkParkingSpace
    (median (map cx ms))
    (median (map cy ms))
    (Qmin (median (map width ms)) (median (map height ms)) * space_size / 2).

(** The other reading of the radius, which the source does not use: the
    median of the per-detection shorter side. *)
Definition radius_of_median_min (space_size : Q) (ms : list Detection) : Q :=
  median (map (fun d => Qmin (width d) (height d)) ms) * space_size / 2.

Definition same_space (p q : ParkingSpace) : Prop :=
  p_cx p == p_cx q /\ p_cy p == p_cy q /\ p_radius p == p_radius q.

Definition ascending (l : list Q) : Prop :=
  forall i j, (i <= j < length l)%nat -> nth i l 0 <= nth j l 0.

Definition descending (l : list Q) : Prop :=
  forall i j, (i <= j < length l)%nat -> nth j l 0 <= nth i l 0.

(** A median of a list, said without any sorting procedure: the values
    split into a lower and an upper half of equal size around one middle
    value (odd length), or around two middle values of which the median
    is the mean (even length).  An empty list has no median. *)
Definition median_of (l : list Q) (m : Q) : Prop :=
  (exists lo mid hi,
     Permutation l (lo ++ mid :: hi) /\ length lo = length hi /\
     (forall x, In x lo -> x <= mid) /\ (forall x, In x hi -> mid <= x) /\
     m == mid) \/
  (exists lo a b hi,
     Permutation l (lo ++ a :: b :: hi) /\ length lo = length hi /\
     (forall x, In x lo -> x <= a) /\ a <= b /\
     (forall x, In x hi -> b <= x) /\
     m == (a + b) / 2).

(** [p] is the canonical space of the member detections [ms]: its centre
    is the median of their centres, coordinate by coordinate, and its
    radius comes from the smaller of the median width and the median
    height, each median taken on its own. *)
Definition is_canonical (space_size : Q) (ms : list Detection)
  (p : ParkingSpace) : Prop :=
  median_of (map cx ms) (p_cx p) /\
  median_of (map cy ms) (p_cy p) /\
  exists median_width median_height,
    median_of (map width ms) median_width /\
    median_of (map height ms) median_height /\
    p_radius p == Qmin median_width median_height * space_size / 2.

End Spec.

(** The row-level reading of the pipeline, against which the
    column-level code is compared. *)

Definition members_q (L : list (Z * Detection)) (k : Q) : list Detection :=
  map snd (filter (fun ld => Qeq_bool (Zq (fst ld)) k) L).

(** The keys kept by line 43. *)
Definition valid_keys (threshold : Q) (L : list (Z * Detection)) : list Q :=
  filter (fun k =>
            Qle_bool (Nq (nunique (map (fun ld => timestamp (snd ld)) L)) * threshold)
                     (Nq (nunique (map timestamp (members_q L k)))))
         (unique_sorted (map (fun ld => Zq (fst ld)) L)).

Definition accepted_clusters (threshold : Q) (labels : list Z)
  (dets : list Detection) : list Z :=
  map Qfloor (valid_keys threshold (combine labels dets)).

(** The space the code computes for one group of detections. *)
Definition space_of_members (space_size : Q) (ms : list Detection)
  : ParkingSpace :=
  let w := median (map Spec.width ms) in
  let h := median (map Spec.height ms) in
  mkParkingSpace (median (map cx ms)) (median (map cy ms))
                 ((if Qltb w h then w else h) * (space_size / 2)).

(** The caller's table once the labels are stored in it (line 31). *)
Definition with_cluster (df : DataFrame) (labels : list Z) : DataFrame :=
  mkDataFrame (index_name df) (index df)
              (update "cluster" (map Zq labels) (columns df)).

(** A predicate on keys that does not tell equal numbers apart. *)
Definition respects_Qeq (p : Q -> bool) : Prop :=
  forall x y, x == y -> p x = p y.

(** The table [df] carries the labelled detections [L], one per row. *)
Definition labelled (df : DataFrame) (L : list (Z * Detection)) : Prop :=
  nrows df = length L /\
  getitem df "cluster" = Ok (map (fun ld => Zq (fst ld)) L) /\
  getitem df "timestamp" = Ok (map (fun ld => timestamp (snd ld)) L) /\
  getitem df "cx" = Ok (map (fun ld => cx (snd ld)) L) /\
  getitem df "cy" = Ok (map (fun ld => cy (snd ld)) L) /\
  getitem df "x1" = Ok (map (fun ld => x1 (snd ld)) L) /\
  getitem df "y1" = Ok (map (fun ld => y1 (snd ld)) L) /\
  getitem df "x2" = Ok (map (fun ld => x2 (snd ld)) L) /\
  getitem df "y2" = Ok (map (fun ld => y2 (snd ld)) L).

(** Membership of a key in the kept keys (line 46). *)
Definition kept (threshold : Q) (L : list (Z * Detection))
  (ld : Z * Detection) : bool :=
  existsb (Qeq_bool (Zq (fst ld))) (valid_keys threshold L).

(** The column [apply_order] sorts by. *)
Definition order_key (order_left_right : bool) : string :=
  if order_left_right then "cx" else "cy".

(** The table [apply_order] returns for the key column [keys]. *)
Definition ordered (df : DataFrame) (order_left_right : bool) (keys : column)
  : DataFrame :=
  mkDataFrame None (range (length keys))
    (("space", range (length keys))
       :: columns (take_rows (argsort order_left_right keys) df)).

(** ** The crop region: [calc_crop_from_vertices] (lines 67-94) *)

(** The exception numpy raises when an array is indexed along an axis it
    does not have. *)
Inductive numpy_exception : Type :=
| IndexError (msg : string).

(** [np.clip(a, lo, hi)] on one element: [minimum(maximum(a, lo), hi)]. *)
Definition clip (a lo hi : Q) : Q := Qmin (Qmax a lo) hi.

(** [np.clip(crop, lo, his)] with a scalar lower bound and one upper bound
    per element. *)
Definition clip_each (crop : list Q) (lo : Q) (his : list Q) : list Q :=
  map (fun ch => clip (fst ch) lo (snd ch)) (combine crop his).

Section Crop.

(** The frame width and height OpenCV reports for a video path
    ([int(cap.get(...))]); the video reader is outside the source. *)
Variable frame_size : string -> Z * Z.

(** A vertex is a pair [(x, y)]; [None] is the default argument.  Indexing
    the array of an empty vertex list along its second axis raises, so the
    minima and maxima are taken over a first vertex and the rest. *)
Definition calc_crop_from_vertices (vertices : option (list (Q * Q)))
  (padding : Q) (video_path : string) : numpy_exception + list Q :=
  match vertices with
  | Some [] => inl (IndexError "too many indices for array")
  | Some (v :: vs) =>
      let x := map fst (v :: vs) in
      let y := map snd (v :: vs) in
      let x_min := fold_left Qmin (tl x) (hd 0 x) in
      let y_min := fold_left Qmin (tl y) (hd 0 y) in
      let x_max := fold_left Qmax (tl x) (hd 0 x) in
      let y_max := fold_left Qmax (tl y) (hd 0 y) in
      let crop := [x_min - padding; y_min - padding;
                   x_max + padding; y_max + padding] in
      let width := Zq (fst (frame_size video_path)) in
      let height := Zq (snd (frame_size video_path)) in
      inr (clip_each crop 0 [width; height; width; height])
  | None => inr []
  end.

End Crop.

(** The least and the greatest value of a list, up to numeric equality. *)
Definition is_min (m : Q) (l : list Q) : Prop :=
  (exists x, In x l /\ x == m) /\ forall x, In x l -> m <= x.

Definition is_max (m : Q) (l : list Q) : Prop :=
  (exists x, In x l /\ x == m) /\ forall x, In x l -> x <= m.

(** Two lists of numbers that are equal element by element. *)
Definition same_numbers (a b : list Q) : Prop := Forall2 Qeq a b.

(** A video of 1920 by 1080 pixels, whatever the path. *)
Definition full_hd (video_path : string) : Z * Z := (1920%Z, 1080%Z).

(** The corners of a region near the top-left corner of the frame. *)
Definition corner_region : list (Q * Q) :=
  [(30, 400); (600, 20); (610, 420); (25, 35)].

(** ** The recurrence threshold in float64 (lines 37 and 43)

    [total_frames * threshold] is a product of floats, rounded to the
    nearest float64, and the counts are compared with the rounded
    product.  [aggregate] above takes the product exactly; the
    definitions below take it as the machine does, with Rocq's binary64
    floats, and are otherwise the same lines of the source. *)

(** A Python [int] converted to a float (exact below [2^53]). *)
Definition f64_of_nat (n : nat) : PrimFloat.float :=
  PrimFloat.of_uint63 (Uint63.of_Z (Z.of_nat n)).

(** The number a finite float stands for, in lowest terms; NaN and the
    infinities stand for none. *)
Definition f64_value (x : PrimFloat.float) : option Q :=
  match FloatOps.Prim2SF x with
  | SpecFloat.S754_zero _ => Some 0
  | SpecFloat.S754_finite s m e =>
      let v := Qred (inject_Z (Z.pos m) * Qpower 2 e) in
      Some (if s then - v else v)
  | SpecFloat.S754_infinity _ => None
  | SpecFloat.S754_nan => None
  end.

(** [count >= x] for a count and a float [x]: the comparison of the two
    numbers; every count is above minus infinity, none is above plus
    infinity, and a comparison with NaN is false. *)
Definition f64_le (x : PrimFloat.float) (count : Q) : bool :=
  match f64_value x with
  | Some t => Qle_bool t count
  | None => PrimFloat.ltb x PrimFloat.zero
  end.

(** [s[s >= threshold].index] for a float threshold. *)
Definition index_where_ge_f64 (s : Series) (threshold : PrimFloat.float)
  : list Q :=
  map fst (filter (fun kv => f64_le threshold (snd kv))
                  (combine (s_index s) (s_values s))).

(** Lines 33-64 with the product of line 37 in float64. *)
Definition aggregate_f64 (df : DataFrame) (threshold : PrimFloat.float)
  (space_size : Q) : result DataFrame :=
  (ts <- getitem df "timestamp" ;;
   let total_frames := nunique ts in
   let threshold := PrimFloat.mul (f64_of_nat total_frames) threshold in
   cluster_counts <- groupby_nunique df "cluster" "timestamp" ;;
   let valid_clusters := index_where_ge_f64 cluster_counts threshold in
   cl <- getitem df "cluster" ;;
   let df_filtered := mask_rows df (isin cl valid_clusters) in
   x2 <- getitem df_filtered "x2" ;;
   x1 <- getitem df_filtered "x1" ;;
   df_filtered <- setitem df_filtered "width" (col_sub x2 x1) ;;
   y2 <- getitem df_filtered "y2" ;;
   y1 <- getitem df_filtered "y1" ;;
   df_filtered <- setitem df_filtered "height" (col_sub y2 y1) ;;
   g <- groupby_median df_filtered "cluster" ["cx"; "cy"] ;;
   median_centers <- reset_index g None ;;
   g <- groupby_median df_filtered "cluster" ["width"] ;;
   median_width <- reset_index g None ;;
   g <- groupby_median df_filtered "cluster" ["height"] ;;
   median_height <- reset_index g None ;;
   sides <- merge median_width median_height "cluster" ;;
   m <- apply_axis1 sides min_side ;;
   sides <- setitem sides "min_side" m ;;
   ms <- getitem sides "min_side" ;;
   sides <- setitem sides "radius" (col_scale ms (space_size / 2)) ;;
   radius <- getitem_series sides "radius" ;;
   median_coords <- concat_axis1 median_centers radius ;;
   median_coords <- getitems median_coords ["cx"; "cy"; "radius"] ;;
   Ok (reset_index_drop median_coords))%py.

Definition get_parking_spaces_f64 (eps : Q) (threshold : PrimFloat.float)
  (space_size : Q) : Py DataFrame :=
  (coords <~ reading (fun df => xy <- getitems df ["cx"; "cy"] ;;
                                Ok (values xy))%py ;;
   labels <~ reading (fun _ => DBSCAN.fit eps 2 coords) ;;
   _ <~ assign "cluster" (map Zq labels) ;;
   reading (fun df => aggregate_f64 df threshold space_size))%pym.

(** The float nearest to a fraction: the float a decimal literal such
    as [0.1] denotes is the correctly rounded quotient [1 / 10]. *)
Definition f64_fraction (num den : Z) : PrimFloat.float :=
  PrimFloat.div (PrimFloat.of_uint63 (Uint63.of_Z num))
                (PrimFloat.of_uint63 (Uint63.of_Z den)).

(** The floats [0.1], [0.28] and [0.5] (the last one is exact). *)
Definition one_tenth : PrimFloat.float := f64_fraction 1 10.
Definition twenty_eight_hundredths : PrimFloat.float := f64_fraction 28 100.
Definition one_half : PrimFloat.float := f64_fraction 1 2.

(** ** The axis test in float64 (lines 104-106)

    [get_order] above subtracts exactly.  On columns of floats the
    source takes the two differences in float64 and compares the rounded
    differences; [Series.max] and [Series.min] of an empty column are
    NaN. *)
Definition f64_max (l : list PrimFloat.float) : PrimFloat.float :=
  match l with
  | [] => PrimFloat.nan
  | x :: t => fold_left (fun a b => if PrimFloat.ltb a b then b else a) t x
  end.

Definition f64_min (l : list PrimFloat.float) : PrimFloat.float :=
  match l with
  | [] => PrimFloat.nan
  | x :: t => fold_left (fun a b => if PrimFloat.ltb b a then b else a) t x
  end.

Definition get_order_f64 (cx cy : list PrimFloat.float) : bool :=
  let spaces_width := PrimFloat.sub (f64_max cx) (f64_min cx) in
  let spaces_height := PrimFloat.sub (f64_max cy) (f64_min cy) in
  let order_left_right :=
    if PrimFloat.ltb spaces_height spaces_width then true else false in
  order_left_right.

(** ** The 64-bit integers of numpy

    [np.array(vertices)] of Python integers is an [int64] array, and the
    sums of line 83 are taken in [int64], where they wrap around.
    [calc_crop_from_vertices] computes on unbounded numbers: it is the
    source where the sums stay in range, and
    [calc_crop_from_vertices_int64] is the source on integer vertices
    that fit [int64], with the wrap-around. *)
Definition fits_int64 (q : Q) : Prop :=
  - (9223372036854775808) <= q /\ q <= 9223372036854775807.

(** Every vertex coordinate, moved by the padding either way, is in
    range: then so are the four sums of line 83. *)
Definition no_wraparound (vertices : list (Q * Q)) (padding : Q) : Prop :=
  forall vx vy, In (vx, vy) vertices ->
    fits_int64 (vx - padding) /\ fits_int64 (vx + padding) /\
    fits_int64 (vy - padding) /\ fits_int64 (vy + padding).

(** The value of an [int64] sum or difference: the result modulo [2^64],
    taken between [-2^63] and [2^63 - 1]. *)
Definition wrap_int64 (z : Z) : Z :=
  ((z + 9223372036854775808) mod 18446744073709551616
   - 9223372036854775808)%Z.

Definition clip_int64 (a lo hi : Z) : Z := Z.min (Z.max a lo) hi.

Definition calc_crop_from_vertices_int64 (frame_size : string -> Z * Z)
  (vertices : option (list (Z * Z))) (padding : Z) (video_path : string)
  : numpy_exception + list Z :=
  match vertices with
  | Some [] => inl (IndexError "too many indices for array")
  | Some (v :: vs) =>
      let x := map fst (v :: vs) in
      let y := map snd (v :: vs) in
      let x_min := fold_left Z.min (tl x) (hd 0%Z x) in
      let y_min := fold_left Z.min (tl y) (hd 0%Z y) in
      let x_max := fold_left Z.max (tl x) (hd 0%Z x) in
      let y_max := fold_left Z.max (tl y) (hd 0%Z y) in
      let crop := [wrap_int64 (x_min - padding); wrap_int64 (y_min - padding);
                   wrap_int64 (x_max + padding); wrap_int64 (y_max + padding)] in
      let width := fst (frame_size video_path) in
      let height := snd (frame_size video_path) in
      inr (map (fun ch => clip_int64 (fst ch) 0 (snd ch))
               (combine crop [width; height; width; height]))
  | None => inr []
  end.

(** Integer vertices, as numbers. *)
Definition as_numbers (vertices : list (Z * Z)) : list (Q * Q) :=
  map (fun v => (Zq (fst v), Zq (snd v))) vertices.

(** ** Sample inputs *)

(** A detection at time [t] centred at [(x, y)] with a [w] by [h] box. *)
Definition box (t x y w h : Q) : Detection :=
  mkDetection t x y (x - w / 2) (y - h / 2) (x + w / 2) (y + h / 2).

(** The end-to-end scenario of the specification: three frames, a car
    parked near (100, 100) in all of them, another passing at (500, 500). *)
Definition scenario : list Detection :=
  [box 1 100 100 40 40; box 2 101 99 40 40; box 3 99 101 40 40;
   box 1 500 500 40 40].

(** The same detections in a table that went through the discoverer
    before, with other parameters: it has a stale [cluster] column. *)
Definition scenario_again : DataFrame :=
  mkDataFrame None (range 4)
    (columns (detections_frame scenario) ++ [("cluster", [7; 7; 8; 8])]).

(** A single detection. *)
Definition lone_car : list Detection := [box 1 100 100 40 40].


(** Three spaces on a diagonal: both spans are 50. *)
Definition diagonal : list ParkingSpace :=
  [mkParkingSpace 0 0 10; mkParkingSpace 50 50 10; mkParkingSpace 20 10 10].

(** A group whose boxes are wide, tall and square. *)
Definition mixed_boxes : list Detection :=
  [box 1 0 0 10 30; box 2 0 0 30 10; box 3 0 0 20 20].

(** Four frames: a car parked at (100, 100) in all of them, one at
    (300, 300) in two of them, and two boxes close together at
    (500, 500) in a single frame. *)
Definition four_frames : list Detection :=
  [box 1 100 100 40 40; box 2 100 100 40 40; box 3 100 100 40 40;
   box 4 100 100 40 40; box 1 300 300 40 40; box 2 300 300 40 40;
   box 3 500 500 40 40; box 3 502 500 40 40].

(** Ten frames: a car parked at (100, 100) in all of them, and two boxes
    close together at (500, 500) in the first frame only. *)
Definition ten_frames : list Detection :=
  map (fun t => box (Nq t) 100 100 40 40) (seq 1 10)
  ++ [box 1 500 500 40 40; box 1 502 500 40 40].

(** Three frames: a car seen twice at the same place, another seen once. *)
Definition passing_cars : list Detection :=
  [box 1 0 0 40 40; box 2 2 2 40 40; box 3 500 500 40 40].

(** Twenty-five frames: a car parked at (100, 100) in all of them, and
    one at (300, 300) in the first seven. *)
Definition twenty_five_frames : list Detection :=
  map (fun t => box (Nq t) 100 100 40 40) (seq 1 25)
  ++ map (fun t => box (Nq t) 300 300 40 40) (seq 1 7).

(** Two spaces side by side: the horizontal span is 100, the vertical
    one 10. *)
Definition side_by_side : list ParkingSpace :=
  [mkParkingSpace 100 10 10; mkParkingSpace 0 0 10].

(** * Properties *)

(** ** Columns of a frame *)

Section Lookup.

Variable k : string.

Lemma lookup_update_same (c : column) cols :
  lookup k (update k c cols) = Some c.
Proof.
  induction cols as [|[k' c'] rest IH]; simpl.
  - now rewrite String.eqb_refl.
  - destruct (String.eqb k k') eqn:E; simpl.
    + now rewrite String.eqb_refl.
    + now rewrite E.
Qed.

Lemma lookup_update_other (k' : string) (c : column) cols :
  k <> k' -> lookup k' (update k c cols) = lookup k' cols.
Proof.
  intros Hne. induction cols as [|[k0 c0] rest IH]; simpl.
  - destruct (String.eqb k' k) eqn:E; [|reflexivity].
    apply String.eqb_eq in E. congruence.
  - destruct (String.eqb k k0) eqn:E; simpl.
    + apply String.eqb_eq in E. subst k0.
      destruct (String.eqb k' k) eqn:E'; [|reflexivity].
      apply String.eqb_eq in E'. congruence.
    + now rewrite IH.
Qed.

Lemma update_update (c : column) cols :
  update k c (update k c cols) = update k c cols.
Proof.
  induction cols as [|[k' c'] rest IH]; simpl.
  - now rewrite String.eqb_refl.
  - destruct (String.eqb k k') eqn:E; simpl.
    + now rewrite String.eqb_refl.
    + now rewrite E, IH.
Qed.

Lemma lookup_map_take idx k' cols :
  lookup k' (map (fun nc : string * column => (fst nc, take idx (snd nc))) cols)
  = option_map (take idx) (lookup k' cols).
Proof.
  induction cols as [|[k0 c0] rest IH]; simpl; [reflexivity|].
  destruct (String.eqb k' k0); [reflexivity | exact IH].
Qed.

End Lookup.

Lemma getitem_setitem_same df k vals df' :
  setitem df k vals = Ok df' -> getitem df' k = Ok vals.
Proof.
  unfold setitem. destruct (Nat.eqb _ _); [|discriminate].
  intros H. injection H as <-. unfold getitem. simpl.
  now rewrite lookup_update_same.
Qed.

Lemma getitem_setitem_other df k vals df' k' :
  setitem df k vals = Ok df' -> k <> k' -> getitem df' k' = getitem df k'.
Proof.
  unfold setitem. destruct (Nat.eqb _ _); [|discriminate].
  intros H Hne. injection H as <-. unfold getitem. simpl.
  now rewrite lookup_update_other.
Qed.

Lemma nrows_setitem df k vals df' :
  setitem df k vals = Ok df' -> nrows df' = nrows df.
Proof.
  unfold setitem. destruct (Nat.eqb _ _); [|discriminate].
  intros H. now injection H as <-.
Qed.

Lemma setitem_ok df k vals :
  length vals = nrows df ->
  setitem df k vals =
  Ok (mkDataFrame (index_name df) (index df) (update k vals (columns df))).
Proof.
  intros H. unfold setitem. now rewrite H, Nat.eqb_refl.
Qed.

Lemma length_take idx (c : column) : length (take idx c) = length idx.
Proof. unfold take. apply length_map. Qed.

Lemma nrows_take_rows idx df : nrows (take_rows idx df) = length idx.
Proof. unfold nrows, take_rows. simpl. apply length_take. Qed.

Lemma getitem_take_rows idx df k :
  getitem (take_rows idx df) k =
  (c <- getitem df k ;; Ok (take idx c))%py.
Proof.
  unfold getitem, take_rows. simpl. rewrite lookup_map_take.
  destruct (lookup k (columns df)); reflexivity.
Qed.

Lemma has_column_getitem df k :
  has_column df k = true <-> exists c, getitem df k = Ok c.
Proof.
  unfold has_column, getitem. destruct (lookup k (columns df)).
  - split; eauto.
  - split; [discriminate | intros [c H]; discriminate].
Qed.

Lemma has_column_false df k :
  has_column df k = false <-> getitem df k = Raise (KeyError k).
Proof.
  unfold has_column, getitem. destruct (lookup k (columns df)).
  - split; discriminate.
  - split; reflexivity.
Qed.

Lemma lookup_in k (cols : list (string * column)) c :
  lookup k cols = Some c -> In (k, c) cols.
Proof.
  induction cols as [|[k0 c0] rest IH]; simpl; [discriminate|].
  destruct (String.eqb k k0) eqn:E.
  - intros H. injection H as ->. apply String.eqb_eq in E. subst. now left.
  - intros H. right. auto.
Qed.

Lemma well_formed_getitem df k c :
  well_formed df -> getitem df k = Ok c -> length c = nrows df.
Proof.
  unfold well_formed, getitem. intros Hwf H.
  destruct (lookup k (columns df)) eqn:E; [|discriminate].
  injection H as ->. apply lookup_in in E.
  rewrite Forall_forall in Hwf. exact (Hwf _ E).
Qed.

Lemma mapR_ok {A B : Type} (f : A -> result B) (g : A -> B) l :
  (forall a, In a l -> f a = Ok (g a)) -> mapR f l = Ok (map g l).
Proof.
  induction l as [|a t IH]; simpl; intros H; [reflexivity|].
  rewrite (H a (or_introl eq_refl)). simpl.
  rewrite IH by (intros; apply H; now right). reflexivity.
Qed.

(** ** Positions, masks and groups *)

Lemma map_nth_seq {A : Type} (l : list A) (d : A) :
  map (fun i => nth i l d) (seq 0 (length l)) = l.
Proof.
  induction l as [|x t IH]; simpl; [reflexivity|].
  f_equal. rewrite <- seq_shift, map_map. exact IH.
Qed.

Lemma take_seq (c : column) : take (seq 0 (length c)) c = c.
Proof. apply map_nth_seq. Qed.

Lemma map_nth_map_seq {A B : Type} (f : A -> B) (l : list A) (d : B) :
  map (fun i => nth i (map f l) d) (seq 0 (length l)) = map f l.
Proof.
  rewrite <- (length_map f l). apply map_nth_seq.
Qed.

(** Selecting by the positions of a mask is filtering by the mask. *)
Lemma take_mask_shift {A : Type} (p : A -> bool) (g : A -> Q) (pre l : list A) :
  map (fun i => nth i (map g (pre ++ l)) 0)
      (map snd (filter fst (combine (map p l) (seq (length pre) (length l)))))
  = map g (filter p l).
Proof.
  revert pre. induction l as [|x t IH]; intros pre; simpl; [reflexivity|].
  assert (Hstep :
    map (fun i => nth i (map g (pre ++ x :: t)) 0)
      (map snd (filter fst (combine (map p t) (seq (S (length pre)) (length t)))))
    = map g (filter p t)).
  { specialize (IH (pre ++ [x])). rewrite <- app_assoc in IH. simpl in IH.
    rewrite length_app in IH. simpl in IH. rewrite Nat.add_1_r in IH. exact IH. }
  destruct (p x); simpl.
  - rewrite Hstep. f_equal.
    rewrite map_app, app_nth2; rewrite length_map; [|lia].
    now rewrite Nat.sub_diag.
  - exact Hstep.
Qed.

Lemma take_mask {A : Type} (p : A -> bool) (g : A -> Q) (l : list A) :
  take (mask_positions (map p l)) (map g l) = map g (filter p l).
Proof.
  unfold take, mask_positions. rewrite length_map.
  exact (take_mask_shift p g [] l).
Qed.

Lemma group_values_rows {A : Type} (kf g : A -> Q) (l : list A) (k : Q) :
  group_values (map kf l) (map g l) k
  = map g (filter (fun a => Qeq_bool (kf a) k) l).
Proof.
  unfold group_values, group_positions. rewrite map_map.
  apply (take_mask (fun a => Qeq_bool (kf a) k) g l).
Qed.

Lemma isin_rows {A : Type} (kf : A -> Q) (l : list A) (vals : list Q) :
  isin (map kf l) vals = map (fun a => existsb (Qeq_bool (kf a)) vals) l.
Proof. unfold isin. now rewrite map_map. Qed.

(** ** Group keys: [unique_sorted] *)

Lemma Qeq_bool_false_lt x y :
  Qeq_bool x y = false -> Qle_bool x y = true -> x < y.
Proof.
  intros Hne Hle. apply Qeq_bool_neq in Hne. apply Qle_bool_iff in Hle.
  apply Qle_lteq in Hle. destruct Hle; [assumption | contradiction].
Qed.

Lemma Qle_bool_false_lt x y : Qle_bool x y = false -> y < x.
Proof.
  intros H. apply Qnot_le_lt. intros Hle. apply Qle_bool_iff in Hle. congruence.
Qed.

Lemma Qlt_Qeq_bool_false x y : x < y -> Qeq_bool x y = false.
Proof.
  intros H. destruct (Qeq_bool x y) eqn:E; [|reflexivity].
  apply Qeq_bool_iff in E. rewrite E in H. now apply Qlt_irrefl in H.
Qed.

Lemma Qeq_bool_Zq a b : Qeq_bool (Zq a) (Zq b) = Z.eqb a b.
Proof.
  destruct (Z.eqb a b) eqn:E.
  - apply Z.eqb_eq in E. subst. apply Qeq_bool_refl.
  - apply Z.eqb_neq in E. destruct (Qeq_bool (Zq a) (Zq b)) eqn:F; [|reflexivity].
    apply Qeq_bool_iff in F. unfold Zq in F. rewrite inject_Z_injective in F.
    contradiction.
Qed.

Lemma insert_unique_above x l :
  Forall (Qlt x) l -> insert_unique x l = x :: l.
Proof.
  destruct l as [|y t]; simpl; [reflexivity|].
  intros H. inversion H as [|? ? Hxy _]; subst.
  rewrite (Qlt_Qeq_bool_false Hxy).
  assert (Qle_bool x y = true) as -> by (apply Qle_bool_iff, Qlt_le_weak, Hxy).
  reflexivity.
Qed.

Lemma insert_unique_in x y l :
  In y (insert_unique x l) -> y = x \/ In y l.
Proof.
  induction l as [|z t IH]; simpl.
  - intros [H|[]]; auto.
  - destruct (Qeq_bool x z); [auto|].
    destruct (Qle_bool x z); simpl.
    + intros [H|H]; auto.
    + intros [H|H]; auto. destruct (IH H); auto.
Qed.

Lemma insert_unique_sorted x l :
  StronglySorted Qlt l -> StronglySorted Qlt (insert_unique x l).
Proof.
  induction 1 as [|z t Hs IH Hz]; simpl.
  - repeat constructor.
  - destruct (Qeq_bool x z) eqn:E; [now constructor|].
    destruct (Qle_bool x z) eqn:L.
    + pose proof (Qeq_bool_false_lt _ _ E L) as Hxz.
      constructor; [now constructor|].
      constructor; [assumption|].
      rewrite Forall_forall in *. intros w Hw.
      apply Qlt_trans with z; auto.
    + constructor; [assumption|].
      rewrite Forall_forall in *. intros w Hw.
      apply insert_unique_in in Hw. destruct Hw as [->|Hw]; auto.
      now apply Qle_bool_false_lt.
Qed.

Lemma unique_sorted_sorted l : StronglySorted Qlt (unique_sorted l).
Proof.
  induction l; simpl; [constructor | now apply insert_unique_sorted].
Qed.

Lemma unique_sorted_in x l : In x (unique_sorted l) -> In x l.
Proof.
  induction l as [|y t IH]; simpl; [tauto|].
  intros H. apply insert_unique_in in H. destruct H; auto.
Qed.

Lemma existsb_insert_unique x y l :
  existsb (Qeq_bool x) (insert_unique y l)
  = Qeq_bool x y || existsb (Qeq_bool x) l.
Proof.
  induction l as [|z t IH]; simpl; [reflexivity|].
  destruct (Qeq_bool y z) eqn:E; simpl.
  - apply Qeq_bool_iff in E.
    rewrite (Qeqb_comp x x (Qeq_refl x) y z E).
    now destruct (Qeq_bool x z).
  - destruct (Qle_bool y z); simpl; [reflexivity|].
    rewrite IH. now destruct (Qeq_bool x z), (Qeq_bool x y).
Qed.

Lemma existsb_unique_sorted x l :
  existsb (Qeq_bool x) (unique_sorted l) = existsb (Qeq_bool x) l.
Proof.
  induction l as [|y t IH]; simpl; [reflexivity|].
  now rewrite existsb_insert_unique, IH.
Qed.

Lemma existsb_above x l :
  Forall (Qlt x) l -> existsb (Qeq_bool x) l = false.
Proof.
  induction 1 as [|y t Hy _ IH]; simpl; [reflexivity|].
  now rewrite (Qlt_Qeq_bool_false Hy), IH.
Qed.

Lemma length_insert_unique x l :
  StronglySorted Qlt l ->
  length (insert_unique x l)
  = if existsb (Qeq_bool x) l then length l else S (length l).
Proof.
  induction 1 as [|z t Hs IH Hz]; simpl; [reflexivity|].
  destruct (Qeq_bool x z) eqn:E; simpl; [reflexivity|].
  destruct (Qle_bool x z) eqn:L; simpl.
  - pose proof (Qeq_bool_false_lt _ _ E L) as Hxz.
    rewrite existsb_above; [reflexivity|].
    rewrite Forall_forall in *. intros w Hw. apply Qlt_trans with z; auto.
  - rewrite IH. now destruct (existsb (Qeq_bool x) t).
Qed.

(** [nunique] counts the distinct values. *)
Lemma nunique_distinct l : nunique l = length (Spec.distinct l).
Proof.
  unfold nunique. induction l as [|x t IH]; simpl; [reflexivity|].
  rewrite length_insert_unique by apply unique_sorted_sorted.
  rewrite existsb_unique_sorted.
  destruct (existsb (Qeq_bool x) t); simpl; now rewrite IH.
Qed.

Lemma insert_unique_filter_keep p x l :
  respects_Qeq p -> StronglySorted Qlt l -> p x = true ->
  insert_unique x (filter p l) = filter p (insert_unique x l).
Proof.
  intros Hp Hs Hx. induction Hs as [|z t Hs IH Hz]; simpl.
  - now rewrite Hx.
  - destruct (Qeq_bool x z) eqn:E.
    + apply Qeq_bool_iff in E. simpl. rewrite <- (Hp _ _ E), Hx. simpl.
      apply Qeq_bool_iff in E. now rewrite E.
    + destruct (Qle_bool x z) eqn:L; simpl.
      * rewrite Hx. pose proof (Qeq_bool_false_lt _ _ E L) as Hxz.
        destruct (p z); simpl.
        -- now rewrite E, L.
        -- apply insert_unique_above.
           rewrite Forall_forall in *. intros w Hw.
           apply filter_In in Hw. apply Qlt_trans with z; [assumption|].
           apply Hz, Hw.
      * destruct (p z); simpl; [now rewrite E, L, IH | exact IH].
Qed.

Lemma insert_unique_filter_drop p x l :
  respects_Qeq p -> p x = false ->
  filter p (insert_unique x l) = filter p l.
Proof.
  intros Hp Hx. induction l as [|z t IH]; simpl.
  - now rewrite Hx.
  - destruct (Qeq_bool x z) eqn:E; [reflexivity|].
    destruct (Qle_bool x z); simpl.
    + now rewrite Hx.
    + now rewrite IH.
Qed.

Lemma unique_sorted_filter p l :
  respects_Qeq p ->
  unique_sorted (filter p l) = filter p (unique_sorted l).
Proof.
  intros Hp. induction l as [|x t IH]; simpl; [reflexivity|].
  destruct (p x) eqn:Hx; simpl.
  - rewrite IH. apply insert_unique_filter_keep; auto using unique_sorted_sorted.
  - rewrite IH. symmetry. now apply insert_unique_filter_drop.
Qed.

Lemma sorted_nth_lt l :
  StronglySorted Qlt l ->
  forall i j, (i < j < length l)%nat -> nth i l 0 < nth j l 0.
Proof.
  induction 1 as [|z t Hs IH Hz]; intros i j Hij; simpl in *; [lia|].
  destruct j as [|j]; [lia|]. destruct i as [|i].
  - rewrite Forall_forall in Hz. apply Hz, nth_In. lia.
  - apply IH. lia.
Qed.

Lemma sorted_nth_eq l i j :
  StronglySorted Qlt l -> (i < length l)%nat -> (j < length l)%nat ->
  (Qeq_bool (nth i l 0) (nth j l 0) = true <-> j = i).
Proof.
  intros Hs Hi Hj. split.
  - intros E. apply Qeq_bool_iff in E.
    destruct (Nat.lt_trichotomy i j) as [H|[H|H]]; [|auto|].
    + pose proof (sorted_nth_lt Hs (conj H Hj)) as Hlt.
      rewrite E in Hlt. now apply Qlt_irrefl in Hlt.
    + pose proof (sorted_nth_lt Hs (conj H Hi)) as Hlt.
      rewrite E in Hlt. now apply Qlt_irrefl in Hlt.
  - intros ->. apply Qeq_bool_refl.
Qed.

Lemma sorted_NoDup l : StronglySorted Qlt l -> NoDup l.
Proof.
  induction 1 as [|z t Hs IH Hz]; constructor; [|assumption].
  intros Hin. rewrite Forall_forall in Hz. apply Hz in Hin.
  now apply Qlt_irrefl in Hin.
Qed.

Lemma filter_seq_single (f : nat -> bool) i n s :
  (s <= i < s + n)%nat ->
  (forall j, (s <= j < s + n)%nat -> (f j = true <-> j = i)) ->
  filter f (seq s n) = [i].
Proof.
  revert s. induction n as [|n IH]; intros s Hi Hf; simpl; [lia|].
  destruct (f s) eqn:E.
  - assert (s = i) as <- by (apply Hf; [lia | assumption]).
    f_equal.
    clear IH. assert (forall m t, (s < t)%nat ->
                 (forall j, (t <= j < t + m)%nat -> f j = false) ->
                 filter f (seq t m) = []) as Hnone.
    { induction m as [|m IHm]; intros t Ht Hall; simpl; [reflexivity|].
      rewrite (Hall t) by lia. apply IHm; [lia|]. intros; apply Hall; lia. }
    apply Hnone; [lia|]. intros j Hj.
    destruct (f j) eqn:Ej; [|reflexivity].
    apply Hf in Ej; lia.
  - apply IH.
    + assert (s <> i) by (intros ->; rewrite (proj2 (Hf i Hi) eq_refl) in E;
                          discriminate). lia.
    + intros j Hj. apply Hf. lia.
Qed.

(** ** The aggregation, step by step *)

Lemma flat_map_single {A B : Type} (f : A -> list B) (g : A -> B) l :
  (forall a, In a l -> f a = [g a]) -> flat_map f l = map g l.
Proof.
  induction l as [|a t IH]; simpl; intros H; [reflexivity|].
  rewrite (H a (or_introl eq_refl)). simpl. f_equal.
  apply IH. intros; apply H; now right.
Qed.

(** Joining two tables on the same strictly increasing key pairs row [i]
    with row [i]. *)
Lemma merge_pairs_diag ks :
  StronglySorted Qlt ks ->
  flat_map (fun i =>
              map (fun j => (i, j))
                  (filter (fun j => Qeq_bool (nth i ks 0) (nth j ks 0))
                          (seq 0 (length ks))))
           (seq 0 (length ks))
  = map (fun i => (i, i)) (seq 0 (length ks)).
Proof.
  intros Hs. apply flat_map_single. intros i Hi. apply in_seq in Hi.
  rewrite (@filter_seq_single _ i); [reflexivity | lia |].
  intros j Hj. apply sorted_nth_eq; [assumption | lia | lia].
Qed.

Lemma index_where_ge_map name ks (g : Q -> Q) t :
  index_where_ge (mkSeries name ks (map g ks)) t
  = filter (fun k => Qle_bool t (g k)) ks.
Proof.
  unfold index_where_ge. simpl.
  induction ks as [|k ks IH]; simpl; [reflexivity|].
  destruct (Qle_bool t (g k)); simpl; now rewrite IH.
Qed.

Lemma col_sub_rows {A : Type} (f g : A -> Q) l :
  col_sub (map f l) (map g l) = map (fun a => f a - g a) l.
Proof.
  unfold col_sub. induction l as [|a t IH]; simpl; [reflexivity|].
  now rewrite IH.
Qed.

Lemma length_mask_positions {A : Type} (p : A -> bool) l :
  length (mask_positions (map p l)) = length (filter p l).
Proof.
  rewrite <- (length_take _ (map (fun _ => 0) l)).
  now rewrite (take_mask p (fun _ => 0) l), length_map.
Qed.

Lemma labelled_mask df L (p : Z * Detection -> bool) :
  labelled df L -> labelled (mask_rows df (map p L)) (filter p L).
Proof.
  intros (Hn & H). unfold labelled, mask_rows.
  rewrite nrows_take_rows, length_mask_positions.
  split; [reflexivity|].
  rewrite !getitem_take_rows.
  destruct H as (-> & -> & -> & -> & -> & -> & -> & ->). simpl.
  rewrite !take_mask. repeat split; reflexivity.
Qed.

Lemma getitem_update_same df k v n i :
  getitem (mkDataFrame n i (update k v (columns df))) k = Ok v.
Proof. unfold getitem. simpl. now rewrite lookup_update_same. Qed.

Lemma getitem_update_other df k v k' n i :
  k <> k' ->
  getitem (mkDataFrame n i (update k v (columns df))) k' = getitem df k'.
Proof. intros H. unfold getitem. simpl. now rewrite lookup_update_other. Qed.

Ltac names_differ := let H := fresh in intro H; discriminate H.

Lemma valid_keys_code (L : list (Z * Detection)) thr :
  filter (fun k =>
     Qle_bool (Nq (nunique (map (fun ld => timestamp (snd ld)) L)) * thr)
       (Nq (nunique (group_values (map (fun ld => Zq (fst ld)) L)
                                  (map (fun ld => timestamp (snd ld)) L) k))))
    (unique_sorted (map (fun ld => Zq (fst ld)) L))
  = valid_keys thr L.
Proof.
  unfold valid_keys. apply filter_ext. intros k.
  rewrite group_values_rows. unfold members_q. now rewrite map_map.
Qed.

Lemma members_q_respects L k k' : k == k' -> members_q L k = members_q L k'.
Proof.
  intros E. unfold members_q. f_equal. apply filter_ext. intros a.
  apply Qeqb_comp; [reflexivity | exact E].
Qed.

Lemma filter_map_comm {A B : Type} (f : A -> B) (p : B -> bool) l :
  filter p (map f l) = map f (filter (fun a => p (f a)) l).
Proof.
  induction l as [|a t IH]; simpl; [reflexivity|].
  destruct (p (f a)); simpl; now rewrite IH.
Qed.

Lemma existsb_Qeq_respects vals : respects_Qeq (fun x => existsb (Qeq_bool x) vals).
Proof.
  intros x y E. induction vals as [|v t IH]; simpl; [reflexivity|].
  rewrite IH. f_equal. apply Qeqb_comp; [exact E | reflexivity].
Qed.

Lemma isin_filtered_keys (q : Q -> bool) us :
  respects_Qeq q ->
  filter (fun x => existsb (Qeq_bool x) (filter q us)) us = filter q us.
Proof.
  intros Hq. apply filter_ext_in. intros x Hx.
  destruct (q x) eqn:E.
  - apply existsb_exists. exists x. split; [|apply Qeq_bool_refl].
    apply filter_In. auto.
  - destruct (existsb _ _) eqn:F; [|reflexivity].
    apply existsb_exists in F. destruct F as (y & Hy & Exy).
    apply filter_In in Hy. apply Qeq_bool_iff in Exy.
    rewrite (Hq _ _ Exy) in E. destruct Hy; congruence.
Qed.

(** The keys of the filtered table are the kept keys. *)
Lemma keys_of_kept thr L :
  unique_sorted (map (fun ld => Zq (fst ld)) (filter (kept thr L) L))
  = valid_keys thr L.
Proof.
  unfold kept.
  rewrite <- (filter_map_comm (fun ld : Z * Detection => Zq (fst ld))
                (fun x => existsb (Qeq_bool x) (valid_keys thr L))).
  rewrite unique_sorted_filter by apply existsb_Qeq_respects.
  unfold valid_keys. apply isin_filtered_keys.
  intros x y E. now rewrite (members_q_respects L E).
Qed.

Lemma filter_filter_implied {A : Type} (p kp : A -> bool) l :
  (forall a, p a = true -> kp a = true) ->
  filter p (filter kp l) = filter p l.
Proof.
  intros Himp. induction l as [|b l IH]; simpl; [reflexivity|].
  destruct (p b) eqn:E.
  - rewrite (Himp b E). simpl. now rewrite E, IH.
  - destruct (kp b); simpl; [rewrite E|]; exact IH.
Qed.

(** A kept group keeps all its members. *)
Lemma members_of_kept thr L k :
  In k (valid_keys thr L) ->
  members_q (filter (kept thr L) L) k = members_q L k.
Proof.
  intros Hk. unfold members_q. f_equal. apply filter_filter_implied.
  intros a E. unfold kept. apply existsb_exists. exists k. now split.
Qed.

Lemma map_nth2_seq {A : Type} (F : Q -> Q -> Q) (a b : A -> Q) l :
  map (fun i => F (nth i (map a l) 0) (nth i (map b l) 0)) (seq 0 (length l))
  = map (fun k => F (a k) (b k)) l.
Proof.
  induction l as [|x t IH]; simpl; [reflexivity|].
  f_equal. rewrite <- seq_shift, map_map. exact IH.
Qed.

Lemma reset_index_named df by_ :
  index_name df = Some by_ -> has_column df by_ = false ->
  reset_index df None
  = Ok (mkDataFrame None (range (nrows df)) ((by_, index df) :: columns df)).
Proof. intros Hn Hc. unfold reset_index. now rewrite Hn, Hc. Qed.

Lemma merge_sorted_key n1 i1 n2 i2 on a b ks (A B : column) :
  String.eqb on a = false -> String.eqb on b = false ->
  StronglySorted Qlt ks -> length A = length ks -> length B = length ks ->
  merge (mkDataFrame n1 i1 [(on, ks); (a, A)])
        (mkDataFrame n2 i2 [(on, ks); (b, B)]) on
  = Ok (mkDataFrame None (range (length ks)) [(on, ks); (a, A); (b, B)]).
Proof.
  intros Ha Hb Hs HA HB. unfold merge, getitem. simpl.
  rewrite String.eqb_refl. simpl. rewrite Hb. simpl.
  rewrite (merge_pairs_diag Hs). rewrite !map_map. simpl.
  rewrite map_id, length_map, length_seq.
  assert (EA : take (seq 0 (length ks)) A = A) by (rewrite <- HA; apply take_seq).
  assert (EB : take (seq 0 (length ks)) B = B) by (rewrite <- HB; apply take_seq).
  now rewrite (take_seq ks), EA, EB.
Qed.

Lemma apply_min_side n idx ks (W H : column) :
  apply_axis1 (mkDataFrame n idx [("cluster", ks); ("width", W); ("height", H)])
              min_side
  = Ok (map (fun i => if Qltb (nth i W 0) (nth i H 0)
                      then nth i W 0 else nth i H 0)
            (seq 0 (length idx))).
Proof.
  unfold apply_axis1. apply mapR_ok. intros i _.
  unfold min_side, getitem. simpl.
  now destruct (Qltb (nth i W 0) (nth i H 0)).
Qed.

Lemma length_range n : length (range n) = n.
Proof. unfold range. now rewrite length_map, length_seq. Qed.

Lemma index_eqb_refl l : index_eqb l l = true.
Proof.
  induction l as [|x t IH]; simpl; [reflexivity|].
  now rewrite Qeq_bool_refl, IH.
Qed.

(** Lines 56-64 on the three tables of medians. *)
Lemma aggregate_tail ks (CX CY W H : column) size :
  StronglySorted Qlt ks ->
  length W = length ks -> length H = length ks ->
  (median_centers <- reset_index (mkDataFrame (Some "cluster") ks
                                     [("cx", CX); ("cy", CY)]) None ;;
   median_width <- reset_index (mkDataFrame (Some "cluster") ks
                                     [("width", W)]) None ;;
   median_height <- reset_index (mkDataFrame (Some "cluster") ks
                                     [("height", H)]) None ;;
   sides <- merge median_width median_height "cluster" ;;
   m <- apply_axis1 sides min_side ;;
   sides <- setitem sides "min_side" m ;;
   ms <- getitem sides "min_side" ;;
   sides <- setitem sides "radius" (col_scale ms (size / 2)) ;;
   radius <- getitem_series sides "radius" ;;
   median_coords <- concat_axis1 median_centers radius ;;
   median_coords <- getitems median_coords ["cx"; "cy"; "radius"] ;;
   Ok (reset_index_drop median_coords))%py
  = Ok (mkDataFrame None (range (length ks))
          [("cx", CX); ("cy", CY);
           ("radius",
            col_scale (map (fun i => if Qltb (nth i W 0) (nth i H 0)
                                     then nth i W 0 else nth i H 0)
                           (seq 0 (length ks))) (size / 2))]).
Proof.
  intros Hs HW HH.
  rewrite !(@reset_index_named _ "cluster") by reflexivity.
  cbn [bindR index columns nrows].
  rewrite merge_sorted_key by (assumption || reflexivity).
  cbn [bindR]. rewrite apply_min_side, length_range. cbn [bindR].
  rewrite setitem_ok
    by (unfold nrows; cbn [index]; now rewrite length_map, length_seq, length_range).
  cbn [bindR index_name index columns].
  set (m := map _ (seq 0 (length ks))).
  assert (Hm : length m = length ks) by (unfold m; now rewrite length_map, length_seq).
  change (update "min_side" m [("cluster", ks); ("width", W); ("height", H)])
    with [("cluster", ks); ("width", W); ("height", H); ("min_side", m)].
  change (getitem _ "min_side") with (Ok (A:=column) m). cbn [bindR].
  rewrite setitem_ok
    by (unfold nrows, col_scale; cbn [index]; now rewrite length_map, length_range).
  cbn [bindR index_name index columns].
  unfold getitem_series.
  change (getitem _ "radius") with (Ok (A:=column) (col_scale m (size / 2))).
  cbn [bindR index]. unfold concat_axis1. cbn [index s_index].
  rewrite index_eqb_refl. cbn [bindR].
  unfold getitems, getitem, reset_index_drop, nrows. simpl.
  now rewrite length_range.
Qed.

Lemma sorted_filter (p : Q -> bool) l :
  StronglySorted Qlt l -> StronglySorted Qlt (filter p l).
Proof.
  induction 1 as [|z t Hs IH Hz]; simpl; [constructor|].
  destruct (p z); [|assumption]. constructor; [assumption|].
  rewrite Forall_forall in *. intros w Hw. apply filter_In in Hw. apply Hz, Hw.
Qed.

Lemma valid_keys_sorted thr L : StronglySorted Qlt (valid_keys thr L).
Proof. apply sorted_filter, unique_sorted_sorted. Qed.

Lemma aggregate_rows df L thr size :
  labelled df L ->
  aggregate df thr size
  = Ok (spaces_frame (map (fun k => space_of_members size (members_q L k))
                          (valid_keys thr L))).
Proof.
  intros HL. pose proof HL as (Hn & Hcl & Hts & _).
  unfold aggregate. rewrite Hts. cbn [bindR].
  unfold groupby_nunique. rewrite Hcl, Hts. cbn [bindR].
  rewrite index_where_ge_map, valid_keys_code.
  rewrite isin_rows.
  pose proof (labelled_mask (kept thr L) HL) as HF.
  unfold kept in HF at 1.
  set (dff := mask_rows df _) in *.
  pose proof (keys_of_kept thr L) as Hkeys.
  pose proof (members_of_kept thr L) as Hmem.
  set (L' := filter (kept thr L) L) in *.
  destruct HF as (Hn' & Hcl' & Hts' & Hcx' & Hcy' & Hx1' & Hy1' & Hx2' & Hy2').
  rewrite Hx2', Hx1'. cbn [bindR].
  rewrite col_sub_rows.
  rewrite setitem_ok by (now rewrite length_map).
  set (df1 := mkDataFrame _ _ _). cbn [bindR].
  assert (H1 : forall k, "width" <> k -> getitem df1 k = getitem dff k)
    by (intros; now apply getitem_update_other).
  rewrite !H1 by names_differ. rewrite Hy2', Hy1'. cbn [bindR].
  rewrite col_sub_rows.
  rewrite setitem_ok by (now rewrite length_map).
  set (df2 := mkDataFrame _ _ _). cbn [bindR].
  assert (H2 : forall k, "height" <> k -> getitem df2 k = getitem df1 k)
    by (intros; now apply getitem_update_other).
  assert (Hh : getitem df2 "height"
               = Ok (map (fun a : Z * Detection => y2 (snd a) - y1 (snd a)) L'))
    by apply getitem_update_same.
  assert (Hw : getitem df2 "width"
               = Ok (map (fun a : Z * Detection => x2 (snd a) - x1 (snd a)) L')).
  { rewrite H2 by names_differ. apply getitem_update_same. }
  assert (Hc2 : getitem df2 "cluster" = Ok (map (fun ld => Zq (fst ld)) L')).
  { rewrite H2, H1 by names_differ. exact Hcl'. }
  assert (Hx2 : getitem df2 "cx" = Ok (map (fun ld => cx (snd ld)) L')).
  { rewrite H2, H1 by names_differ. exact Hcx'. }
  assert (Hy2 : getitem df2 "cy" = Ok (map (fun ld => cy (snd ld)) L')).
  { rewrite H2, H1 by names_differ. exact Hcy'. }
  clearbody df2. clear H1 H2 df1.
  unfold groupby_median.
  rewrite Hc2. cbn [bindR].
  unfold getitems at 1 2 3. cbn [mapR].
  rewrite Hx2, Hy2, Hw, Hh. cbn [bindR columns map fst snd].
  rewrite Hkeys.
  rewrite aggregate_tail by (apply length_map || apply valid_keys_sorted).
  unfold spaces_frame. rewrite length_map. f_equal. unfold col_scale.
  rewrite (map_nth2_seq (fun w h => if Qltb w h then w else h)), !map_map.
  assert (Hg : forall (g : Detection -> Q) k, In k (valid_keys thr L) ->
            group_values (map (fun ld : Z * Detection => Zq (fst ld)) L')
                         (map (fun ld : Z * Detection => g (snd ld)) L') k
            = map g (members_q L k)).
  { intros g k Hk. rewrite group_values_rows, <- (Hmem k Hk).
    unfold members_q. now rewrite map_map. }
  match goal with
  | |- mkDataFrame _ _ [(_, ?a); (_, ?b); (_, ?c)]
       = mkDataFrame _ _ [(_, ?a'); (_, ?b'); (_, ?c')] =>
      assert (Ea : a = a'); [| assert (Eb : b = b'); [| assert (Ec : c = c');
        [| now rewrite Ea, Eb, Ec]]]
  end; apply map_ext_in; intros k Hk; unfold space_of_members;
    cbn [p_cx p_cy p_radius].
  - now rewrite (Hg cx k Hk).
  - now rewrite (Hg cy k Hk).
  - change (fun a : Z * Detection => x2 (snd a) - x1 (snd a))
      with (fun a : Z * Detection => Spec.width (snd a)).
    change (fun a : Z * Detection => y2 (snd a) - y1 (snd a))
      with (fun a : Z * Detection => Spec.height (snd a)).
    now rewrite (Hg Spec.width k Hk), (Hg Spec.height k Hk).
Qed.


(** ** DBSCAN: the labelling terminates and labels every sample *)

Module DBSCAN_facts.
Import DBSCAN.

Lemma length_set_label i v labels :
  length (set_label i v labels) = length labels.
Proof.
  revert i. induction labels as [|x t IH]; intros [|i]; simpl; auto.
Qed.

Lemma pending_set_label i v labels :
  unlabelled labels i = true -> v <> (-1)%Z ->
  S (pending (set_label i v labels)) = pending labels.
Proof.
  unfold unlabelled, pending. revert i.
  induction labels as [|x t IH]; intros i Hi Hv.
  - destruct i; discriminate.
  - destruct i as [|i]; simpl in *.
    + rewrite Hi. apply Z.eqb_neq in Hv. now rewrite Hv.
    + destruct (Z.eqb x (-1)); simpl; now rewrite <- (IH i Hi Hv).
Qed.

Lemma length_filter_le {A : Type} (p : A -> bool) l :
  (length (filter p l) <= length l)%nat.
Proof.
  induction l as [|a t IH]; simpl; [lia|]. destruct (p a); simpl; lia.
Qed.

Section Expand.

Variable is_core : list bool.
Variable nbs : list (list nat).
Variable n : nat.
Hypothesis nbs_small : forall i, (length (nth i nbs []) <= n)%nat.

Lemma expand_length fuel label_num : forall i stack labels labels',
  expand fuel is_core nbs label_num i stack labels = Some labels' ->
  length labels' = length labels.
Proof.
  induction fuel as [|fuel IH]; intros i stack labels labels'; simpl;
    [discriminate|].
  set (labels1 := if unlabelled labels i then _ else _).
  assert (Hl : length labels1 = length labels).
  { unfold labels1. destruct (unlabelled labels i); [apply length_set_label|reflexivity]. }
  destruct (if _ && _ then _ else _) as [|j stack2].
  - intros H. injection H as <-. exact Hl.
  - intros H. apply IH in H. congruence.
Qed.

Lemma expand_total fuel label_num : label_num <> (-1)%Z ->
  forall i stack labels,
    length labels = n ->
    (pending labels * S n + length stack < fuel)%nat ->
    exists labels', expand fuel is_core nbs label_num i stack labels = Some labels'.
Proof.
  intros Hnum. induction fuel as [|fuel IH]; intros i stack labels Hn Hfuel;
    [lia|]. simpl.
  destruct (unlabelled labels i) eqn:Hu; simpl.
  - pose proof (pending_set_label i labels Hu Hnum) as Hp.
    set (labels1 := set_label i label_num labels) in *.
    assert (Hl1 : length labels1 = n)
      by (unfold labels1; now rewrite length_set_label).
    set (stack1 := if nth i is_core false then _ else stack).
    assert (Hs1 : (length stack1 <= n + length stack)%nat).
    { unfold stack1. destruct (nth i is_core false); [|lia].
      rewrite length_app, length_rev.
      pose proof (length_filter_le (unlabelled labels1) (nth i nbs [])).
      pose proof (nbs_small i). lia. }
    destruct stack1 as [|j stack2]; [eauto|].
    apply IH; [assumption|]. simpl in Hs1.
    rewrite <- Hp in Hfuel. simpl in Hfuel. lia.
  - destruct stack as [|j stack2]; [eauto|].
    apply IH; [assumption|]. simpl in Hfuel. lia.
Qed.

Lemma inner_step_total i labels label_num :
  length labels = n -> (0 <= label_num)%Z ->
  exists labels' num',
    inner_step is_core nbs (Some (labels, label_num)) i = Some (labels', num')
    /\ length labels' = n /\ (0 <= num')%Z.
Proof.
  intros Hn Hnum. unfold inner_step.
  destruct (negb (unlabelled labels i) || negb (nth i is_core false)).
  - eauto.
  - destruct (@expand_total (expand_fuel (length labels)) label_num
                ltac:(lia) i [] labels Hn) as [labels' E].
    { unfold expand_fuel. rewrite Hn. simpl.
      pose proof (length_filter_le (fun z => Z.eqb z (-1)%Z) labels) as Hle.
      unfold pending. rewrite Hn in Hle. nia. }
    rewrite E. exists labels', (label_num + 1)%Z.
    apply expand_length in E. repeat split; [congruence | lia].
Qed.

Lemma inner_loop_total : forall (idx : list nat) labels label_num,
  length labels = n -> (0 <= label_num)%Z ->
  exists labels' num',
    fold_left (inner_step is_core nbs) idx (Some (labels, label_num))
    = Some (labels', num') /\ length labels' = n.
Proof.
  induction idx as [|i idx IH]; intros labels label_num Hn Hnum; cbn [fold_left].
  - eauto.
  - destruct (inner_step_total i labels Hn Hnum) as (l' & n' & E & Hl & Hn').
    rewrite E. now apply IH.
Qed.

End Expand.

Lemma neighborhoods_small eps X i :
  (length (nth i (neighborhoods eps X) []) <= length X)%nat.
Proof.
  unfold neighborhoods.
  destruct (Nat.lt_ge_cases i (length (seq 0 (length X)))) as [Hi|Hi].
  - rewrite (nth_indep _ [] (neighborhood eps X 0))
      by (now rewrite length_map).
    rewrite map_nth. unfold neighborhood.
    etransitivity; [apply length_filter_le|]. now rewrite length_seq.
  - rewrite nth_overflow by (now rewrite length_map). simpl. lia.
Qed.

(** [fit] succeeds on every non-empty input with a positive [eps], and
    gives one label per sample. *)
Lemma fit_total eps min_samples X :
  0 < eps -> X <> [] ->
  exists labels, fit eps min_samples X = Ok labels /\ length labels = length X.
Proof.
  intros Heps HX. unfold fit.
  assert (Qltb 0 eps = true) as ->.
  { unfold Qltb. destruct (Qle_bool eps 0) eqn:E; [|reflexivity].
    apply Qle_bool_iff in E. exfalso. apply (Qlt_not_le _ _ Heps E). }
  simpl. destruct X as [|x X']; [contradiction|]. cbn [length Nat.eqb].
  set (X := x :: X') in *.
  destruct (@inner_loop_total
              (core_samples min_samples (neighborhoods eps X))
              (neighborhoods eps X) (length X) (neighborhoods_small eps X)
              (seq 0 (length X)) (repeat (-1)%Z (length X)) 0%Z
              (repeat_length _ _) ltac:(lia))
    as (labels' & num' & E & Hl).
  exists labels'. unfold dbscan_inner. rewrite repeat_length.
  change (S (length X')) with (length X). rewrite E. simpl. auto.
Qed.

Lemma fit_raises_empty eps min_samples : raises (fit eps min_samples []).
Proof.
  unfold fit. destruct (negb (Qltb 0 eps)); simpl; eexists; reflexivity.
Qed.

End DBSCAN_facts.

(** ** The discoverer on a table of detections *)

Lemma centers_values n idx dets :
  length idx = length dets ->
  values (mkDataFrame n idx [("cx", map cx dets); ("cy", map cy dets)])
  = centers dets.
Proof.
  intros Hl. unfold values, nrows, centers. cbn [index columns map snd].
  rewrite Hl. clear Hl.
  induction dets as [|d t IH]; simpl; [reflexivity|].
  f_equal. rewrite <- seq_shift, map_map. exact IH.
Qed.

Lemma length_centers dets : length (centers dets) = length dets.
Proof. apply length_map. Qed.

Lemma map_fst_combine {A B C : Type} (f : A -> C) (a : list A) (b : list B) :
  length a = length b -> map (fun p => f (fst p)) (combine a b) = map f a.
Proof.
  revert b. induction a as [|x a IH]; intros [|y b] H; simpl in *;
    try discriminate; [reflexivity|]. f_equal. apply IH. lia.
Qed.

Lemma map_snd_combine {A B C : Type} (f : B -> C) (a : list A) (b : list B) :
  length a = length b -> map (fun p => f (snd p)) (combine a b) = map f b.
Proof.
  revert b. induction a as [|x a IH]; intros [|y b] H; simpl in *;
    try discriminate; [reflexivity|]. f_equal. apply IH. lia.
Qed.

Lemma labelled_with_cluster df dets labels :
  holds df dets -> length labels = length dets ->
  labelled (with_cluster df labels) (combine labels dets).
Proof.
  intros (Hn & Hts & Hcx & Hcy & Hx1 & Hy1 & Hx2 & Hy2) Hl.
  unfold labelled, with_cluster.
  rewrite getitem_update_same.
  rewrite !getitem_update_other by names_differ.
  rewrite (map_fst_combine Zq _ _ Hl).
  rewrite !map_snd_combine by exact Hl.
  unfold nrows in *. cbn [index]. rewrite length_combine, Hl, Nat.min_id.
  repeat split; assumption.
Qed.

(** What one call computes and what it leaves in the caller's table. *)
Lemma discover_rows df dets eps thr size :
  holds df dets -> dets <> [] -> 0 < eps ->
  exists labels,
    DBSCAN.fit eps 2 (centers dets) = Ok labels /\
    length labels = length dets /\
    get_parking_spaces eps thr size df
    = (Ok (spaces_frame
             (map (fun k => space_of_members size
                              (members_q (combine labels dets) k))
                  (valid_keys thr (combine labels dets)))),
       with_cluster df labels).
Proof.
  intros Hh Hne Heps.
  destruct (@DBSCAN_facts.fit_total eps 2 (centers dets) Heps) as (labels & Hfit & Hl).
  { destruct dets; [contradiction | discriminate]. }
  rewrite length_centers in Hl.
  exists labels. split; [assumption|]. split; [assumption|].
  pose proof (@labelled_with_cluster df dets labels Hh Hl) as HL.
  destruct Hh as (Hn & Hts & Hcx & Hcy & _).
  unfold get_parking_spaces, bind, reading, assign, getitems. cbn [mapR].
  rewrite Hcx, Hcy. cbn [bindR].
  rewrite centers_values by exact Hn. rewrite Hfit.
  rewrite setitem_ok by (now rewrite length_map, Hl).
  fold (with_cluster df labels).
  now rewrite (@aggregate_rows _ _ thr size HL).
Qed.

(** ** Groups, seen as sets of detections *)

Lemma members_q_Zq labels dets c :
  members_q (combine labels dets) (Zq c) = Spec.members labels dets c.
Proof.
  unfold members_q, Spec.members. f_equal. apply filter_ext. intros a.
  apply Qeq_bool_Zq.
Qed.

Lemma Zq_inj a b : Zq a = Zq b -> a = b.
Proof. unfold Zq, inject_Z. intros H. now injection H. Qed.

Lemma Qfloor_Zq c : Qfloor (Zq c) = c.
Proof. apply Qfloor_Z. Qed.

Lemma valid_keys_labels thr labels dets k :
  In k (valid_keys thr (combine labels dets)) ->
  exists c, k = Zq c /\ In c labels.
Proof.
  unfold valid_keys. intros H. apply filter_In in H. destruct H as [H _].
  apply unique_sorted_in, in_map_iff in H. destruct H as ([c d] & <- & Hin).
  exists c. split; [reflexivity|]. now apply in_combine_l in Hin.
Qed.

Lemma map_Zq_accepted thr labels dets :
  map Zq (accepted_clusters thr labels dets)
  = valid_keys thr (combine labels dets).
Proof.
  unfold accepted_clusters. rewrite map_map.
  rewrite <- (map_id (valid_keys _ _)) at 2.
  apply map_ext_in. intros k Hk.
  apply valid_keys_labels in Hk. destruct Hk as (c & -> & _).
  now rewrite Qfloor_Zq.
Qed.

Lemma in_unique_sorted_Zq c (l : list Z) :
  In (Zq c) (unique_sorted (map Zq l)) <-> In c l.
Proof.
  split.
  - intros H. apply unique_sorted_in, in_map_iff in H.
    destruct H as (c' & E & Hin). apply Zq_inj in E. now subst.
  - intros H.
    assert (E : existsb (Qeq_bool (Zq c)) (unique_sorted (map Zq l)) = true).
    { rewrite existsb_unique_sorted. apply existsb_exists.
      exists (Zq c). split; [now apply in_map | apply Qeq_bool_refl]. }
    apply existsb_exists in E. destruct E as (y & Hy & Ey).
    pose proof (unique_sorted_in _ _ Hy) as Hy'. apply in_map_iff in Hy'.
    destruct Hy' as (c' & <- & _). rewrite Qeq_bool_Zq in Ey.
    apply Z.eqb_eq in Ey. now subst.
Qed.

(** Line 43 is the recurrence test of the specification. *)
Lemma accepted_iff thr labels dets c :
  length labels = length dets ->
  (In c (accepted_clusters thr labels dets)
   <-> In c labels /\ Spec.recurs thr labels dets c).
Proof.
  intros Hl.
  assert (Hin : In c (accepted_clusters thr labels dets)
                <-> In (Zq c) (valid_keys thr (combine labels dets))).
  { rewrite <- map_Zq_accepted. split; [apply in_map|].
    intros H. apply in_map_iff in H. destruct H as (c' & E & H).
    apply Zq_inj in E. now subst. }
  rewrite Hin. unfold valid_keys. rewrite filter_In.
  rewrite (map_fst_combine Zq _ _ Hl), in_unique_sorted_Zq.
  rewrite (map_snd_combine timestamp _ _ Hl), members_q_Zq.
  rewrite !nunique_distinct, Qle_bool_iff.
  unfold Spec.recurs, Spec.T, Spec.presence.
  now rewrite (Qmult_comm thr).
Qed.

Lemma accepted_NoDup thr labels dets :
  NoDup (accepted_clusters thr labels dets).
Proof.
  apply (NoDup_map_inv Zq). rewrite map_Zq_accepted.
  apply sorted_NoDup, valid_keys_sorted.
Qed.

(** The radius of line 58-59 is [min(w, h) * space_size / 2]. *)
Lemma same_space_canonical size ms :
  Spec.same_space (space_of_members size ms) (Spec.canonical size ms).
Proof.
  unfold Spec.same_space, space_of_members, Spec.canonical. simpl.
  split; [reflexivity|]. split; [reflexivity|].
  set (w := median (map Spec.width ms)). set (h := median (map Spec.height ms)).
  unfold Qltb. destruct (Qle_bool h w) eqn:E; simpl.
  - apply Qle_bool_iff in E. rewrite (Q.min_r _ _ E). field.
  - apply Qle_bool_false_lt in E. rewrite (Q.min_l w h) by now apply Qlt_le_weak.
    field.
Qed.

(** One call of the discoverer, group by group. *)
Lemma discover_clusters df dets eps thr size :
  holds df dets -> dets <> [] -> 0 < eps ->
  exists labels,
    DBSCAN.fit eps 2 (centers dets) = Ok labels /\
    length labels = length dets /\
    get_parking_spaces eps thr size df
    = (Ok (spaces_frame
             (map (fun c => space_of_members size (Spec.members labels dets c))
                  (accepted_clusters thr labels dets))),
       with_cluster df labels).
Proof.
  intros Hh Hne Heps.
  destruct (discover_rows thr size Hh Hne Heps) as (labels & Hfit & Hl & Hrun).
  exists labels. split; [assumption|]. split; [assumption|].
  rewrite Hrun. do 3 f_equal.
  rewrite <- map_Zq_accepted, map_map.
  apply map_ext. intros c. now rewrite members_q_Zq.
Qed.

(** ** The discoverer: claims *)

Lemma Forall2_map_left {A B : Type} (R : A -> B -> Prop) (f : B -> A) l :
  (forall b, R (f b) b) -> Forall2 R (map f l) l.
Proof. intros H. induction l; simpl; constructor; auto. Qed.

(** The two readings of the radius differ: on [mixed_boxes] the smaller
    median side is 20, the median shorter side is 10. *)
Lemma median_of_min_differs :
  p_radius (Spec.canonical (1 # 2) mixed_boxes) == 5 /\
  Spec.radius_of_median_min (1 # 2) mixed_boxes == 5 # 2.
Proof. split; vm_compute; reflexivity. Qed.

(** The scenario of the specification runs as it says: one space at
    (100, 100) of radius 10; the stray detection is labelled noise. *)
Lemma scenario_runs :
  DBSCAN.fit 15 2 (centers scenario) = Ok [0; 0; 0; -1]%Z /\
  exists r,
    fst (get_parking_spaces 15 (9 # 10) (1 # 2) (detections_frame scenario))
    = Ok (spaces_frame [mkParkingSpace 100 100 r]) /\ r == 10.
Proof.
  split; [vm_compute; reflexivity|].
  eexists. split; [vm_compute; reflexivity | reflexivity].
Qed.




(** ** Failures of the discoverer *)

Lemma getitem_fails {A : Type} df k e :
  getitem df k = Raise e -> fails_invalid_input (Raise (A:=A) e).
Proof.
  unfold getitem. destruct (lookup k (columns df)); [discriminate|].
  intros H. injection H as <-. exists (KeyError k). now split.
Qed.

Lemma setitem_fails {A : Type} df k vals e :
  setitem df k vals = Raise e -> fails_invalid_input (Raise (A:=A) e).
Proof.
  unfold setitem. destruct (Nat.eqb _ _); [discriminate|].
  intros H. injection H as <-. eexists. now split.
Qed.

Lemma fit_fails {A : Type} eps min_samples X e :
  DBSCAN.fit eps min_samples X = Raise e ->
  fails_invalid_input (Raise (A:=A) e).
Proof.
  intros H. exists e. split; [reflexivity|].
  destruct (Qlt_le_dec 0 eps) as [Heps|Heps].
  - destruct X as [|x X'].
    + unfold DBSCAN.fit in H. destruct (negb (Qltb 0 eps));
        simpl in H; injection H as <-; exact I.
    + destruct (@DBSCAN_facts.fit_total eps min_samples (x :: X') Heps)
        as (l & E & _); [discriminate|]. congruence.
  - unfold DBSCAN.fit, Qltb in H. apply Qle_bool_iff in Heps.
    rewrite Heps in H. simpl in H. injection H as <-. exact I.
Qed.

Lemma length_col_sub_take idx a b :
  length (col_sub (take idx a) (take idx b)) = length idx.
Proof.
  unfold col_sub. rewrite length_map, length_combine, !length_take.
  apply Nat.min_id.
Qed.

(** A missing column makes the aggregation fail with a [KeyError]. *)
Lemma aggregate_fails_missing df thr size cl k :
  getitem df "cluster" = Ok cl ->
  In k ["timestamp"; "x2"; "x1"; "y2"; "y1"] ->
  has_column df k = false ->
  fails_invalid_input (aggregate df thr size).
Proof.
  intros Hcl Hk Hmiss. apply has_column_false in Hmiss.
  unfold aggregate.
  destruct (getitem df "timestamp") as [ts|e] eqn:E1;
    [|(eapply getitem_fails; exact E1)].
  cbn [bindR]. unfold groupby_nunique. rewrite Hcl, E1. cbn [bindR].
  unfold mask_rows. set (pos := mask_positions _).
  rewrite !getitem_take_rows.
  destruct (getitem df "x2") as [c2|e] eqn:E2; [|(eapply getitem_fails; exact E2)].
  destruct (getitem df "x1") as [c1|e] eqn:E3; [|(eapply getitem_fails; exact E3)].
  cbn [bindR].
  rewrite setitem_ok by (now rewrite length_col_sub_take, nrows_take_rows).
  cbn [bindR].
  rewrite !getitem_update_other by names_differ.
  rewrite !getitem_take_rows.
  destruct (getitem df "y2") as [d2|e] eqn:E4; [|(eapply getitem_fails; exact E4)].
  destruct (getitem df "y1") as [d1|e] eqn:E5; [|(eapply getitem_fails; exact E5)].
  exfalso. simpl in Hk.
  repeat (destruct Hk as [<-|Hk]; [congruence|]). exact Hk.
Qed.

(** A well-formed table with the required columns holds detections. *)
Lemma well_formed_holds df :
  well_formed df ->
  (forall k, In k required_columns -> has_column df k = true) ->
  exists dets, holds df dets.
Proof.
  intros Hwf Hall.
  assert (Hget : forall k, In k required_columns ->
             exists c, getitem df k = Ok c /\ length c = nrows df).
  { intros k Hk. apply Hall, has_column_getitem in Hk. destruct Hk as [c Hc].
    exists c. split; [exact Hc | exact (@well_formed_getitem df k c Hwf Hc)]. }
  unfold required_columns in Hget.
  destruct (Hget "timestamp") as (ts & Ets & Lts); [simpl; tauto|].
  destruct (Hget "cx") as (xs & Exs & Lxs); [simpl; tauto|].
  destruct (Hget "cy") as (ys & Eys & Lys); [simpl; tauto|].
  destruct (Hget "x1") as (a1 & Ea1 & La1); [simpl; tauto|].
  destruct (Hget "y1") as (b1 & Eb1 & Lb1); [simpl; tauto|].
  destruct (Hget "x2") as (a2 & Ea2 & La2); [simpl; tauto|].
  destruct (Hget "y2") as (b2 & Eb2 & Lb2); [simpl; tauto|].
  exists (map (fun i => mkDetection (nth i ts 0) (nth i xs 0) (nth i ys 0)
                          (nth i a1 0) (nth i b1 0)
                          (nth i a2 0) (nth i b2 0))
              (seq 0 (nrows df))).
  unfold holds. rewrite length_map, length_seq, !map_map. cbn.
  rewrite Ets, Exs, Eys, Ea1, Eb1, Ea2, Eb2.
  assert (Hcol : forall c : column, length c = nrows df ->
             map (fun i => nth i c 0) (seq 0 (nrows df)) = c)
    by (intros c <-; apply map_nth_seq).
  rewrite !Hcol by assumption. repeat split; reflexivity.
Qed.

(** The control flow of one call. *)
Lemma get_parking_spaces_unfold eps thr size df :
  get_parking_spaces eps thr size df =
  match getitem df "cx" with
  | Raise e => (Raise e, df)
  | Ok xs =>
      match getitem df "cy" with
      | Raise e => (Raise e, df)
      | Ok ys =>
          match DBSCAN.fit eps 2
                  (values (mkDataFrame (index_name df) (index df)
                                       [("cx", xs); ("cy", ys)])) with
          | Raise e => (Raise e, df)
          | Ok labels =>
              match setitem df "cluster" (map Zq labels) with
              | Raise e => (Raise e, df)
              | Ok df' => (aggregate df' thr size, df')
              end
          end
      end
  end.
Proof.
  unfold get_parking_spaces, bind, reading, assign, getitems. cbn [mapR].
  destruct (getitem df "cx"); [|reflexivity].
  destruct (getitem df "cy"); [|reflexivity]. cbn [bindR].
  destruct (DBSCAN.fit _ _ _); [|reflexivity].
  destruct (setitem _ _ _); reflexivity.
Qed.

Lemma length_values df : length (values df) = nrows df.
Proof. unfold values. now rewrite length_map, length_seq. Qed.

Lemma missing_column_dec df :
  (forall k, In k required_columns -> has_column df k = true) \/
  (exists k, In k required_columns /\ has_column df k = false).
Proof.
  destruct (forallb (has_column df) required_columns) eqn:E.
  - left. now apply forallb_forall.
  - right. apply not_true_iff_false in E.
    destruct (existsb (fun k => negb (has_column df k)) required_columns) eqn:F.
    + apply existsb_exists in F. destruct F as (k & Hk & Hn).
      exists k. split; [exact Hk|]. now apply negb_true_iff.
    + exfalso. apply E, forallb_forall. intros k Hk.
      destruct (has_column df k) eqn:Hc; [reflexivity|].
      assert (existsb (fun k => negb (has_column df k)) required_columns = true).
      { apply existsb_exists. exists k. now rewrite Hc. }
      congruence.
Qed.

(** The clustering runs only with a positive [eps]. *)
Lemma fit_positive_eps eps min_samples X labels :
  DBSCAN.fit eps min_samples X = Ok labels -> 0 < eps.
Proof.
  unfold DBSCAN.fit, Qltb. intros H.
  destruct (Qle_bool eps 0) eqn:E; [discriminate H|].
  now apply Qle_bool_false_lt.
Qed.

(** With [eps <= 0] every call fails. *)
Lemma get_parking_spaces_fails_eps df eps thr size :
  eps <= 0 ->
  fails_invalid_input (fst (get_parking_spaces eps thr size df)).
Proof.
  intros Heps. rewrite get_parking_spaces_unfold.
  destruct (getitem df "cx") as [xs|e] eqn:Ex; [|(eapply getitem_fails; exact Ex)].
  destruct (getitem df "cy") as [ys|e] eqn:Ey; [|(eapply getitem_fails; exact Ey)].
  destruct (DBSCAN.fit _ _ _) as [labels|e] eqn:Ef; [|(eapply fit_fails; exact Ef)].
  exfalso. apply fit_positive_eps in Ef. exact (Qlt_not_le _ _ Ef Heps).
Qed.

(** C7, as the code has it.  On a well-formed table the discoverer
    fails, with a [KeyError] or a [ValueError], exactly when the table
    has no rows, or lacks a required column, or [eps] is not positive;
    it fails in no other way; and when no cluster meets the recurrence
    threshold it does not fail and returns the empty table of spaces. *)
Theorem discoverer_fails_on_invalid_input_only df eps thr size :
  well_formed df ->
  (fails_invalid_input (fst (get_parking_spaces eps thr size df))
   <-> nrows df = 0%nat \/
       (exists k, In k required_columns /\ has_column df k = false) \/
       eps <= 0) /\
  (raises (fst (get_parking_spaces eps thr size df))
   -> fails_invalid_input (fst (get_parking_spaces eps thr size df))) /\
  (forall dets labels,
     holds df dets -> dets <> [] ->
     DBSCAN.fit eps 2 (centers dets) = Ok labels ->
     (forall c, In c labels -> ~ Spec.recurs thr labels dets c) ->
     fst (get_parking_spaces eps thr size df) = Ok (spaces_frame [])).
Proof.
  intros Hwf.
  assert (Hback : nrows df = 0%nat \/
                  (exists k, In k required_columns /\ has_column df k = false) \/
                  eps <= 0 ->
                  fails_invalid_input (fst (get_parking_spaces eps thr size df))).
  { (* an invalid input fails *)
    intros [Hz|[(k & Hk & Hmiss)|Heps]];
      [| |now apply get_parking_spaces_fails_eps];
      rewrite get_parking_spaces_unfold;
      (destruct (getitem df "cx") as [xs|e] eqn:Ex;
         [|(eapply getitem_fails; exact Ex)]);
      (destruct (getitem df "cy") as [ys|e] eqn:Ey;
         [|(eapply getitem_fails; exact Ey)]);
      (destruct (DBSCAN.fit _ _ _) as [labels|e] eqn:Ef;
         [|(eapply fit_fails; exact Ef)]);
      (destruct (setitem _ _ _) as [df'|e] eqn:Es;
         [|(eapply setitem_fails; exact Es)]);
      cbn [fst].
    + exfalso.
      assert (Hv : values (mkDataFrame (index_name df) (index df)
                                       [("cx", xs); ("cy", ys)]) = []).
      { apply length_zero_iff_nil. rewrite length_values. exact Hz. }
      rewrite Hv in Ef.
      destruct (DBSCAN_facts.fit_raises_empty eps 2) as [e He]. congruence.
    + assert (Hk' : k = "cx" \/ k = "cy" \/
                    In k ["timestamp"; "x2"; "x1"; "y2"; "y1"]).
      { unfold required_columns in Hk. simpl in Hk. simpl.
        intuition auto. }
      apply has_column_false in Hmiss.
      destruct Hk' as [->|[->|Hk']]; [congruence | congruence |].
      apply (@aggregate_fails_missing df' thr size (map Zq labels) k).
      * exact (@getitem_setitem_same _ _ _ _ Es).
      * exact Hk'.
      * apply has_column_false.
        rewrite (@getitem_setitem_other _ _ _ _ k Es); [exact Hmiss|].
        intros <-. simpl in Hk'. intuition discriminate. }
  assert (Hforth : raises (fst (get_parking_spaces eps thr size df)) ->
                   nrows df = 0%nat \/
                   (exists k, In k required_columns /\ has_column df k = false) \/
                   eps <= 0).
  { (* a failure comes from the input *)
    intros Hr.
    destruct (Qlt_le_dec 0 eps) as [Heps|Heps]; [|now right; right].
    destruct (Nat.eq_dec (nrows df) 0) as [Hz|Hnz]; [now left|].
    destruct (missing_column_dec df) as [Hall|Hmiss]; [|now right; left].
    exfalso. destruct (@well_formed_holds df Hwf Hall) as [dets Hh].
    assert (Hne : dets <> []).
    { destruct Hh as [Hn _]. intros ->. simpl in Hn. contradiction. }
    destruct (discover_clusters thr size Hh Hne Heps) as (labels & _ & _ & Hrun).
    rewrite Hrun in Hr. destruct Hr as [e He]. discriminate He. }
  split; [split|split].
  - intros (e & He & _). apply Hforth. now exists e.
  - exact Hback.
  - intros Hr. apply Hback, Hforth, Hr.
  - (* nothing recurs often enough: no space, no failure *)
    intros dets labels Hh Hne Hfit Hnone.
    pose proof (fit_positive_eps _ _ _ Hfit) as Heps.
    destruct (discover_clusters thr size Hh Hne Heps) as (labels' & Hfit' & Hl & Hrun).
    assert (labels' = labels) as -> by congruence.
    rewrite Hrun. cbn [fst].
    destruct (accepted_clusters thr labels dets) as [|c t] eqn:E; [reflexivity|].
    exfalso. assert (Hc : In c (accepted_clusters thr labels dets))
      by (rewrite E; now left).
    apply (@accepted_iff thr labels dets c Hl) in Hc. destruct Hc as [Hc Hrec].
    exact (Hnone c Hc Hrec).
Qed.

(** Three tables: a table with no rows fails, a table without its
    [timestamp] column fails, and three frames in which no group recurs
    in every frame give the empty table of spaces. *)
Lemma discoverer_fails_on_invalid_input_only_witness :
  well_formed (detections_frame []) /\
  fails_invalid_input
    (fst (get_parking_spaces 15 (9 # 10) (1 # 2) (detections_frame []))) /\
  well_formed (mkDataFrame None (range 1) [("cx", [100]); ("cy", [100])]) /\
  fails_invalid_input
    (fst (get_parking_spaces 15 (9 # 10) (1 # 2)
            (mkDataFrame None (range 1) [("cx", [100]); ("cy", [100])]))) /\
  well_formed (detections_frame passing_cars) /\
  ~ fails_invalid_input
      (fst (get_parking_spaces 15 1 (1 # 2) (detections_frame passing_cars))) /\
  fst (get_parking_spaces 15 1 (1 # 2) (detections_frame passing_cars))
  = Ok (spaces_frame []).
Proof.
  assert (H0 : well_formed (detections_frame [])) by (repeat constructor).
  assert (H1 : well_formed (mkDataFrame None (range 1)
                              [("cx", [100]); ("cy", [100])]))
    by (repeat constructor).
  assert (H2 : well_formed (detections_frame passing_cars))
    by (repeat constructor).
  pose proof (@discoverer_fails_on_invalid_input_only
                (detections_frame []) 15 (9 # 10) (1 # 2) H0) as (F0 & _).
  pose proof (@discoverer_fails_on_invalid_input_only
                (mkDataFrame None (range 1) [("cx", [100]); ("cy", [100])])
                15 (9 # 10) (1 # 2) H1) as (F1 & _).
  pose proof (@discoverer_fails_on_invalid_input_only
                (detections_frame passing_cars) 15 1 (1 # 2) H2)
    as (F2 & _ & E2).
  split; [exact H0|].
  split; [apply F0; left; reflexivity|].
  split; [exact H1|].
  split.
  { apply F1. right. left. exists "timestamp".
    split; [simpl; tauto | reflexivity]. }
  split; [exact H2|].
  split.
  { intros Hf. apply F2 in Hf.
    destruct Hf as [Hz|[(k & Hk & Hmiss)|Heps]].
    - discriminate Hz.
    - simpl in Hk.
      repeat (destruct Hk as [<-|Hk]; [discriminate Hmiss|]). exact Hk.
    - apply (Qlt_not_le 0 15); [reflexivity | exact Heps]. }
  apply (E2 passing_cars [0; 0; -1]%Z).
  - repeat split; reflexivity.
  - discriminate.
  - vm_compute. reflexivity.
  - intros c Hc Hrec. simpl in Hc.
    destruct Hc as [<-|[<-|[<-|[]]]]; vm_compute in Hrec; apply Hrec;
      reflexivity.
Defined.

(** C7 fails as stated: the table of the scenario is not empty and has
    every required column, and with [eps = 0] the call fails with the
    [ValueError] of scikit-learn's parameter check; so it does with a
    negative [eps]. *)
Lemma non_positive_eps_fails :
  nrows (detections_frame scenario) = 4%nat /\
  (forall k, In k required_columns ->
             has_column (detections_frame scenario) k = true) /\
  fst (get_parking_spaces 0 (9 # 10) (1 # 2) (detections_frame scenario))
  = Raise (ValueError "eps must be positive") /\
  fst (get_parking_spaces (-15) (9 # 10) (1 # 2) (detections_frame scenario))
  = Raise (ValueError "eps must be positive") /\
  fails_invalid_input
    (fst (get_parking_spaces 0 (9 # 10) (1 # 2) (detections_frame scenario))).
Proof.
  split; [reflexivity|]. split.
  { intros k Hk. simpl in Hk.
    repeat (destruct Hk as [<-|Hk]; [reflexivity|]). contradiction. }
  split; [vm_compute; reflexivity|]. split; [vm_compute; reflexivity|].
  eexists. split; [vm_compute; reflexivity | exact I].
Qed.

(** The three ways to fail, and the empty result, on small tables. *)
Lemma discoverer_failures_examples :
  fst (get_parking_spaces 15 (9 # 10) (1 # 2) (detections_frame []))
  = Raise (ValueError "Found array with 0 sample(s)") /\
  fst (get_parking_spaces 15 (9 # 10) (1 # 2)
         (mkDataFrame None (range 1) [("cx", [100]); ("cy", [100])]))
  = Raise (KeyError "timestamp") /\
  fst (get_parking_spaces 15 (9 # 10) (1 # 2)
         (mkDataFrame None (range 1) [("timestamp", [1]); ("cy", [100])]))
  = Raise (KeyError "cx") /\
  fst (get_parking_spaces 15 1 (1 # 2)
         (detections_frame [box 1 0 0 40 40; box 2 2 2 40 40;
                            box 3 500 500 40 40]))
  = Ok (spaces_frame []).
Proof. repeat split; vm_compute; reflexivity. Qed.

(** ** Repeated calls and the caller's table *)

Lemma setitem_twice df k vals df' :
  setitem df k vals = Ok df' -> setitem df' k vals = Ok df'.
Proof.
  unfold setitem. destruct (Nat.eqb (length vals) (nrows df)) eqn:E;
    [|discriminate].
  intros H. injection H as <-. unfold nrows in *. cbn [index].
  rewrite E. cbn [index_name index columns]. now rewrite update_update.
Qed.

Lemma fit_length eps min_samples X labels :
  DBSCAN.fit eps min_samples X = Ok labels -> length labels = length X.
Proof.
  intros H.
  destruct (Qlt_le_dec 0 eps) as [Heps|Heps].
  - destruct X as [|x X'].
    + destruct (DBSCAN_facts.fit_raises_empty eps min_samples). congruence.
    + destruct (@DBSCAN_facts.fit_total eps min_samples (x :: X') Heps)
        as (l & E & Hl); [discriminate|]. congruence.
  - unfold DBSCAN.fit, Qltb in H. apply Qle_bool_iff in Heps.
    rewrite Heps in H. discriminate.
Qed.

(** The result is a function of the detections and the parameters. *)
Lemma discover_depends_on_detections df1 df2 dets eps thr size :
  holds df1 dets -> holds df2 dets ->
  fst (get_parking_spaces eps thr size df1)
  = fst (get_parking_spaces eps thr size df2).
Proof.
  intros H1 H2. rewrite !get_parking_spaces_unfold.
  pose proof H1 as (Hn1 & _ & Hx1 & Hy1 & _).
  pose proof H2 as (Hn2 & _ & Hx2 & Hy2 & _).
  rewrite Hx1, Hy1, Hx2, Hy2.
  rewrite !centers_values by assumption.
  destruct (DBSCAN.fit eps 2 (centers dets)) as [labels|e] eqn:Ef;
    [|reflexivity].
  pose proof (fit_length _ _ _ Ef) as Hl. rewrite length_centers in Hl.
  rewrite !setitem_ok by (now rewrite length_map, Hl).
  cbn [fst]. fold (with_cluster df1 labels). fold (with_cluster df2 labels).
  rewrite (@aggregate_rows _ _ thr size (@labelled_with_cluster df1 dets labels H1 Hl)).
  rewrite (@aggregate_rows _ _ thr size (@labelled_with_cluster df2 dets labels H2 Hl)).
  reflexivity.
Qed.

(** C8. For fixed detections and parameters any two calls return the
    same result, be it a table of spaces or a failure: calling again on
    the same table, as the first call left it, gives the same result and
    leaves the same table behind (same cluster labels, same medians, same
    order of the rows), and so does a call on any other table that holds
    the same detections. *)
Theorem discoverer_deterministic df eps thr size :
  let first := get_parking_spaces eps thr size df in
  let second := get_parking_spaces eps thr size (snd first) in
  (fst second = fst first /\ snd second = snd first) /\
  (forall df2 dets,
     holds df dets -> holds df2 dets ->
     fst (get_parking_spaces eps thr size df2) = fst first).
Proof.
  cbv zeta. split;
    [|intros df2 dets H1 H2; symmetry;
      now apply discover_depends_on_detections with dets].
  rewrite (get_parking_spaces_unfold eps thr size df).
  destruct (getitem df "cx") as [xs|e] eqn:Ex;
    [|cbn [snd]; rewrite get_parking_spaces_unfold, Ex; now split].
  destruct (getitem df "cy") as [ys|e] eqn:Ey;
    [|cbn [snd]; rewrite get_parking_spaces_unfold, Ex, Ey; now split].
  destruct (DBSCAN.fit _ _ _) as [labels|e] eqn:Ef;
    [|cbn [snd]; rewrite get_parking_spaces_unfold, Ex, Ey, Ef; now split].
  destruct (setitem _ _ _) as [df'|e] eqn:Es;
    [|cbn [snd]; rewrite get_parking_spaces_unfold, Ex, Ey, Ef, Es; now split].
  cbn [fst snd]. rewrite get_parking_spaces_unfold.
  rewrite !(@getitem_setitem_other _ _ _ _ _ Es) by names_differ.
  rewrite Ex, Ey.
  assert (Hi : index df' = index df /\ index_name df' = index_name df).
  { unfold setitem in Es. destruct (Nat.eqb _ _); [|discriminate].
    injection Es as <-. now split. }
  destruct Hi as [-> ->]. rewrite Ef, (@setitem_twice _ _ _ _ Es). now split.
Qed.

(** Two calls on the scenario, and one on a table that already carries a
    [cluster] column. *)
Lemma discoverer_deterministic_witness :
  holds (detections_frame scenario) scenario /\
  holds scenario_again scenario /\
  fst (get_parking_spaces 15 (9 # 10) (1 # 2)
         (snd (get_parking_spaces 15 (9 # 10) (1 # 2)
                 (detections_frame scenario))))
  = fst (get_parking_spaces 15 (9 # 10) (1 # 2) (detections_frame scenario)) /\
  fst (get_parking_spaces 15 (9 # 10) (1 # 2) scenario_again)
  = fst (get_parking_spaces 15 (9 # 10) (1 # 2) (detections_frame scenario)).
Proof.
  assert (H1 : holds (detections_frame scenario) scenario)
    by (repeat split; reflexivity).
  assert (H2 : holds scenario_again scenario)
    by (repeat split; reflexivity).
  split; [exact H1|]. split; [exact H2|].
  pose proof (discoverer_deterministic (detections_frame scenario)
                15 (9 # 10) (1 # 2)) as H.
  cbv zeta in H. destruct H as [[Hsame _] Hother].
  split; [exact Hsame | exact (Hother scenario_again scenario H1 H2)].
Defined.

Lemma index_setitem df k vals df' :
  setitem df k vals = Ok df' ->
  index df' = index df /\ index_name df' = index_name df.
Proof.
  unfold setitem. destruct (Nat.eqb _ _); [|discriminate].
  intros H. injection H as <-. now split.
Qed.

(** C9, as the code has it.  The discoverer's only effect on the caller's
    table is the column [cluster], set to the labels of the clustering
    once it has run: the index and every other column are as they were,
    and [width] and [height] go to a copy, not to the caller's table. *)
Theorem discoverer_only_sets_cluster_column df eps thr size :
  let df' := snd (get_parking_spaces eps thr size df) in
  index df' = index df /\
  index_name df' = index_name df /\
  (forall k, k <> "cluster" -> getitem df' k = getitem df k) /\
  (forall xy labels,
     getitems df ["cx"; "cy"] = Ok xy ->
     DBSCAN.fit eps 2 (values xy) = Ok labels ->
     getitem df' "cluster" = Ok (map Zq labels)).
Proof.
  cbv zeta. rewrite get_parking_spaces_unfold. unfold getitems. cbn [mapR].
  destruct (getitem df "cx") as [xs|e] eqn:Ex;
    [|cbn [snd bindR]; repeat split; intros; discriminate].
  destruct (getitem df "cy") as [ys|e] eqn:Ey;
    [|cbn [snd bindR]; repeat split; intros; discriminate].
  cbn [bindR].
  destruct (DBSCAN.fit _ _ _) as [labels|e] eqn:Ef;
    [|cbn [snd]; repeat split; intros xy l H; injection H as <-; congruence].
  destruct (setitem _ _ _) as [df'|e] eqn:Es; cbn [snd].
  - destruct (@index_setitem _ _ _ _ Es) as [Hi Hn].
    repeat split; try assumption.
    + intros k Hk. apply (@getitem_setitem_other _ _ _ _ k Es). congruence.
    + intros xy l H Hl. injection H as <-.
      assert (l = labels) as -> by congruence.
      exact (@getitem_setitem_same _ _ _ _ Es).
  - repeat split. intros xy l H Hl. injection H as <-.
    assert (l = labels) as -> by congruence. exfalso.
    unfold setitem in Es. apply fit_length in Ef.
    rewrite length_values in Ef. unfold nrows in Ef at 1. cbn [index] in Ef.
    fold (nrows df) in Ef.
    rewrite length_map, Ef, Nat.eqb_refl in Es. discriminate.
Qed.

(** C9 fails as stated: the caller's table of one detection has no
    [cluster] column before the call and has one after it. *)
Lemma caller_table_gains_cluster_column :
  has_column (detections_frame lone_car) "cluster" = false /\
  has_column (snd (get_parking_spaces 15 (9 # 10) (1 # 2)
                     (detections_frame lone_car))) "cluster" = true /\
  snd (get_parking_spaces 15 (9 # 10) (1 # 2) (detections_frame lone_car))
  <> detections_frame lone_car.
Proof.
  split; [reflexivity|]. split; [vm_compute; reflexivity|].
  intros H. apply (f_equal (fun d => has_column d "cluster")) in H.
  vm_compute in H. discriminate H.
Qed.

(** ** Sorting *)

Section Sorting.

Context {A : Type}.
Variable leb : Q -> Q -> bool.
Hypothesis leb_total : forall a b, leb a b = false -> leb b a = true.
Hypothesis leb_trans :
  forall a b c, leb a b = true -> leb b c = true -> leb a c = true.

Let key_le (x y : Q * A) : Prop := leb (fst x) (fst y) = true.

Lemma insert_by_perm (x : Q * A) l : Permutation (insert_by leb x l) (x :: l).
Proof.
  induction l as [|y t IH]; simpl; [apply Permutation_refl|].
  destruct (leb (fst x) (fst y)); [apply Permutation_refl|].
  apply perm_trans with (y :: x :: t); [now apply perm_skip | apply perm_swap].
Qed.

Lemma sort_by_perm (l : list (Q * A)) : Permutation (sort_by leb l) l.
Proof.
  induction l as [|x t IH]; simpl; [apply perm_nil|].
  apply perm_trans with (x :: sort_by leb t);
    [apply insert_by_perm | now apply perm_skip].
Qed.

Lemma insert_by_sorted (x : Q * A) l :
  StronglySorted key_le l -> StronglySorted key_le (insert_by leb x l).
Proof.
  induction 1 as [|y t Hs IH Hy]; simpl.
  - repeat constructor.
  - destruct (leb (fst x) (fst y)) eqn:E.
    + constructor; [now constructor|].
      constructor; [exact E|].
      rewrite Forall_forall in *. intros z Hz.
      exact (leb_trans E (Hy z Hz)).
    + constructor; [exact IH|].
      rewrite Forall_forall in *. intros z Hz.
      apply (Permutation_in _ (insert_by_perm x t)) in Hz.
      destruct Hz as [<-|Hz]; [now apply leb_total | now apply Hy].
Qed.

Lemma sort_by_sorted (l : list (Q * A)) : StronglySorted key_le (sort_by leb l).
Proof.
  induction l as [|x t IH]; simpl; [constructor | now apply insert_by_sorted].
Qed.

Lemma sorted_keys_nth (s : list (Q * A)) :
  StronglySorted key_le s ->
  forall i j, (i < j < length s)%nat ->
    leb (nth i (map fst s) 0) (nth j (map fst s) 0) = true.
Proof.
  induction 1 as [|y t Hs IH Hy]; intros i j Hij; simpl in *; [lia|].
  destruct j as [|j]; [lia|]. destruct i as [|i].
  - rewrite Forall_forall in Hy.
    assert (Hin : In (nth j t (0, snd y)) t) by (apply nth_In; lia).
    specialize (Hy _ Hin). unfold key_le in Hy.
    rewrite (nth_indep _ 0 (fst (0, snd y))) by (rewrite length_map; lia).
    now rewrite map_nth.
  - apply IH. lia.
Qed.

End Sorting.

Lemma Qle_bool_total a b : Qle_bool a b = false -> Qle_bool b a = true.
Proof.
  intros H. apply Qle_bool_iff, Qlt_le_weak. now apply Qle_bool_false_lt.
Qed.

Lemma Qle_bool_trans a b c :
  Qle_bool a b = true -> Qle_bool b c = true -> Qle_bool a c = true.
Proof.
  rewrite !Qle_bool_iff. apply Qle_trans.
Qed.

Lemma Qle_bool_refl a : Qle_bool a a = true.
Proof. apply Qle_bool_iff, Qle_refl. Qed.

(** The positions paired with the keys point back at the keys. *)
Lemma combine_seq_points (pre l : list Q) :
  Forall (fun p => nth (snd p) (pre ++ l) 0 = fst p)
         (combine l (seq (length pre) (length l))).
Proof.
  revert pre. induction l as [|x t IH]; intros pre; simpl; constructor.
  - simpl. rewrite app_nth2 by lia. now rewrite Nat.sub_diag.
  - specialize (IH (pre ++ [x])). rewrite <- app_assoc in IH. simpl in IH.
    rewrite length_app in IH. simpl in IH. now rewrite Nat.add_1_r in IH.
Qed.

Lemma argsort_perm ascending keys :
  Permutation (argsort ascending keys) (seq 0 (length keys)).
Proof.
  unfold argsort.
  apply perm_trans with (map snd (combine keys (seq 0 (length keys)))).
  - apply Permutation_map, sort_by_perm.
  - rewrite (map_snd_combine (fun i : nat => i)), map_id;
      [apply Permutation_refl | now rewrite length_seq].
Qed.

Lemma length_argsort ascending keys :
  length (argsort ascending keys) = length keys.
Proof.
  rewrite (Permutation_length (argsort_perm ascending keys)).
  apply length_seq.
Qed.

(** Taking the keys in the order of [argsort] sorts them. *)
Lemma take_argsort ascending keys :
  take (argsort ascending keys) keys
  = map fst (sort_by (if ascending then Qle_bool
                      else fun a b => Qle_bool b a)
                     (combine keys (seq 0 (length keys)))).
Proof.
  unfold take, argsort. set (leb := if ascending then _ else _).
  set (s := sort_by leb _). rewrite map_map.
  apply map_ext_in. intros p Hp.
  apply (Permutation_in _ (sort_by_perm leb _)) in Hp.
  pose proof (combine_seq_points [] keys) as Hall.
  rewrite Forall_forall in Hall. exact (Hall p Hp).
Qed.

Lemma take_argsort_ascending keys :
  Spec.ascending (take (argsort true keys) keys).
Proof.
  rewrite take_argsort. intros i j [Hij Hj]. rewrite length_map in Hj.
  apply Qle_bool_iff.
  destruct (Nat.eq_dec i j) as [->|Hne]; [apply Qle_bool_refl|].
  apply (@sorted_keys_nth nat Qle_bool); [|lia].
  apply sort_by_sorted; [apply Qle_bool_total | apply Qle_bool_trans].
Qed.

Lemma take_argsort_descending keys :
  Spec.descending (take (argsort false keys) keys).
Proof.
  rewrite take_argsort. intros i j [Hij Hj]. rewrite length_map in Hj.
  apply Qle_bool_iff.
  destruct (Nat.eq_dec i j) as [->|Hne]; [apply Qle_bool_refl|].
  apply (@sorted_keys_nth nat (fun a b => Qle_bool b a)); [|lia].
  apply (@sort_by_sorted nat (fun a b => Qle_bool b a)).
  - intros a b. apply Qle_bool_total.
  - intros a b c H1 H2. exact (@Qle_bool_trans _ _ _ H2 H1).
Qed.

(** ** The orderer *)

Lemma has_column_take_rows idx df k :
  has_column (take_rows idx df) k = has_column df k.
Proof.
  unfold has_column, take_rows. simpl. rewrite lookup_map_take.
  now destruct (lookup k (columns df)).
Qed.

(** What [apply_order] returns. *)
Lemma apply_order_ok df flag keys :
  getitem df (order_key flag) = Ok keys ->
  has_column df "space" = false ->
  apply_order df flag = Ok (ordered df flag keys).
Proof.
  intros Hk Hs. unfold apply_order, sort_values, order_key in *.
  assert (E : reset_index
                (reset_index_drop (take_rows (argsort flag keys) df))
                (Some "space")
              = Ok (ordered df flag keys)).
  { unfold reset_index, reset_index_drop, has_column. cbn [columns].
    fold (has_column (take_rows (argsort flag keys) df) "space").
    rewrite has_column_take_rows, Hs. unfold ordered, nrows, take_rows.
    cbn [index columns].
    now rewrite length_range, length_take, length_argsort. }
  destruct flag; rewrite Hk; cbn [bindR]; exact E.
Qed.

Lemma apply_order_inv df flag out :
  apply_order df flag = Ok out ->
  exists keys, getitem df (order_key flag) = Ok keys /\
               has_column df "space" = false /\
               out = ordered df flag keys.
Proof.
  intros H.
  destruct (getitem df (order_key flag)) as [keys|e] eqn:Hk.
  - exists keys. split; [reflexivity|].
    destruct (has_column df "space") eqn:Hs.
    + exfalso. unfold apply_order, sort_values, order_key in *.
      assert (E : forall a, reset_index
                    (reset_index_drop (take_rows (argsort a keys) df))
                    (Some "space")
                  = Raise (ValueError "cannot insert, already exists")).
      { intros a. unfold reset_index, reset_index_drop, has_column.
        cbn [columns].
        fold (has_column (take_rows (argsort a keys) df) "space").
        now rewrite has_column_take_rows, Hs. }
      destruct flag; rewrite Hk in H; cbn [bindR] in H; rewrite E in H;
        discriminate.
    + split; [reflexivity|].
      rewrite (@apply_order_ok df flag keys Hk Hs) in H. now injection H.
  - exfalso. unfold apply_order, sort_values, order_key in *.
    destruct flag; rewrite Hk in H; discriminate.
Qed.

Lemma getitem_ordered df flag keys k c :
  k <> "space" -> getitem df k = Ok c ->
  getitem (ordered df flag keys) k = Ok (take (argsort flag keys) c).
Proof.
  intros Hne Hc. unfold getitem, ordered in *. cbn [columns lookup take_rows].
  destruct (String.eqb k "space") eqn:E;
    [apply String.eqb_eq in E; contradiction|].
  rewrite lookup_map_take.
  destruct (lookup k (columns df)); [|discriminate].
  now injection Hc as ->.
Qed.

Lemma getitem_ordered_space df flag keys :
  getitem (ordered df flag keys) "space" = Ok (range (length keys)).
Proof. reflexivity. Qed.

Lemma nth_range i n : (i < n)%nat -> nth i (range n) 0 = Nq i.
Proof.
  intros H. unfold range.
  rewrite (nth_indep _ 0 (Nq 0)) by (now rewrite length_map, length_seq).
  rewrite map_nth, seq_nth by exact H. reflexivity.
Qed.

Lemma Nq_inj a b : Nq a = Nq b -> a = b.
Proof.
  unfold Nq, inject_Z. intros H. injection H as H. now apply Nat2Z.inj.
Qed.

Lemma range_NoDup n : NoDup (range n).
Proof.
  unfold range. apply Finite.Injective_map_NoDup; [|apply seq_NoDup].
  intros a b. apply Nq_inj.
Qed.

Lemma rows_take idx (cols : list (string * column)) :
  map (fun i => map (fun c : string * column => nth i (take idx (snd c)) 0) cols)
      (seq 0 (length idx))
  = map (fun j => map (fun c : string * column => nth j (snd c) 0) cols) idx.
Proof.
  induction idx as [|j idx IH]; simpl; [reflexivity|].
  f_equal. rewrite <- seq_shift, map_map. exact IH.
Qed.

Lemma take_perm idx (c : column) :
  Permutation idx (seq 0 (length c)) -> Permutation c (take idx c).
Proof.
  intros P. rewrite <- (take_seq c) at 1. unfold take.
  apply Permutation_map, Permutation_sym, P.
Qed.

(** Without the [space] cell in front, the rows of the ordered table are
    the rows of the input in another order. *)
Lemma values_ordered df flag keys :
  well_formed df -> getitem df (order_key flag) = Ok keys ->
  Permutation (values df) (map (@tl Q) (values (ordered df flag keys))).
Proof.
  intros Hwf Hk.
  pose proof (@well_formed_getitem df _ keys Hwf Hk) as Hlen.
  unfold values at 2. unfold ordered at 2, nrows. cbn [index].
  rewrite length_range, map_map. unfold ordered, take_rows.
  cbn [columns map tl snd].
  rewrite <- (length_argsort flag keys).
  rewrite (map_ext
             (fun i => map (fun c : string * column => nth i (snd c) 0)
                (map (fun nc : string * column =>
                        (fst nc, take (argsort flag keys) (snd nc)))
                     (columns df)))
             (fun i => map (fun c : string * column =>
                        nth i (take (argsort flag keys) (snd c)) 0)
                     (columns df)))
    by (intros i; now rewrite map_map).
  rewrite rows_take. unfold values.
  apply Permutation_map, Permutation_sym.
  rewrite <- Hlen. apply argsort_perm.
Qed.

(** The sort column of the ordered table holds the keys of the input in
    another order. *)
Lemma keys_ordered (flag : bool) keys :
  Permutation keys (take (argsort flag keys) keys).
Proof. apply take_perm, argsort_perm. Qed.

(** C5. Ordered left to right, the result is the input sorted by
    ascending [cx]; ordered bottom to top, by descending [cy]: the rows
    of the result are the rows of the input in another order, its sort
    column holds the keys of the input and is in order, and the [space]
    field of a row is its zero-based position. *)
Theorem apply_order_sorts_and_indexes df order_left_right :
  well_formed df ->
  has_column df "cx" = true -> has_column df "cy" = true ->
  has_column df "space" = false ->
  exists out input_keys keys spaces,
    apply_order df order_left_right = Ok out /\
    getitem df (if order_left_right then "cx" else "cy") = Ok input_keys /\
    getitem out (if order_left_right then "cx" else "cy") = Ok keys /\
    Permutation input_keys keys /\
    (if order_left_right then Spec.ascending keys else Spec.descending keys) /\
    Permutation (values df) (map (@tl Q) (values out)) /\
    getitem out "space" = Ok spaces /\
    nrows out = nrows df /\
    length keys = nrows df /\ length spaces = nrows df /\
    forall i, (i < nrows df)%nat -> nth i spaces 0 = Nq i.
Proof.
  intros Hwf Hx Hy Hs.
  assert (Hk : exists keys, getitem df (order_key order_left_right) = Ok keys).
  { apply has_column_getitem. now destruct order_left_right. }
  destruct Hk as [keys Hk].
  pose proof (@well_formed_getitem df _ keys Hwf Hk) as Hlen.
  exists (ordered df order_left_right keys), keys,
         (take (argsort order_left_right keys) keys),
         (range (length keys)).
  change (if order_left_right then "cx" else "cy")
    with (order_key order_left_right).
  split; [now apply apply_order_ok|].
  split; [exact Hk|].
  split.
  { apply getitem_ordered; [|exact Hk].
    destruct order_left_right; discriminate. }
  split; [apply keys_ordered|].
  split.
  { destruct order_left_right;
      [apply take_argsort_ascending | apply take_argsort_descending]. }
  split; [now apply values_ordered|].
  split; [apply getitem_ordered_space|].
  split; [unfold ordered, nrows; cbn [index]; now rewrite length_range|].
  rewrite length_take, length_argsort, length_range, Hlen.
  repeat split. intros i Hi. now apply nth_range.
Qed.

(** The diagonal, ordered bottom to top and left to right. *)
Lemma apply_order_sorts_and_indexes_witness :
  well_formed (spaces_frame diagonal) /\
  (exists out input_keys keys spaces,
    apply_order (spaces_frame diagonal) false = Ok out /\
    getitem (spaces_frame diagonal) "cy" = Ok input_keys /\
    getitem out "cy" = Ok keys /\
    Permutation input_keys keys /\
    Spec.descending keys /\
    Permutation (values (spaces_frame diagonal)) (map (@tl Q) (values out)) /\
    getitem out "space" = Ok spaces /\
    nrows out = nrows (spaces_frame diagonal) /\
    length keys = nrows (spaces_frame diagonal) /\
    length spaces = nrows (spaces_frame diagonal) /\
    forall i, (i < nrows (spaces_frame diagonal))%nat ->
              nth i spaces 0 = Nq i) /\
  (exists out input_keys keys spaces,
    apply_order (spaces_frame diagonal) true = Ok out /\
    getitem (spaces_frame diagonal) "cx" = Ok input_keys /\
    getitem out "cx" = Ok keys /\
    Permutation input_keys keys /\
    Spec.ascending keys /\
    Permutation (values (spaces_frame diagonal)) (map (@tl Q) (values out)) /\
    getitem out "space" = Ok spaces /\
    nrows out = nrows (spaces_frame diagonal) /\
    length keys = nrows (spaces_frame diagonal) /\
    length spaces = nrows (spaces_frame diagonal) /\
    forall i, (i < nrows (spaces_frame diagonal))%nat ->
              nth i spaces 0 = Nq i).
Proof.
  assert (H : well_formed (spaces_frame diagonal)) by (repeat constructor).
  split; [exact H|]. split.
  - apply (@apply_order_sorts_and_indexes (spaces_frame diagonal) false H);
      reflexivity.
  - apply (@apply_order_sorts_and_indexes (spaces_frame diagonal) true H);
      reflexivity.
Defined.

(** The diagonal, ordered either way: the rows come out whole, by rising
    [cx] and by falling [cy]. *)
Lemma apply_order_examples :
  (out <- apply_order (spaces_frame diagonal) true ;; Ok (values out))%py
  = Ok [[0; 0; 0; 10]; [1; 20; 10; 10]; [2; 50; 50; 10]] /\
  (out <- apply_order (spaces_frame diagonal) false ;; Ok (values out))%py
  = Ok [[0; 50; 50; 10]; [1; 20; 10; 10]; [2; 0; 0; 10]].
Proof. split; vm_compute; reflexivity. Qed.

(** C6. The [space] column of the result is exactly [0, 1, ..., n-1], for
    any number [n] of spaces: no gap and no duplicate. *)
Theorem space_index_contiguous df order_left_right :
  well_formed df ->
  has_column df "cx" = true -> has_column df "cy" = true ->
  has_column df "space" = false ->
  exists out,
    apply_order df order_left_right = Ok out /\
    nrows out = nrows df /\
    getitem out "space" = Ok (map Nq (seq 0 (nrows df))) /\
    NoDup (map Nq (seq 0 (nrows df))).
Proof.
  intros Hwf Hx Hy Hs.
  assert (Hk : exists keys, getitem df (order_key order_left_right) = Ok keys).
  { apply has_column_getitem. now destruct order_left_right. }
  destruct Hk as [keys Hk].
  pose proof (@well_formed_getitem df _ keys Hwf Hk) as Hlen.
  exists (ordered df order_left_right keys).
  split; [now apply apply_order_ok|].
  rewrite getitem_ordered_space. unfold nrows at 1, ordered. cbn [index].
  rewrite length_range, Hlen. repeat split. apply range_NoDup.
Qed.

Lemma space_index_contiguous_witness :
  well_formed (spaces_frame diagonal) /\
  exists out,
    apply_order (spaces_frame diagonal) true = Ok out /\
    nrows out = nrows (spaces_frame diagonal) /\
    getitem out "space"
    = Ok (map Nq (seq 0 (nrows (spaces_frame diagonal)))) /\
    NoDup (map Nq (seq 0 (nrows (spaces_frame diagonal)))).
Proof.
  assert (H : well_formed (spaces_frame diagonal)) by (repeat constructor).
  split; [exact H|].
  apply (@space_index_contiguous (spaces_frame diagonal) true H);
    reflexivity.
Defined.

(** The empty table is ordered into the empty table, with no error. *)
Lemma apply_order_empty flag :
  apply_order (spaces_frame []) flag
  = Ok (mkDataFrame None []
          [("space", []); ("cx", []); ("cy", []); ("radius", [])]).
Proof. destruct flag; reflexivity. Qed.

Lemma map_seq_take3 {B : Type} (G : Q -> Q -> Q -> B) idx (a b c : column) :
  map (fun j => G (nth j (take idx a) 0) (nth j (take idx b) 0)
                  (nth j (take idx c) 0))
      (seq 0 (length idx))
  = map (fun i => G (nth i a 0) (nth i b 0) (nth i c 0)) idx.
Proof.
  induction idx as [|i idx IH]; simpl; [reflexivity|].
  f_equal. rewrite <- seq_shift, map_map. exact IH.
Qed.

(** C10. [apply_order] only reorders and indexes: whichever way it
    orders, the spaces of its result are a permutation of the spaces of
    its input; none is added, dropped or altered. *)
Theorem apply_order_preserves_spaces df order_left_right out ps :
  well_formed df ->
  apply_order df order_left_right = Ok out ->
  spaces_of df = Ok ps ->
  exists ps', spaces_of out = Ok ps' /\ Permutation ps ps'.
Proof.
  intros Hwf Hout Hps.
  apply apply_order_inv in Hout. destruct Hout as (keys & Hk & Hs & ->).
  pose proof (@well_formed_getitem df _ keys Hwf Hk) as Hlen.
  unfold spaces_of in *.
  destruct (getitem df "cx") as [xs|] eqn:Ex; [|discriminate].
  destruct (getitem df "cy") as [ys|] eqn:Ey; [|discriminate].
  destruct (getitem df "radius") as [rs|] eqn:Er; [|discriminate].
  cbn [bindR] in Hps. injection Hps as <-.
  rewrite (@getitem_ordered df order_left_right keys "cx" xs)
    by (discriminate || assumption).
  rewrite (@getitem_ordered df order_left_right keys "cy" ys)
    by (discriminate || assumption).
  rewrite (@getitem_ordered df order_left_right keys "radius" rs)
    by (discriminate || assumption).
  cbn [bindR]. eexists. split; [reflexivity|].
  unfold nrows at 2, ordered. cbn [index].
  rewrite length_range, <- (length_argsort order_left_right keys).
  rewrite (map_seq_take3 mkParkingSpace).
  apply Permutation_map, Permutation_sym.
  rewrite <- Hlen. apply argsort_perm.
Qed.

Lemma apply_order_preserves_spaces_witness :
  well_formed (spaces_frame diagonal) /\
  apply_order (spaces_frame diagonal) false
  = Ok (ordered (spaces_frame diagonal) false (map p_cy diagonal)) /\
  spaces_of (spaces_frame diagonal) = Ok diagonal /\
  exists ps',
    spaces_of (ordered (spaces_frame diagonal) false (map p_cy diagonal))
    = Ok ps' /\ Permutation diagonal ps'.
Proof.
  assert (H : well_formed (spaces_frame diagonal)) by (repeat constructor).
  split; [exact H|]. split; [reflexivity|]. split; [reflexivity|].
  apply (@apply_order_preserves_spaces (spaces_frame diagonal) false
           (ordered (spaces_frame diagonal) false (map p_cy diagonal))
           diagonal H); reflexivity.
Defined.

(** ** Axis selection *)

Lemma get_order_value df xs ys :
  getitem df "cx" = Ok xs -> getitem df "cy" = Ok ys ->
  get_order df = Ok (nan_gt (span xs) (span ys)).
Proof.
  intros Hx Hy. unfold get_order. rewrite Hx, Hy. cbn [bindR].
  unfold span. now destruct (nan_gt _ _).
Qed.

(** C1, as the code has it.  [get_order] answers left-to-right only when
    the horizontal span is strictly greater than the vertical one; on a
    tie (a single space included) it answers bottom-to-top, and
    [apply_order] under that answer returns the same spaces sorted by
    descending [cy]. *)
Theorem ties_resolve_to_vertical df xs ys span_x span_y :
  well_formed df ->
  getitem df "cx" = Ok xs -> getitem df "cy" = Ok ys ->
  has_column df "space" = false ->
  span xs = Some span_x -> span ys = Some span_y ->
  (get_order df = Ok true -> span_y < span_x) /\
  (span_x == span_y ->
   get_order df = Ok false /\
   exists out keys,
     apply_order df false = Ok out /\
     nrows out = nrows df /\
     Permutation (values df) (map (@tl Q) (values out)) /\
     getitem out "cy" = Ok keys /\
     Permutation ys keys /\ Spec.descending keys).
Proof.
  intros Hwf Hx Hy Hs Sx Sy.
  rewrite (@get_order_value df xs ys Hx Hy), Sx, Sy. cbn [nan_gt].
  unfold Qltb. split.
  - destruct (Qle_bool span_x span_y) eqn:E; simpl.
    + discriminate.
    + intros _. now apply Qle_bool_false_lt.
  - intros Htie.
    assert (Qle_bool span_x span_y = true) as ->
      by (apply Qle_bool_iff; rewrite Htie; apply Qle_refl).
    split; [reflexivity|].
    exists (ordered df false ys), (take (argsort false ys) ys).
    split; [now apply apply_order_ok|].
    split.
    { unfold ordered, nrows. cbn [index]. rewrite length_range.
      exact (@well_formed_getitem df "cy" ys Hwf Hy). }
    split; [now apply (@values_ordered df false ys)|].
    split; [apply getitem_ordered; [discriminate | exact Hy]|].
    split; [apply keys_ordered | apply take_argsort_descending].
Qed.

(** On the diagonal, a tie, the answer is bottom-to-top and the spaces
    come out by descending [cy]; side by side, where the answer is
    left-to-right, the horizontal span is the greater one. *)
Lemma ties_resolve_to_vertical_witness :
  well_formed (spaces_frame diagonal) /\
  span (map p_cx diagonal) = Some 50 /\
  span (map p_cy diagonal) = Some 50 /\
  get_order (spaces_frame diagonal) = Ok false /\
  (exists out keys,
     apply_order (spaces_frame diagonal) false = Ok out /\
     nrows out = nrows (spaces_frame diagonal) /\
     Permutation (values (spaces_frame diagonal))
                 (map (@tl Q) (values out)) /\
     getitem out "cy" = Ok keys /\
     Permutation (map p_cy diagonal) keys /\ Spec.descending keys) /\
  well_formed (spaces_frame side_by_side) /\
  span (map p_cx side_by_side) = Some 100 /\
  span (map p_cy side_by_side) = Some 10 /\
  get_order (spaces_frame side_by_side) = Ok true /\
  10 < 100.
Proof.
  assert (H : well_formed (spaces_frame diagonal)) by (repeat constructor).
  assert (H' : well_formed (spaces_frame side_by_side))
    by (repeat constructor).
  destruct (@ties_resolve_to_vertical (spaces_frame diagonal)
              (map p_cx diagonal) (map p_cy diagonal) 50 50 H)
    as [_ Htie]; try reflexivity.
  destruct (Htie (Qeq_refl 50)) as [Hfalse Hsorted].
  destruct (@ties_resolve_to_vertical (spaces_frame side_by_side)
              (map p_cx side_by_side) (map p_cy side_by_side) 100 10 H')
    as [Hwide _]; try reflexivity.
  split; [exact H|]. split; [reflexivity|]. split; [reflexivity|].
  split; [exact Hfalse|]. split; [exact Hsorted|].
  split; [exact H'|]. split; [reflexivity|]. split; [reflexivity|].
  split; [reflexivity|]. apply Hwide. reflexivity.
Defined.

(** The converse of the first part fails for the source, which
    subtracts in float64.  The floats 65.4 and 1423.4 are 1358 and a
    little more apart, so against a vertical span of 1358 the exact
    spans say left-to-right, and so does [get_order] on these numbers;
    in float64 both differences are 1358.0, the comparison is false, and
    the source answers bottom-to-top. *)
Lemma spans_round_to_a_tie :
  f64_value (f64_fraction 654 10)
  = Some (2301057934609613 # 35184372088832) /\
  f64_value (f64_fraction 14234 10)
  = Some (3130089701952717 # 2199023255552) /\
  1358 < (3130089701952717 # 2199023255552)
         - (2301057934609613 # 35184372088832) /\
  f64_value (PrimFloat.sub (f64_fraction 14234 10) (f64_fraction 654 10))
  = Some 1358 /\
  f64_value (PrimFloat.sub (f64_of_nat 1415) (f64_of_nat 57)) = Some 1358 /\
  get_order_f64 [f64_fraction 654 10; f64_fraction 14234 10]
                [f64_of_nat 57; f64_of_nat 1415]
  = false /\
  get_order
    (spaces_frame
       [mkParkingSpace (2301057934609613 # 35184372088832) 57 10;
        mkParkingSpace (3130089701952717 # 2199023255552) 1415 10])
  = Ok true.
Proof. repeat split; vm_compute; reflexivity. Qed.

(** On the diagonal, where the subtractions are exact, the two agree. *)
Lemma get_order_f64_diagonal :
  get_order_f64 [f64_of_nat 0; f64_of_nat 50; f64_of_nat 20]
                [f64_of_nat 0; f64_of_nat 50; f64_of_nat 10]
  = false /\
  get_order (spaces_frame diagonal) = Ok false /\
  get_order_f64 [] [] = false.
Proof. repeat split; vm_compute; reflexivity. Qed.

(** C1 fails as stated: on the diagonal both spans are 50, [get_order]
    answers bottom-to-top, and the spaces come out by descending [cy],
    with [cx] running 50, 20, 0; a single space and an empty table are
    ordered bottom-to-top as well. *)
Lemma tie_is_not_horizontal :
  span (map p_cx diagonal) = Some 50 /\
  span (map p_cy diagonal) = Some 50 /\
  get_order (spaces_frame diagonal) = Ok false /\
  (flag <- get_order (spaces_frame diagonal) ;;
   out <- apply_order (spaces_frame diagonal) flag ;;
   getitem out "cx")%py = Ok [50; 20; 0] /\
  get_order (spaces_frame [mkParkingSpace 7 9 10]) = Ok false /\
  get_order (spaces_frame []) = Ok false.
Proof. repeat split; vm_compute; reflexivity. Qed.

(** The other two cases of the axis test of the specification. *)
Lemma axis_selection_examples :
  get_order (spaces_frame [mkParkingSpace 0 0 10; mkParkingSpace 100 10 10])
  = Ok true /\
  get_order (spaces_frame [mkParkingSpace 0 0 10; mkParkingSpace 10 100 10])
  = Ok false.
Proof. split; vm_compute; reflexivity. Qed.

(** * Further properties *)

(** ** Least and greatest values *)

Lemma Qmin_cases x y : (Qmin x y == x /\ x <= y) \/ (Qmin x y == y /\ y <= x).
Proof.
  destruct (Q.min_spec x y) as [[H E]|[H E]]; [left | right]; split;
    auto using Qlt_le_weak.
Qed.

Lemma Qmax_cases x y : (Qmax x y == x /\ y <= x) \/ (Qmax x y == y /\ x <= y).
Proof.
  destruct (Q.max_spec x y) as [[H E]|[H E]]; [right | left]; split;
    auto using Qlt_le_weak.
Qed.

Lemma fold_min_is_min t : forall x, is_min (fold_left Qmin t x) (x :: t).
Proof.
  induction t as [|a t IH]; intros x; simpl.
  - split; [exists x; split; [now left | reflexivity]|].
    intros y [<-|[]]. apply Qle_refl.
  - destruct (IH (Qmin x a)) as [(w & Hw & Ew) Hle]. split.
    + destruct Hw as [<-|Hw]; [|exists w; simpl; auto].
      destruct (Qmin_cases x a) as [[E _]|[E _]].
      * exists x. split; [now left | now rewrite <- Ew, E].
      * exists a. split; [right; now left | now rewrite <- Ew, E].
    + intros y Hy.
      assert (H0 : fold_left Qmin t (Qmin x a) <= Qmin x a)
        by (apply Hle; now left).
      destruct Hy as [<-|[<-|Hy]].
      * eapply Qle_trans; [exact H0 | apply Q.le_min_l].
      * eapply Qle_trans; [exact H0 | apply Q.le_min_r].
      * apply Hle. now right.
Qed.

Lemma fold_max_is_max t : forall x, is_max (fold_left Qmax t x) (x :: t).
Proof.
  induction t as [|a t IH]; intros x; simpl.
  - split; [exists x; split; [now left | reflexivity]|].
    intros y [<-|[]]. apply Qle_refl.
  - destruct (IH (Qmax x a)) as [(w & Hw & Ew) Hle]. split.
    + destruct Hw as [<-|Hw]; [|exists w; simpl; auto].
      destruct (Qmax_cases x a) as [[E _]|[E _]].
      * exists x. split; [now left | now rewrite <- Ew, E].
      * exists a. split; [right; now left | now rewrite <- Ew, E].
    + intros y Hy.
      assert (H0 : Qmax x a <= fold_left Qmax t (Qmax x a))
        by (apply Hle; now left).
      destruct Hy as [<-|[<-|Hy]].
      * eapply Qle_trans; [apply Q.le_max_l | exact H0].
      * eapply Qle_trans; [apply Q.le_max_r | exact H0].
      * apply Hle. now right.
Qed.

Lemma is_min_unique m m' l : is_min m l -> is_min m' l -> m == m'.
Proof.
  intros [(x & Hx & Ex) Hm] [(y & Hy & Ey) Hm'].
  apply Qle_antisym.
  - rewrite <- Ey. now apply Hm.
  - rewrite <- Ex. now apply Hm'.
Qed.

Lemma is_max_unique m m' l : is_max m l -> is_max m' l -> m == m'.
Proof.
  intros [(x & Hx & Ex) Hm] [(y & Hy & Ey) Hm'].
  apply Qle_antisym.
  - rewrite <- Ex. now apply Hm'.
  - rewrite <- Ey. now apply Hm.
Qed.

Lemma is_min_perm m l l' : Permutation l l' -> is_min m l -> is_min m l'.
Proof.
  intros P [(x & Hx & Ex) Hm]. split.
  - exists x. split; [exact (Permutation_in _ P Hx) | exact Ex].
  - intros y Hy. apply Hm. exact (Permutation_in _ (Permutation_sym P) Hy).
Qed.

Lemma is_max_perm m l l' : Permutation l l' -> is_max m l -> is_max m l'.
Proof.
  intros P [(x & Hx & Ex) Hm]. split.
  - exists x. split; [exact (Permutation_in _ P Hx) | exact Ex].
  - intros y Hy. apply Hm. exact (Permutation_in _ (Permutation_sym P) Hy).
Qed.

Lemma series_min_is_min l m : series_min l = Some m -> is_min m l.
Proof.
  destruct l as [|x t]; simpl; [discriminate|].
  intros H. injection H as <-. apply fold_min_is_min.
Qed.

Lemma series_max_is_max l m : series_max l = Some m -> is_max m l.
Proof.
  destruct l as [|x t]; simpl; [discriminate|].
  intros H. injection H as <-. apply fold_max_is_max.
Qed.

(** ** Clipping *)

Lemma clip_bounds a lo hi : lo <= hi -> lo <= clip a lo hi /\ clip a lo hi <= hi.
Proof.
  intros H. unfold clip. split; [|apply Q.le_min_r].
  apply Q.min_glb; [apply Q.le_max_r | exact H].
Qed.

Lemma clip_mono a b lo hi : a <= b -> clip a lo hi <= clip b lo hi.
Proof.
  intros H. unfold clip.
  apply Q.min_le_compat_r, Q.max_le_compat_r, H.
Qed.

Lemma clip_inside a lo hi : lo <= a -> a <= hi -> clip a lo hi == a.
Proof.
  intros H1 H2. unfold clip. rewrite (Q.max_l a lo H1). now apply Q.min_l.
Qed.

Lemma clip_Qeq a b lo hi : a == b -> clip a lo hi == clip b lo hi.
Proof. intros E. unfold clip. now rewrite E. Qed.

(** A point of the range that lies above [a] lies above the clipped [a],
    and one that lies below [b] lies below the clipped [b]. *)
Lemma clip_below a v lo hi : lo <= v -> a <= v -> clip a lo hi <= v.
Proof.
  intros H1 H2. unfold clip.
  eapply Qle_trans; [apply Q.le_min_l|]. now apply Q.max_lub.
Qed.

Lemma clip_above b v lo hi : v <= hi -> v <= b -> v <= clip b lo hi.
Proof.
  intros H1 H2. unfold clip. apply Q.min_glb; [|exact H1].
  eapply Qle_trans; [exact H2 | apply Q.le_max_l].
Qed.

(** ** The crop region *)

Lemma min_le_max m M l : is_min m l -> is_max M l -> m <= M.
Proof.
  intros [(x & Hx & _) Hm] [_ HM].
  apply Qle_trans with x; [now apply Hm | now apply HM].
Qed.

Lemma is_min_Qeq m m' l : m == m' -> is_min m l -> is_min m' l.
Proof.
  intros E [(x & Hx & Ex) Hm]. split.
  - exists x. split; [exact Hx | now rewrite Ex].
  - intros y Hy. rewrite <- E. now apply Hm.
Qed.

Lemma is_max_Qeq m m' l : m == m' -> is_max m l -> is_max m' l.
Proof.
  intros E [(x & Hx & Ex) Hm]. split.
  - exists x. split; [exact Hx | now rewrite Ex].
  - intros y Hy. rewrite <- E. now apply Hm.
Qed.

Section CropFacts.

Variable frame_size : string -> Z * Z.
Variable video_path : string.

Let width : Q := Zq (fst (frame_size video_path)).
Let height : Q := Zq (snd (frame_size video_path)).

(** The four numbers of the crop, before and after clipping. *)
Lemma crop_value v vs :
  exists x_min y_min x_max y_max,
    is_min x_min (map fst (v :: vs)) /\ is_min y_min (map snd (v :: vs)) /\
    is_max x_max (map fst (v :: vs)) /\ is_max y_max (map snd (v :: vs)) /\
    forall padding,
      calc_crop_from_vertices frame_size (Some (v :: vs)) padding video_path
      = inr [clip (x_min - padding) 0 width; clip (y_min - padding) 0 height;
             clip (x_max + padding) 0 width; clip (y_max + padding) 0 height].
Proof.
  exists (fold_left Qmin (map fst vs) (fst v)),
         (fold_left Qmin (map snd vs) (snd v)),
         (fold_left Qmax (map fst vs) (fst v)),
         (fold_left Qmax (map snd vs) (snd v)).
  split; [apply (fold_min_is_min (map fst vs) (fst v))|].
  split; [apply (fold_min_is_min (map snd vs) (snd v))|].
  split; [apply (fold_max_is_max (map fst vs) (fst v))|].
  split; [apply (fold_max_is_max (map snd vs) (snd v))|].
  reflexivity.
Qed.

(** X1. For a non-empty vertex list, a frame of non-negative size, a
    non-negative padding and sums that stay within the 64-bit integers,
    the crop is a well-ordered box inside the frame:
    [0 <= x1 <= x2 <= width] and [0 <= y1 <= y2 <= height]. *)
Theorem crop_inside_frame vertices padding :
  vertices <> [] ->
  (0 <= fst (frame_size video_path))%Z ->
  (0 <= snd (frame_size video_path))%Z ->
  0 <= padding ->
  no_wraparound vertices padding ->
  exists x1 y1 x2 y2,
    calc_crop_from_vertices frame_size (Some vertices) padding video_path
    = inr [x1; y1; x2; y2] /\
    0 <= x1 /\ x1 <= x2 /\ x2 <= width /\
    0 <= y1 /\ y1 <= y2 /\ y2 <= height.
Proof.
  intros Hne Hw Hh Hp _. destruct vertices as [|v vs]; [contradiction|].
  destruct (crop_value v vs)
    as (xm & ym & xM & yM & Hxm & Hym & HxM & HyM & E).
  specialize (E padding).
  assert (Hw' : 0 <= width) by (unfold width, Zq, inject_Z, Qle; simpl; lia).
  assert (Hh' : 0 <= height) by (unfold height, Zq, inject_Z, Qle; simpl; lia).
  pose proof (min_le_max Hxm HxM) as Hx.
  pose proof (min_le_max Hym HyM) as Hy.
  do 4 eexists. split; [exact E|].
  repeat split;
    try (apply clip_bounds; assumption);
    apply clip_mono; lra.
Qed.

(** X2. With a non-negative padding, and sums that stay within the
    64-bit integers, the crop contains every vertex that lies inside
    the frame. *)
Theorem crop_contains_vertices vertices padding :
  vertices <> [] -> 0 <= padding ->
  no_wraparound vertices padding ->
  exists x1 y1 x2 y2,
    calc_crop_from_vertices frame_size (Some vertices) padding video_path
    = inr [x1; y1; x2; y2] /\
    forall vx vy, In (vx, vy) vertices ->
      (0 <= vx -> vx <= width -> x1 <= vx /\ vx <= x2) /\
      (0 <= vy -> vy <= height -> y1 <= vy /\ vy <= y2).
Proof.
  intros Hne Hp _. destruct vertices as [|v vs]; [contradiction|].
  destruct (crop_value v vs)
    as (xm & ym & xM & yM & Hxm & Hym & HxM & HyM & E).
  specialize (E padding).
  do 4 eexists. split; [exact E|].
  intros vx vy Hin.
  assert (Hx : In vx (map fst (v :: vs)))
    by (apply in_map_iff; now exists (vx, vy)).
  assert (Hy : In vy (map snd (v :: vs)))
    by (apply in_map_iff; now exists (vx, vy)).
  pose proof (proj2 Hxm vx Hx). pose proof (proj2 HxM vx Hx).
  pose proof (proj2 Hym vy Hy). pose proof (proj2 HyM vy Hy).
  split; intros Hlo Hhi; split;
    (apply clip_below; [assumption | lra]) ||
    (apply clip_above; [assumption | lra]).
Qed.

(** X3. When the padding is non-negative and every vertex keeps at least
    the padding from the four edges of the frame, nothing is clipped: the crop is the bounding box of the
    vertices grown by the padding on each side. *)
Theorem crop_is_padded_bounding_box vertices padding :
  vertices <> [] -> 0 <= padding ->
  (forall vx vy, In (vx, vy) vertices ->
     padding <= vx /\ vx + padding <= width /\
     padding <= vy /\ vy + padding <= height) ->
  exists x1 y1 x2 y2,
    calc_crop_from_vertices frame_size (Some vertices) padding video_path
    = inr [x1; y1; x2; y2] /\
    is_min (x1 + padding) (map fst vertices) /\
    is_min (y1 + padding) (map snd vertices) /\
    is_max (x2 - padding) (map fst vertices) /\
    is_max (y2 - padding) (map snd vertices).
Proof.
  intros Hne Hp Hfit. destruct vertices as [|v vs]; [contradiction|].
  destruct (crop_value v vs)
    as (xm & ym & xM & yM & Hxm & Hym & HxM & HyM & E).
  specialize (E padding).
  assert (Hall : forall m, (exists x, In x (map fst (v :: vs)) /\ x == m) ->
                   padding <= m /\ m + padding <= width).
  { intros m (x & Hx & Ex). apply in_map_iff in Hx.
    destruct Hx as ([vx vy] & <- & Hin).
    destruct (Hfit vx vy Hin) as (H1 & H2 & _). simpl in Ex. lra. }
  assert (Hall' : forall m, (exists y, In y (map snd (v :: vs)) /\ y == m) ->
                    padding <= m /\ m + padding <= height).
  { intros m (y & Hy & Ey). apply in_map_iff in Hy.
    destruct Hy as ([vx vy] & <- & Hin).
    destruct (Hfit vx vy Hin) as (_ & _ & H1 & H2). simpl in Ey. lra. }
  destruct (Hall xm (proj1 Hxm)), (Hall xM (proj1 HxM)),
           (Hall' ym (proj1 Hym)), (Hall' yM (proj1 HyM)).
  do 4 eexists. split; [exact E|].
  split; [|split; [|split]].
  - apply (@is_min_Qeq xm); [|exact Hxm].
    assert (Hc : clip (xm - padding) 0 width == xm - padding)
      by (apply clip_inside; lra). lra.
  - apply (@is_min_Qeq ym); [|exact Hym].
    assert (Hc : clip (ym - padding) 0 height == ym - padding)
      by (apply clip_inside; lra). lra.
  - apply (@is_max_Qeq xM); [|exact HxM].
    assert (Hc : clip (xM + padding) 0 width == xM + padding)
      by (apply clip_inside; lra). lra.
  - apply (@is_max_Qeq yM); [|exact HyM].
    assert (Hc : clip (yM + padding) 0 height == yM + padding)
      by (apply clip_inside; lra). lra.
Qed.

(** X5. The crop does not depend on the order of the vertices. *)
Theorem crop_order_independent vertices vertices' padding :
  Permutation vertices vertices' -> vertices <> [] ->
  exists crop crop',
    calc_crop_from_vertices frame_size (Some vertices) padding video_path
    = inr crop /\
    calc_crop_from_vertices frame_size (Some vertices') padding video_path
    = inr crop' /\
    same_numbers crop crop'.
Proof.
  intros P Hne.
  destruct vertices as [|v vs]; [contradiction|].
  destruct vertices' as [|v' vs'];
    [apply Permutation_sym, Permutation_nil in P; discriminate|].
  destruct (crop_value v vs)
    as (xm & ym & xM & yM & Hxm & Hym & HxM & HyM & E).
  specialize (E padding).
  destruct (crop_value v' vs')
    as (xm' & ym' & xM' & yM' & Hxm' & Hym' & HxM' & HyM' & E').
  specialize (E' padding).
  pose proof (Permutation_map fst P) as Px.
  pose proof (Permutation_map snd P) as Py.
  assert (Exm : xm == xm')
    by (apply (is_min_unique (is_min_perm Px Hxm) Hxm')).
  assert (Eym : ym == ym')
    by (apply (is_min_unique (is_min_perm Py Hym) Hym')).
  assert (ExM : xM == xM')
    by (apply (is_max_unique (is_max_perm Px HxM) HxM')).
  assert (EyM : yM == yM')
    by (apply (is_max_unique (is_max_perm Py HyM) HyM')).
  do 2 eexists. split; [exact E|]. split; [exact E'|].
  unfold same_numbers.
  constructor; [apply clip_Qeq; now rewrite Exm|].
  constructor; [apply clip_Qeq; now rewrite Eym|].
  constructor; [apply clip_Qeq; now rewrite ExM|].
  constructor; [apply clip_Qeq; now rewrite EyM|].
  constructor.
Qed.

(** X6. A larger padding gives a crop that contains the smaller one,
    as long as the sums stay within the 64-bit integers for both
    paddings. *)
Theorem crop_grows_with_padding vertices padding padding' :
  vertices <> [] -> padding <= padding' ->
  no_wraparound vertices padding -> no_wraparound vertices padding' ->
  exists x1 y1 x2 y2 x1' y1' x2' y2',
    calc_crop_from_vertices frame_size (Some vertices) padding video_path
    = inr [x1; y1; x2; y2] /\
    calc_crop_from_vertices frame_size (Some vertices) padding' video_path
    = inr [x1'; y1'; x2'; y2'] /\
    x1' <= x1 /\ y1' <= y1 /\ x2 <= x2' /\ y2 <= y2'.
Proof.
  intros Hne Hp _ _. destruct vertices as [|v vs]; [contradiction|].
  destruct (crop_value v vs)
    as (xm & ym & xM & yM & _ & _ & _ & _ & E).
  do 8 eexists. split; [exact (E padding)|]. split; [exact (E padding')|].
  split; [|split; [|split]]; apply clip_mono; lra.
Qed.

End CropFacts.

Ltac by_computation := vm_compute; (reflexivity || discriminate).

(** The corners of the sample region are far from the ends of the
    64-bit integers. *)
Lemma corner_region_in_range padding :
  - (1000) <= padding -> padding <= 1000 ->
  no_wraparound corner_region padding.
Proof.
  intros Hlo Hhi vx vy Hin. unfold fits_int64. simpl in Hin.
  repeat (destruct Hin as [Hin|Hin];
          [injection Hin as <- <-; repeat split; lra|]).
  contradiction.
Qed.

Lemma crop_inside_frame_witness :
  corner_region <> [] /\ 0 <= 50 /\ no_wraparound corner_region 50 /\
  exists x1 y1 x2 y2,
    calc_crop_from_vertices full_hd (Some corner_region) 50 "lot.mp4"
    = inr [x1; y1; x2; y2] /\
    0 <= x1 /\ x1 <= x2 /\ x2 <= Zq (fst (full_hd "lot.mp4")) /\
    0 <= y1 /\ y1 <= y2 /\ y2 <= Zq (snd (full_hd "lot.mp4")).
Proof.
  assert (R : no_wraparound corner_region 50)
    by (apply corner_region_in_range; by_computation).
  split; [discriminate|]. split; [by_computation|]. split; [exact R|].
  apply (@crop_inside_frame full_hd "lot.mp4" corner_region 50);
    (exact R || discriminate || by_computation).
Defined.

Lemma crop_contains_vertices_witness :
  corner_region <> [] /\ 0 <= 50 /\ no_wraparound corner_region 50 /\
  exists x1 y1 x2 y2,
    calc_crop_from_vertices full_hd (Some corner_region) 50 "lot.mp4"
    = inr [x1; y1; x2; y2] /\
    forall vx vy, In (vx, vy) corner_region ->
      (0 <= vx -> vx <= Zq (fst (full_hd "lot.mp4")) -> x1 <= vx /\ vx <= x2) /\
      (0 <= vy -> vy <= Zq (snd (full_hd "lot.mp4")) -> y1 <= vy /\ vy <= y2).
Proof.
  assert (R : no_wraparound corner_region 50)
    by (apply corner_region_in_range; by_computation).
  split; [discriminate|]. split; [by_computation|]. split; [exact R|].
  apply (@crop_contains_vertices full_hd "lot.mp4" corner_region 50);
    (exact R || discriminate || by_computation).
Defined.

Lemma crop_is_padded_bounding_box_witness :
  corner_region <> [] /\ 0 <= 20 /\
  (forall vx vy, In (vx, vy) corner_region ->
     20 <= vx /\ vx + 20 <= Zq (fst (full_hd "lot.mp4")) /\
     20 <= vy /\ vy + 20 <= Zq (snd (full_hd "lot.mp4"))) /\
  exists x1 y1 x2 y2,
    calc_crop_from_vertices full_hd (Some corner_region) 20 "lot.mp4"
    = inr [x1; y1; x2; y2] /\
    is_min (x1 + 20) (map fst corner_region) /\
    is_min (y1 + 20) (map snd corner_region) /\
    is_max (x2 - 20) (map fst corner_region) /\
    is_max (y2 - 20) (map snd corner_region).
Proof.
  assert (Hfit : forall vx vy, In (vx, vy) corner_region ->
            20 <= vx /\ vx + 20 <= Zq (fst (full_hd "lot.mp4")) /\
            20 <= vy /\ vy + 20 <= Zq (snd (full_hd "lot.mp4"))).
  { intros vx vy Hin. simpl in Hin.
    repeat (destruct Hin as [Hin|Hin];
            [injection Hin as <- <-; repeat split; by_computation|]).
    contradiction. }
  split; [discriminate|]. split; [by_computation|]. split; [exact Hfit|].
  apply (@crop_is_padded_bounding_box full_hd "lot.mp4" corner_region 20);
    [discriminate | by_computation | exact Hfit].
Defined.

Lemma crop_order_independent_witness :
  Permutation corner_region (rev corner_region) /\ corner_region <> [] /\
  exists crop crop',
    calc_crop_from_vertices full_hd (Some corner_region) 50 "lot.mp4"
    = inr crop /\
    calc_crop_from_vertices full_hd (Some (rev corner_region)) 50 "lot.mp4"
    = inr crop' /\
    same_numbers crop crop'.
Proof.
  split; [apply Permutation_rev|]. split; [discriminate|].
  apply (@crop_order_independent full_hd "lot.mp4" corner_region
           (rev corner_region) 50);
    [apply Permutation_rev | discriminate].
Defined.

Lemma crop_grows_with_padding_witness :
  corner_region <> [] /\ 20 <= 50 /\
  no_wraparound corner_region 20 /\ no_wraparound corner_region 50 /\
  exists x1 y1 x2 y2 x1' y1' x2' y2',
    calc_crop_from_vertices full_hd (Some corner_region) 20 "lot.mp4"
    = inr [x1; y1; x2; y2] /\
    calc_crop_from_vertices full_hd (Some corner_region) 50 "lot.mp4"
    = inr [x1'; y1'; x2'; y2'] /\
    x1' <= x1 /\ y1' <= y1 /\ x2 <= x2' /\ y2 <= y2'.
Proof.
  assert (R : no_wraparound corner_region 20)
    by (apply corner_region_in_range; by_computation).
  assert (R' : no_wraparound corner_region 50)
    by (apply corner_region_in_range; by_computation).
  split; [discriminate|]. split; [by_computation|].
  split; [exact R|]. split; [exact R'|].
  apply (@crop_grows_with_padding full_hd "lot.mp4" corner_region 20 50);
    [discriminate | by_computation | exact R | exact R'].
Defined.

(** ** The crop region on 64-bit integers

    Where the sums stay in range, the crop computed on [int64] is the
    crop computed on unbounded numbers; where they do not, it is not. *)

Lemma wrap_int64_in_range z :
  (- 9223372036854775808 <= z <= 9223372036854775807)%Z -> wrap_int64 z = z.
Proof.
  intros H. unfold wrap_int64. rewrite Z.mod_small by lia. lia.
Qed.

Lemma Qmin_Zq a b : Qmin (Zq a) (Zq b) = Zq (Z.min a b).
Proof.
  unfold Qmin, GenericMinMax.gmin, Z.min, Qcompare, Zq, inject_Z. simpl.
  rewrite !Z.mul_1_r. now destruct (a ?= b)%Z.
Qed.

Lemma Qmax_Zq a b : Qmax (Zq a) (Zq b) = Zq (Z.max a b).
Proof.
  unfold Qmax, GenericMinMax.gmax, Z.max, Qcompare, Zq, inject_Z. simpl.
  rewrite !Z.mul_1_r. now destruct (a ?= b)%Z.
Qed.

Lemma fold_min_Zq l a :
  fold_left Qmin (map Zq l) (Zq a) = Zq (fold_left Z.min l a).
Proof.
  revert a. induction l as [|b l IH]; intros a; simpl; [reflexivity|].
  now rewrite Qmin_Zq, IH.
Qed.

Lemma fold_max_Zq l a :
  fold_left Qmax (map Zq l) (Zq a) = Zq (fold_left Z.max l a).
Proof.
  revert a. induction l as [|b l IH]; intros a; simpl; [reflexivity|].
  now rewrite Qmax_Zq, IH.
Qed.

Lemma clip_Zq a hi : clip (Zq a) 0 (Zq hi) = Zq (clip_int64 a 0 hi).
Proof.
  unfold clip, clip_int64. change 0 with (Zq 0).
  now rewrite Qmax_Zq, Qmin_Zq.
Qed.

Lemma fits_int64_Zq z :
  fits_int64 (Zq z) ->
  (- 9223372036854775808 <= z <= 9223372036854775807)%Z.
Proof.
  unfold fits_int64, Zq, inject_Z, Qle. simpl. lia.
Qed.

Lemma fold_min_in l (a : Z) : In (fold_left Z.min l a) (a :: l).
Proof.
  revert a. induction l as [|b l IH]; intros a; simpl; [now left|].
  destruct (IH (Z.min a b)) as [E|H]; [|right; now right].
  rewrite <- E. destruct (Z.min_spec a b) as [[_ ->]|[_ ->]];
    [now left | right; now left].
Qed.

Lemma fold_max_in l (a : Z) : In (fold_left Z.max l a) (a :: l).
Proof.
  revert a. induction l as [|b l IH]; intros a; simpl; [now left|].
  destruct (IH (Z.max a b)) as [E|H]; [|right; now right].
  rewrite <- E. destruct (Z.max_spec a b) as [[_ ->]|[_ ->]];
    [right; now left | now left].
Qed.

Lemma map_fst_as_numbers vs : map fst (as_numbers vs) = map Zq (map fst vs).
Proof. unfold as_numbers. now rewrite !map_map. Qed.

Lemma map_snd_as_numbers vs : map snd (as_numbers vs) = map Zq (map snd vs).
Proof. unfold as_numbers. now rewrite !map_map. Qed.

(** On integer vertices whose sums with the padding stay in range, the
    two computations give the same four numbers. *)
Lemma crop_int64_agrees frame_size video_path vertices padding :
  vertices <> [] ->
  no_wraparound (as_numbers vertices) (Zq padding) ->
  exists crop crop',
    calc_crop_from_vertices_int64 frame_size (Some vertices) padding video_path
    = inr crop /\
    calc_crop_from_vertices frame_size (Some (as_numbers vertices))
      (Zq padding) video_path
    = inr crop' /\
    same_numbers (map Zq crop) crop'.
Proof.
  intros Hne Hfit. destruct vertices as [|v vs]; [contradiction|].
  set (x_min := fold_left Z.min (map fst vs) (fst v)).
  set (y_min := fold_left Z.min (map snd vs) (snd v)).
  set (x_max := fold_left Z.max (map fst vs) (fst v)).
  set (y_max := fold_left Z.max (map snd vs) (snd v)).
  set (width := fst (frame_size video_path)).
  set (height := snd (frame_size video_path)).
  exists [clip_int64 (wrap_int64 (x_min - padding)) 0 width;
          clip_int64 (wrap_int64 (y_min - padding)) 0 height;
          clip_int64 (wrap_int64 (x_max + padding)) 0 width;
          clip_int64 (wrap_int64 (y_max + padding)) 0 height],
         [clip (Zq x_min - Zq padding) 0 (Zq width);
          clip (Zq y_min - Zq padding) 0 (Zq height);
          clip (Zq x_max + Zq padding) 0 (Zq width);
          clip (Zq y_max + Zq padding) 0 (Zq height)].
  split; [reflexivity|]. split.
  { unfold calc_crop_from_vertices.
    change (as_numbers (v :: vs))
      with ((Zq (fst v), Zq (snd v)) :: as_numbers vs).
    cbn [map hd tl fst snd].
    rewrite map_fst_as_numbers, map_snd_as_numbers.
    rewrite !fold_min_Zq, !fold_max_Zq. reflexivity. }
  assert (Hx : forall m, In m (map fst (v :: vs)) ->
             fits_int64 (Zq m - Zq padding) /\ fits_int64 (Zq m + Zq padding)).
  { intros m Hm. apply in_map_iff in Hm. destruct Hm as ([a b] & <- & Hin).
    destruct (Hfit (Zq a) (Zq b)) as (H1 & H2 & _); [|now split].
    unfold as_numbers. apply in_map_iff. now exists (a, b). }
  assert (Hy : forall m, In m (map snd (v :: vs)) ->
             fits_int64 (Zq m - Zq padding) /\ fits_int64 (Zq m + Zq padding)).
  { intros m Hm. apply in_map_iff in Hm. destruct Hm as ([a b] & <- & Hin).
    destruct (Hfit (Zq a) (Zq b)) as (_ & _ & H1 & H2); [|now split].
    unfold as_numbers. apply in_map_iff. now exists (a, b). }
  assert (Hsub : forall m, fits_int64 (Zq m - Zq padding) ->
             Zq (wrap_int64 (m - padding)) == Zq m - Zq padding).
  { intros m Hm. rewrite wrap_int64_in_range.
    - unfold Zq, inject_Z, Qeq, Qminus, Qplus, Qopp. simpl. lia.
    - unfold fits_int64, Zq, inject_Z, Qle, Qminus, Qplus, Qopp in Hm.
      simpl in Hm. lia. }
  assert (Hadd : forall m, fits_int64 (Zq m + Zq padding) ->
             Zq (wrap_int64 (m + padding)) == Zq m + Zq padding).
  { intros m Hm. rewrite wrap_int64_in_range.
    - unfold Zq, inject_Z, Qeq, Qplus. simpl. lia.
    - unfold fits_int64, Zq, inject_Z, Qle, Qplus in Hm.
      simpl in Hm. lia. }
  pose proof (fold_min_in (map fst vs) (fst v)) as I1.
  pose proof (fold_min_in (map snd vs) (snd v)) as I2.
  pose proof (fold_max_in (map fst vs) (fst v)) as I3.
  pose proof (fold_max_in (map snd vs) (snd v)) as I4.
  unfold same_numbers. cbn [map]. rewrite <- !clip_Zq.
  constructor; [apply clip_Qeq, Hsub, (proj1 (Hx _ I1))|].
  constructor; [apply clip_Qeq, Hsub, (proj1 (Hy _ I2))|].
  constructor; [apply clip_Qeq, Hadd, (proj2 (Hx _ I3))|].
  constructor; [apply clip_Qeq, Hadd, (proj2 (Hy _ I4))|].
  constructor.
Qed.

(** Out of range the sums wrap around: with a vertex at the greatest
    [int64] the right edge of the crop comes out at 0, left of its left
    edge, and the vertex (100, 20), inside the frame, is outside the
    crop; on unbounded numbers the right edge is the frame's. *)
Lemma crop_wraps_around :
  calc_crop_from_vertices_int64 full_hd
    (Some [(9223372036854775807, 100); (100, 20)]%Z) 50 "lot.mp4"
  = inr [50; 0; 0; 150]%Z /\
  calc_crop_from_vertices full_hd
    (Some [(9223372036854775807, 100); (100, 20)]) 50 "lot.mp4"
  = inr [50; 0; 1920; 150] /\
  ~ no_wraparound [(9223372036854775807, 100); (100, 20)] 50.
Proof.
  split; [vm_compute; reflexivity|]. split; [vm_compute; reflexivity|].
  intros H.
  destruct (H 9223372036854775807 100) as (_ & [_ Hhi] & _); [now left|].
  vm_compute in Hhi. apply Hhi. reflexivity.
Qed.

(** ** More on the orderer *)

Lemma has_column_ordered df flag keys k :
  k <> "space" -> has_column (ordered df flag keys) k = has_column df k.
Proof.
  intros Hne. unfold has_column, ordered. cbn [columns lookup take_rows].
  destruct (String.eqb k "space") eqn:E;
    [apply String.eqb_eq in E; contradiction|].
  rewrite lookup_map_take. now destruct (lookup k (columns df)).
Qed.

Lemma order_key_not_space flag : order_key flag <> "space".
Proof. destruct flag; discriminate. Qed.

Lemma apply_order_missing_key df flag :
  has_column df (order_key flag) = false ->
  apply_order df flag = Raise (KeyError (order_key flag)).
Proof.
  intros H. apply has_column_false in H.
  unfold apply_order, sort_values, order_key in *.
  destruct flag; now rewrite H.
Qed.

Lemma apply_order_has_space df flag :
  has_column df (order_key flag) = true ->
  has_column df "space" = true ->
  apply_order df flag = Raise (ValueError "cannot insert, already exists").
Proof.
  intros Hk Hs. apply has_column_getitem in Hk. destruct Hk as [keys Hk].
  unfold apply_order, sort_values, order_key in *.
  assert (E : forall a, reset_index
                (reset_index_drop (take_rows (argsort a keys) df))
                (Some "space")
              = Raise (ValueError "cannot insert, already exists")).
  { intros a. unfold reset_index, reset_index_drop, has_column.
    cbn [columns].
    fold (has_column (take_rows (argsort a keys) df) "space").
    now rewrite has_column_take_rows, Hs. }
  destruct flag; rewrite Hk; cbn [bindR]; apply E.
Qed.

(** X7. [apply_order] succeeds exactly when the table has the column it
    sorts by ([cx] or [cy]) and no column [space]; it raises a
    [KeyError] for the missing sort column, and otherwise a [ValueError]
    for the [space] column that is in the way.  On success the result has
    the column [space] in front of the columns of the input. *)
Theorem apply_order_outcome df (order_left_right : bool) :
  let key := if order_left_right then "cx" else "cy" in
  (has_column df key = false ->
   apply_order df order_left_right = Raise (KeyError key)) /\
  (has_column df key = true -> has_column df "space" = true ->
   apply_order df order_left_right
   = Raise (ValueError "cannot insert, already exists")) /\
  (has_column df key = true -> has_column df "space" = false ->
   exists out,
     apply_order df order_left_right = Ok out /\
     map fst (columns out) = "space" :: map fst (columns df)).
Proof.
  cbv zeta. change (if order_left_right then "cx" else "cy")
    with (order_key order_left_right).
  split; [apply apply_order_missing_key|].
  split; [apply apply_order_has_space|].
  intros Hk Hs. apply has_column_getitem in Hk. destruct Hk as [keys Hk].
  exists (ordered df order_left_right keys).
  split; [now apply apply_order_ok|].
  unfold ordered, take_rows. cbn [columns map fst]. f_equal.
  rewrite map_map. reflexivity.
Qed.

(** X8. [apply_order] cannot be applied to its own result: the result
    carries a [space] column, so a second call raises (a [ValueError] when
    the sort column is there, a [KeyError] when it is not). *)
Theorem apply_order_not_repeatable df flag out (flag' : bool) :
  apply_order df flag = Ok out ->
  apply_order out flag'
  = Raise (if has_column df (if flag' then "cx" else "cy")
           then ValueError "cannot insert, already exists"
           else KeyError (if flag' then "cx" else "cy")).
Proof.
  intros H. apply apply_order_inv in H. destruct H as (keys & _ & _ & ->).
  change (if flag' then "cx" else "cy") with (order_key flag').
  destruct (has_column df (order_key flag')) eqn:E.
  - apply apply_order_has_space; [|reflexivity].
    now rewrite has_column_ordered by apply order_key_not_space.
  - apply apply_order_missing_key.
    now rewrite has_column_ordered by apply order_key_not_space.
Qed.

Lemma apply_order_not_repeatable_witness :
  apply_order (spaces_frame diagonal) true
  = Ok (ordered (spaces_frame diagonal) true (map p_cx diagonal)) /\
  apply_order (ordered (spaces_frame diagonal) true (map p_cx diagonal)) false
  = Raise (ValueError "cannot insert, already exists").
Proof.
  split; [reflexivity|].
  apply (@apply_order_not_repeatable (spaces_frame diagonal) true
           (ordered (spaces_frame diagonal) true (map p_cx diagonal)) false).
  reflexivity.
Defined.

(** X9. [apply_order] keeps every row whole, whatever columns the table
    has: without the [space] cell in front, the rows of the result are a
    permutation of the rows of the input. *)
Theorem apply_order_permutes_rows df order_left_right out :
  well_formed df ->
  apply_order df order_left_right = Ok out ->
  Permutation (values df) (map (@tl Q) (values out)).
Proof.
  intros Hwf H. apply apply_order_inv in H. destruct H as (keys & Hk & _ & ->).
  pose proof (@well_formed_getitem df _ keys Hwf Hk) as Hlen.
  unfold values at 2. unfold ordered at 2, nrows. cbn [index].
  rewrite length_range, map_map. unfold ordered, take_rows.
  cbn [columns map tl snd].
  rewrite <- (length_argsort order_left_right keys).
  rewrite (map_ext
             (fun i => map (fun c : string * column => nth i (snd c) 0)
                (map (fun nc : string * column =>
                        (fst nc, take (argsort order_left_right keys) (snd nc)))
                     (columns df)))
             (fun i => map (fun c : string * column =>
                        nth i (take (argsort order_left_right keys) (snd c)) 0)
                     (columns df)))
    by (intros i; now rewrite map_map).
  rewrite rows_take. unfold values.
  apply Permutation_map, Permutation_sym.
  rewrite <- Hlen. apply argsort_perm.
Qed.

Lemma apply_order_permutes_rows_witness :
  well_formed (spaces_frame diagonal) /\
  apply_order (spaces_frame diagonal) false
  = Ok (ordered (spaces_frame diagonal) false (map p_cy diagonal)) /\
  Permutation
    (values (spaces_frame diagonal))
    (map (@tl Q)
         (values (ordered (spaces_frame diagonal) false (map p_cy diagonal)))).
Proof.
  assert (H : well_formed (spaces_frame diagonal)) by (repeat constructor).
  split; [exact H|]. split; [reflexivity|].
  apply (@apply_order_permutes_rows (spaces_frame diagonal) false
           (ordered (spaces_frame diagonal) false (map p_cy diagonal)) H).
  reflexivity.
Defined.

(** A table already in order is left in order. *)

Lemma insert_by_head {A : Type} (leb : Q -> Q -> bool) (x : Q * A) l :
  Forall (fun y => leb (fst x) (fst y) = true) l ->
  insert_by leb x l = x :: l.
Proof.
  destruct l as [|y t]; simpl; [reflexivity|].
  intros H. inversion H as [|? ? Hy _]; subst. now rewrite Hy.
Qed.

Lemma sort_by_sorted_id {A : Type} (leb : Q -> Q -> bool) (l : list (Q * A)) :
  StronglySorted (fun x y => leb (fst x) (fst y) = true) l ->
  sort_by leb l = l.
Proof.
  induction 1 as [|x t Hs IH Hx]; simpl; [reflexivity|].
  rewrite IH. now apply insert_by_head.
Qed.

Lemma combine_sorted {B : Type} (R : Q -> Q -> Prop) keys (idx : list B) :
  StronglySorted R keys ->
  StronglySorted (fun x y : Q * B => R (fst x) (fst y)) (combine keys idx).
Proof.
  intros Hs. revert idx.
  induction Hs as [|k t Hs IH Hk]; intros [|i idx]; simpl; try constructor.
  - apply IH.
  - rewrite Forall_forall in *. intros [k' i'] Hin. simpl.
    apply Hk. exact (in_combine_l _ _ _ _ Hin).
Qed.

Lemma argsort_sorted (flag : bool) keys :
  StronglySorted (fun a b => if flag then a < b else b < a) keys ->
  argsort flag keys = seq 0 (length keys).
Proof.
  intros Hs. unfold argsort. rewrite sort_by_sorted_id.
  - rewrite (map_snd_combine (fun i : nat => i)), map_id;
      [reflexivity | now rewrite length_seq].
  - apply (@combine_sorted nat
             (fun a b => (if flag then Qle_bool else fun a b => Qle_bool b a)
                           a b = true)).
    eapply StronglySorted_ind with (P := fun l =>
      StronglySorted (fun a b => (if flag then Qle_bool
                                  else fun a b => Qle_bool b a) a b = true) l);
      [constructor | | exact Hs].
    intros a l _ IH Ha. constructor; [exact IH|].
    rewrite Forall_forall in *. intros b Hb. specialize (Ha b Hb).
    destruct flag; apply Qle_bool_iff, Qlt_le_weak, Ha.
Qed.

Lemma take_rows_seq df :
  well_formed df ->
  columns (take_rows (seq 0 (nrows df)) df) = columns df.
Proof.
  intros Hwf. unfold take_rows. cbn [columns].
  rewrite <- (map_id (columns df)) at 2. apply map_ext_in.
  intros [k c] Hin. cbn [fst snd]. f_equal.
  unfold well_formed in Hwf. rewrite Forall_forall in Hwf.
  rewrite <- (Hwf _ Hin). apply take_seq.
Qed.

(** X10. A table whose sort column is already strictly in order (rising
    [cx] for left-to-right, falling [cy] for bottom-to-top) comes back
    with its rows where they were: the result is the input with the
    column [space] = 0, 1, ... in front. *)
Theorem apply_order_keeps_ordered_table df (order_left_right : bool) keys :
  well_formed df ->
  getitem df (if order_left_right then "cx" else "cy") = Ok keys ->
  has_column df "space" = false ->
  StronglySorted (fun a b => if order_left_right then a < b else b < a) keys ->
  apply_order df order_left_right
  = Ok (mkDataFrame None (range (nrows df))
          (("space", range (nrows df)) :: columns df)).
Proof.
  intros Hwf Hk Hs Hsorted.
  change (if order_left_right then "cx" else "cy")
    with (order_key order_left_right) in Hk.
  pose proof (@well_formed_getitem df _ keys Hwf Hk) as Hlen.
  rewrite (@apply_order_ok df order_left_right keys Hk Hs).
  unfold ordered. rewrite (argsort_sorted _ Hsorted), Hlen.
  now rewrite take_rows_seq.
Qed.

Lemma apply_order_keeps_ordered_table_witness :
  well_formed (spaces_frame [mkParkingSpace 10 5 3; mkParkingSpace 20 1 4]) /\
  StronglySorted (fun a b => a < b) [10; 20] /\
  apply_order (spaces_frame [mkParkingSpace 10 5 3; mkParkingSpace 20 1 4]) true
  = Ok (mkDataFrame None (range 2)
          [("space", range 2); ("cx", [10; 20]); ("cy", [5; 1]);
           ("radius", [3; 4])]).
Proof.
  assert (H : well_formed
                (spaces_frame [mkParkingSpace 10 5 3; mkParkingSpace 20 1 4]))
    by (repeat constructor).
  assert (S : StronglySorted (fun a b : Q => a < b) [10; 20])
    by (repeat constructor).
  split; [exact H|]. split; [exact S|].
  apply (@apply_order_keeps_ordered_table
           (spaces_frame [mkParkingSpace 10 5 3; mkParkingSpace 20 1 4])
           true [10; 20] H); [reflexivity | reflexivity | exact S].
Defined.

(** ** More on the axis selection *)

Lemma span_perm l l' :
  Permutation l l' ->
  match span l, span l' with
  | Some s, Some s' => s == s'
  | None, None => True
  | _, _ => False
  end.
Proof.
  intros P. unfold span.
  destruct l as [|x t]; destruct l' as [|x' t'];
    try (apply Permutation_nil in P; discriminate);
    try (apply Permutation_sym, Permutation_nil in P; discriminate);
    [exact I|].
  cbn [series_max series_min nan_sub].
  pose proof (fold_max_is_max t x) as HM.
  pose proof (fold_min_is_min t x) as Hm.
  pose proof (fold_max_is_max t' x') as HM'.
  pose proof (fold_min_is_min t' x') as Hm'.
  pose proof (is_max_unique (is_max_perm P HM) HM') as EM.
  pose proof (is_min_unique (is_min_perm P Hm) Hm') as Em.
  now rewrite EM, Em.
Qed.

Lemma nan_gt_span_perm xs xs' ys ys' :
  Permutation xs xs' -> Permutation ys ys' ->
  nan_gt (span xs) (span ys) = nan_gt (span xs') (span ys').
Proof.
  intros Px Py.
  pose proof (span_perm Px) as Hx. pose proof (span_perm Py) as Hy.
  destruct (span xs), (span xs'); try contradiction;
    destruct (span ys), (span ys'); try contradiction; try reflexivity.
  cbn [nan_gt]. unfold Qltb. f_equal.
  apply Qleb_comp; assumption.
Qed.

(** X11. The axis decision does not depend on the order of the rows: two
    tables whose [cx] columns and whose [cy] columns hold the same numbers
    in another order get the same answer from [get_order]. *)
Theorem get_order_row_order_irrelevant df df' xs ys xs' ys' :
  getitem df "cx" = Ok xs -> getitem df "cy" = Ok ys ->
  getitem df' "cx" = Ok xs' -> getitem df' "cy" = Ok ys' ->
  Permutation xs xs' -> Permutation ys ys' ->
  get_order df = get_order df'.
Proof.
  intros Hx Hy Hx' Hy' Px Py.
  rewrite (@get_order_value df xs ys Hx Hy).
  rewrite (@get_order_value df' xs' ys' Hx' Hy').
  f_equal. now apply nan_gt_span_perm.
Qed.

Lemma get_order_row_order_irrelevant_witness :
  Permutation (map p_cx diagonal) (map p_cx (rev diagonal)) /\
  Permutation (map p_cy diagonal) (map p_cy (rev diagonal)) /\
  get_order (spaces_frame diagonal) = get_order (spaces_frame (rev diagonal)).
Proof.
  assert (Px : Permutation (map p_cx diagonal) (map p_cx (rev diagonal)))
    by (apply Permutation_map, Permutation_rev).
  assert (Py : Permutation (map p_cy diagonal) (map p_cy (rev diagonal)))
    by (apply Permutation_map, Permutation_rev).
  split; [exact Px|]. split; [exact Py|].
  apply (@get_order_row_order_irrelevant
           (spaces_frame diagonal) (spaces_frame (rev diagonal))
           (map p_cx diagonal) (map p_cy diagonal)
           (map p_cx (rev diagonal)) (map p_cy (rev diagonal)));
    (reflexivity || assumption).
Defined.

(** X12. Ordering a table does not change its axis: [get_order] gives the
    same answer, or the same failure, on the result of [apply_order] as
    on its input. *)
Theorem get_order_stable_under_apply_order df flag out :
  well_formed df ->
  apply_order df flag = Ok out ->
  get_order out = get_order df.
Proof.
  intros Hwf H. apply apply_order_inv in H. destruct H as (keys & Hk & _ & ->).
  pose proof (@well_formed_getitem df _ keys Hwf Hk) as Hlen.
  assert (Hget : forall k c, k <> "space" -> getitem df k = Ok c ->
            exists c', getitem (ordered df flag keys) k = Ok c' /\
                       Permutation c' c).
  { intros k c Hne Hc. exists (take (argsort flag keys) c).
    split; [now apply getitem_ordered|].
    apply Permutation_sym, take_perm.
    rewrite (@well_formed_getitem df k c Hwf Hc), <- Hlen.
    apply argsort_perm. }
  assert (Hmiss : forall k, k <> "space" ->
            getitem df k = Raise (KeyError k) ->
            getitem (ordered df flag keys) k = Raise (KeyError k)).
  { intros k Hne Hc. apply has_column_false.
    rewrite has_column_ordered by exact Hne. now apply has_column_false. }
  destruct (getitem df "cx") as [xs|e] eqn:Ex.
  - destruct (Hget "cx" xs ltac:(discriminate) Ex) as (xs' & Ex' & Px).
    destruct (getitem df "cy") as [ys|e] eqn:Ey.
    + destruct (Hget "cy" ys ltac:(discriminate) Ey) as (ys' & Ey' & Py).
      rewrite (@get_order_value _ xs' ys' Ex' Ey').
      rewrite (@get_order_value df xs ys Ex Ey).
      f_equal. now apply nan_gt_span_perm.
    + assert (e = KeyError "cy") as ->.
      { unfold getitem in Ey. destruct (lookup "cy" (columns df));
          [discriminate | now injection Ey]. }
      unfold get_order. rewrite Ex, Ex', Ey, (Hmiss "cy" ltac:(discriminate) Ey).
      reflexivity.
  - assert (e = KeyError "cx") as ->.
    { unfold getitem in Ex. destruct (lookup "cx" (columns df));
        [discriminate | now injection Ex]. }
    unfold get_order. rewrite Ex, (Hmiss "cx" ltac:(discriminate) Ex).
    reflexivity.
Qed.

Lemma get_order_stable_under_apply_order_witness :
  well_formed (spaces_frame diagonal) /\
  apply_order (spaces_frame diagonal) true
  = Ok (ordered (spaces_frame diagonal) true (map p_cx diagonal)) /\
  get_order (ordered (spaces_frame diagonal) true (map p_cx diagonal))
  = get_order (spaces_frame diagonal).
Proof.
  assert (H : well_formed (spaces_frame diagonal)) by (repeat constructor).
  split; [exact H|]. split; [reflexivity|].
  apply (@get_order_stable_under_apply_order (spaces_frame diagonal) true
           (ordered (spaces_frame diagonal) true (map p_cx diagonal)) H).
  reflexivity.
Defined.

(** X13. [get_order] fails only for a missing column, [cx] first; on a
    table that has [cx] and [cy] it always answers, and on such a table
    with no rows the answer is bottom-to-top, both spans being NaN. *)
Theorem get_order_outcome df :
  (has_column df "cx" = false -> get_order df = Raise (KeyError "cx")) /\
  (has_column df "cx" = true -> has_column df "cy" = false ->
   get_order df = Raise (KeyError "cy")) /\
  (has_column df "cx" = true -> has_column df "cy" = true ->
   exists answer, get_order df = Ok answer) /\
  (well_formed df -> nrows df = 0%nat ->
   has_column df "cx" = true -> has_column df "cy" = true ->
   get_order df = Ok false).
Proof.
  split; [|split; [|split]].
  - intros H. apply has_column_false in H. unfold get_order. now rewrite H.
  - intros Hx Hy. apply has_column_getitem in Hx. destruct Hx as [xs Hx].
    apply has_column_false in Hy. unfold get_order. now rewrite Hx, Hy.
  - intros Hx Hy. apply has_column_getitem in Hx. destruct Hx as [xs Hx].
    apply has_column_getitem in Hy. destruct Hy as [ys Hy].
    rewrite (@get_order_value df xs ys Hx Hy). eauto.
  - intros Hwf Hn Hx Hy.
    apply has_column_getitem in Hx. destruct Hx as [xs Hx].
    apply has_column_getitem in Hy. destruct Hy as [ys Hy].
    rewrite (@get_order_value df xs ys Hx Hy).
    pose proof (@well_formed_getitem df _ xs Hwf Hx) as Lx.
    rewrite Hn in Lx. apply length_zero_iff_nil in Lx. now subst xs.
Qed.

(** ** More on the discoverer *)

Lemma Forall2_map_map {A B C : Type} (R : B -> C -> Prop)
  (f : A -> B) (g : A -> C) l :
  (forall a, In a l -> R (f a) (g a)) -> Forall2 R (map f l) (map g l).
Proof.
  induction l as [|a t IH]; simpl; intros H; constructor.
  - apply H. now left.
  - apply IH. intros; apply H; now right.
Qed.

(** X14. Doubling [space_size] doubles the radius of every emitted space
    and changes nothing else: the same clusters are accepted, in the same
    order, with the same centres. *)
Theorem radius_doubles_with_space_size df dets eps thr size :
  holds df dets -> dets <> [] -> 0 < eps ->
  exists ps qs,
    fst (get_parking_spaces eps thr size df) = Ok (spaces_frame ps) /\
    fst (get_parking_spaces eps thr (2 * size) df) = Ok (spaces_frame qs) /\
    Forall2 (fun p q => p_cx q = p_cx p /\ p_cy q = p_cy p /\
                        p_radius q == 2 * p_radius p) ps qs.
Proof.
  intros Hh Hne Heps.
  destruct (discover_clusters thr size Hh Hne Heps)
    as (labels & Hfit & Hl & Hrun).
  destruct (discover_clusters thr (2 * size) Hh Hne Heps)
    as (labels' & Hfit' & _ & Hrun').
  assert (labels' = labels) as -> by congruence.
  do 2 eexists. rewrite Hrun, Hrun'.
  split; [reflexivity|]. split; [reflexivity|].
  apply Forall2_map_map. intros c _.
  unfold space_of_members. cbn [p_cx p_cy p_radius].
  split; [reflexivity|]. split; [reflexivity|]. field.
Qed.

Lemma radius_doubles_with_space_size_witness :
  holds (detections_frame scenario) scenario /\
  exists ps qs,
    fst (get_parking_spaces 15 (9 # 10) (1 # 2) (detections_frame scenario))
    = Ok (spaces_frame ps) /\
    fst (get_parking_spaces 15 (9 # 10) (2 * (1 # 2))
           (detections_frame scenario))
    = Ok (spaces_frame qs) /\
    Forall2 (fun p q => p_cx q = p_cx p /\ p_cy q = p_cy p /\
                        p_radius q == 2 * p_radius p) ps qs.
Proof.
  assert (H : holds (detections_frame scenario) scenario)
    by (repeat split; reflexivity).
  split; [exact H|].
  apply (@radius_doubles_with_space_size
           (detections_frame scenario) scenario 15 (9 # 10) (1 # 2) H);
    [discriminate | reflexivity].
Defined.

Lemma spaces_of_spaces_frame ps : spaces_of (spaces_frame ps) = Ok ps.
Proof.
  unfold spaces_of, spaces_frame, getitem, nrows. cbn.
  rewrite length_range. f_equal.
  induction ps as [|[a b c] t IH]; simpl; [reflexivity|].
  f_equal. rewrite <- seq_shift, map_map. exact IH.
Qed.

Lemma well_formed_spaces_frame ps : well_formed (spaces_frame ps).
Proof.
  unfold well_formed, spaces_frame, nrows. cbn [columns index].
  rewrite length_range. repeat constructor; apply length_map.
Qed.

(** X15. The two stages compose: on a valid table of detections the
    discoverer's result is always accepted by [get_order] and
    [apply_order], and the ordered table holds the discovered spaces,
    each once, numbered 0, 1, ... in the [space] column. *)
Theorem discoverer_result_can_be_ordered df dets eps thr size :
  holds df dets -> dets <> [] -> 0 < eps ->
  exists ps flag final ps',
    fst (get_parking_spaces eps thr size df) = Ok (spaces_frame ps) /\
    get_order (spaces_frame ps) = Ok flag /\
    apply_order (spaces_frame ps) flag = Ok final /\
    getitem final "space" = Ok (map Nq (seq 0 (length ps))) /\
    spaces_of final = Ok ps' /\ Permutation ps ps'.
Proof.
  intros Hh Hne Heps.
  destruct (discover_clusters thr size Hh Hne Heps)
    as (labels & _ & _ & Hrun).
  set (ps := map _ (accepted_clusters thr labels dets)) in Hrun.
  pose proof (@get_order_value (spaces_frame ps) (map p_cx ps) (map p_cy ps)
                eq_refl eq_refl) as Hflag.
  set (flag := nan_gt _ _) in Hflag.
  assert (Hk : exists keys, getitem (spaces_frame ps) (order_key flag) = Ok keys
                            /\ length keys = length ps).
  { destruct flag; eexists; (split; [reflexivity | apply length_map]). }
  destruct Hk as (keys & Hk & Hlen).
  pose proof (@apply_order_ok (spaces_frame ps) flag keys Hk eq_refl) as Hfinal.
  exists ps, flag, (ordered (spaces_frame ps) flag keys).
  assert (Hsp : exists ps', spaces_of (ordered (spaces_frame ps) flag keys)
                            = Ok ps' /\ Permutation ps ps').
  { assert (Hx : getitem (ordered (spaces_frame ps) flag keys) "cx"
                 = Ok (take (argsort flag keys) (map p_cx ps)))
      by (apply getitem_ordered; [discriminate | reflexivity]).
    assert (Hy : getitem (ordered (spaces_frame ps) flag keys) "cy"
                 = Ok (take (argsort flag keys) (map p_cy ps)))
      by (apply getitem_ordered; [discriminate | reflexivity]).
    assert (Hr : getitem (ordered (spaces_frame ps) flag keys) "radius"
                 = Ok (take (argsort flag keys) (map p_radius ps)))
      by (apply getitem_ordered; [discriminate | reflexivity]).
    unfold spaces_of. rewrite Hx, Hy, Hr. cbn [bindR].
    eexists. split; [reflexivity|].
    unfold nrows, ordered. cbn [index].
    rewrite length_range, <- (length_argsort flag keys).
    rewrite (map_seq_take3 mkParkingSpace).
    pose proof (spaces_of_spaces_frame ps) as Hps.
    unfold spaces_of, spaces_frame, getitem, nrows in Hps. cbn in Hps.
    rewrite length_range in Hps. injection Hps as Hps.
    rewrite <- Hps at 1.
    apply Permutation_map, Permutation_sym.
    rewrite <- Hlen. apply argsort_perm. }
  destruct Hsp as (ps' & Hsp & Hperm). exists ps'.
  rewrite Hrun. split; [reflexivity|]. split; [exact Hflag|].
  split; [exact Hfinal|]. split; [|split; assumption].
  rewrite getitem_ordered_space, Hlen. reflexivity.
Qed.

Lemma discoverer_result_can_be_ordered_witness :
  holds (detections_frame scenario) scenario /\
  exists ps flag final ps',
    fst (get_parking_spaces 15 (9 # 10) (1 # 2) (detections_frame scenario))
    = Ok (spaces_frame ps) /\
    get_order (spaces_frame ps) = Ok flag /\
    apply_order (spaces_frame ps) flag = Ok final /\
    getitem final "space" = Ok (map Nq (seq 0 (length ps))) /\
    spaces_of final = Ok ps' /\ Permutation ps ps'.
Proof.
  assert (H : holds (detections_frame scenario) scenario)
    by (repeat split; reflexivity).
  split; [exact H|].
  apply (@discoverer_result_can_be_ordered
           (detections_frame scenario) scenario 15 (9 # 10) (1 # 2) H);
    [discriminate | reflexivity].
Defined.

(** ** Extreme thresholds *)

Lemma sorted_incl_length u2 : forall u1,
  StronglySorted Qlt u1 -> StronglySorted Qlt u2 ->
  (forall x, In x u1 -> exists y, In y u2 /\ x == y) ->
  (length u1 <= length u2)%nat.
Proof.
  induction u2 as [|b t2 IH]; intros u1 H1 H2 Hin.
  - destruct u1 as [|a t1]; [simpl; lia|].
    destruct (Hin a (or_introl eq_refl)) as (y & [] & _).
  - destruct u1 as [|a t1]; [simpl; lia|].
    inversion H1 as [|? ? Hs1 Ha]; subst.
    inversion H2 as [|? ? Hs2 Hb]; subst.
    rewrite Forall_forall in Ha, Hb.
    destruct (Qlt_le_dec b a) as [Hlt|Hle].
    + (* nothing of [u1] is [b] *)
      simpl. apply Nat.le_le_succ_r.
      apply (IH (a :: t1) H1 Hs2). intros x Hx.
      destruct (Hin x Hx) as (y & [<-|Hy] & E); [|eauto].
      exfalso. assert (a <= x)
        by (destruct Hx as [<-|Hx]; [apply Qle_refl | apply Qlt_le_weak, Ha, Hx]).
      rewrite E in H. exact (Qlt_not_le _ _ Hlt H).
    + (* [a] is [b], and the tail of [u1] lies above [b] *)
      assert (Eab : a == b).
      { destruct (Hin a (or_introl eq_refl)) as (y & [<-|Hy] & E);
          [exact E|].
        exfalso. pose proof (Hb y Hy) as Hby. rewrite <- E in Hby.
        exact (Qlt_not_le _ _ Hby Hle). }
      simpl. apply le_n_S. apply (IH t1 Hs1 Hs2). intros x Hx.
      destruct (Hin x (or_intror Hx)) as (y & [<-|Hy] & E); [|eauto].
      exfalso. pose proof (Ha x Hx) as Hax. rewrite E, Eab in Hax.
      exact (Qlt_irrefl _ Hax).
Qed.

Lemma nunique_incl l1 l2 :
  (forall x, In x l1 -> In x l2) -> (nunique l1 <= nunique l2)%nat.
Proof.
  intros Hincl. unfold nunique.
  apply sorted_incl_length; try apply unique_sorted_sorted.
  intros x Hx. apply unique_sorted_in, Hincl in Hx.
  assert (E : existsb (Qeq_bool x) (unique_sorted l2) = true).
  { rewrite existsb_unique_sorted. apply existsb_exists.
    exists x. split; [exact Hx | apply Qeq_bool_refl]. }
  apply existsb_exists in E. destruct E as (y & Hy & E).
  exists y. split; [exact Hy | now apply Qeq_bool_iff].
Qed.

Lemma members_incl labels dets c d :
  In d (Spec.members labels dets c) -> In d dets.
Proof.
  unfold Spec.members. intros H. apply in_map_iff in H.
  destruct H as ([l d'] & <- & H). apply filter_In in H.
  destruct H as [H _]. exact (in_combine_r _ _ _ _ H).
Qed.

(** No group is seen in more frames than there are. *)
Lemma presence_le_T labels dets c :
  (Spec.presence labels dets c <= Spec.T dets)%nat.
Proof.
  unfold Spec.presence, Spec.T. rewrite <- !nunique_distinct.
  apply nunique_incl. intros x Hx. apply in_map_iff in Hx.
  destruct Hx as (d & <- & Hd). apply in_map.
  exact (members_incl _ _ _ _ Hd).
Qed.

Lemma distinct_nonempty l : l <> [] -> Spec.distinct l <> [].
Proof.
  induction l as [|x t IH]; [contradiction|]. intros _. simpl.
  destruct (existsb (Qeq_bool x) t) eqn:E; [|discriminate].
  apply IH. intros ->. discriminate E.
Qed.

Lemma T_positive dets : dets <> [] -> (1 <= Spec.T dets)%nat.
Proof.
  intros H. unfold Spec.T.
  assert (Hne : Spec.distinct (map timestamp dets) <> []).
  { apply distinct_nonempty. destruct dets; [contradiction | discriminate]. }
  destruct (Spec.distinct (map timestamp dets)); [contradiction | simpl; lia].
Qed.

Lemma Nq_le a b : (a <= b)%nat -> Nq a <= Nq b.
Proof.
  intros H. unfold Nq. rewrite <- Zle_Qle. lia.
Qed.

(** X16. A threshold above 1 can never be met: a cluster is seen in at
    most [T] frames, so the result is the empty table of spaces. *)
Theorem threshold_above_one_emits_nothing df dets eps thr size :
  holds df dets -> dets <> [] -> 0 < eps -> 1 < thr ->
  fst (get_parking_spaces eps thr size df) = Ok (spaces_frame []).
Proof.
  intros Hh Hne Heps Hthr.
  destruct (discover_clusters thr size Hh Hne Heps)
    as (labels & _ & Hl & Hrun).
  rewrite Hrun. cbn [fst].
  destruct (accepted_clusters thr labels dets) as [|c t] eqn:E; [reflexivity|].
  exfalso. assert (Hc : In c (accepted_clusters thr labels dets))
    by (rewrite E; now left).
  apply (@accepted_iff thr labels dets c Hl) in Hc. destruct Hc as [_ Hrec].
  unfold Spec.recurs in Hrec.
  pose proof (Nq_le (presence_le_T labels dets c)) as Hp.
  pose proof (Nq_le (T_positive Hne)) as Ht.
  change (Nq 1) with 1 in Ht. nra.
Qed.

Lemma threshold_above_one_emits_nothing_witness :
  holds (detections_frame scenario) scenario /\ 1 < 11 # 10 /\
  fst (get_parking_spaces 15 (11 # 10) (1 # 2) (detections_frame scenario))
  = Ok (spaces_frame []).
Proof.
  assert (H : holds (detections_frame scenario) scenario)
    by (repeat split; reflexivity).
  split; [exact H|]. split; [reflexivity|].
  apply (@threshold_above_one_emits_nothing
           (detections_frame scenario) scenario 15 (11 # 10) (1 # 2) H);
    [discriminate | reflexivity | reflexivity].
Defined.

(** X17. A threshold of zero or less is met by every group: one space is
    emitted for each distinct label, the noise label included. *)
Theorem non_positive_threshold_accepts_every_group df dets eps thr size :
  holds df dets -> dets <> [] -> 0 < eps -> thr <= 0 ->
  exists labels accepted,
    DBSCAN.fit eps 2 (centers dets) = Ok labels /\
    fst (get_parking_spaces eps thr size df)
    = Ok (spaces_frame
            (map (fun c => space_of_members size (Spec.members labels dets c))
                 accepted)) /\
    NoDup accepted /\
    forall c, In c accepted <-> In c labels.
Proof.
  intros Hh Hne Heps Hthr.
  destruct (discover_clusters thr size Hh Hne Heps)
    as (labels & Hfit & Hl & Hrun).
  exists labels, (accepted_clusters thr labels dets).
  split; [exact Hfit|]. rewrite Hrun. split; [reflexivity|].
  split; [apply accepted_NoDup|].
  intros c. rewrite (@accepted_iff thr labels dets c Hl).
  split; [tauto|]. intros Hc. split; [exact Hc|].
  unfold Spec.recurs.
  assert (0 <= Nq (Spec.T dets)) by (apply (Nq_le (Nat.le_0_l _))).
  assert (0 <= Nq (Spec.presence labels dets c))
    by (apply (Nq_le (Nat.le_0_l _))).
  nra.
Qed.

Lemma non_positive_threshold_accepts_every_group_witness :
  holds (detections_frame scenario) scenario /\ 0 <= 0 /\
  exists labels accepted,
    DBSCAN.fit 15 2 (centers scenario) = Ok labels /\
    fst (get_parking_spaces 15 0 (1 # 2) (detections_frame scenario))
    = Ok (spaces_frame
            (map (fun c => space_of_members (1 # 2)
                             (Spec.members labels scenario c))
                 accepted)) /\
    NoDup accepted /\
    forall c, In c accepted <-> In c labels.
Proof.
  assert (H : holds (detections_frame scenario) scenario)
    by (repeat split; reflexivity).
  split; [exact H|]. split; [discriminate|].
  apply (@non_positive_threshold_accepts_every_group
           (detections_frame scenario) scenario 15 0 (1 # 2) H);
    [discriminate | reflexivity | discriminate].
Defined.

(** X18. With the threshold at exactly 1 a cluster is accepted if and
    only if it has a member in every frame of the input. *)
Theorem threshold_one_needs_every_frame df dets eps size :
  holds df dets -> dets <> [] -> 0 < eps ->
  exists labels accepted,
    DBSCAN.fit eps 2 (centers dets) = Ok labels /\
    fst (get_parking_spaces eps 1 size df)
    = Ok (spaces_frame
            (map (fun c => space_of_members size (Spec.members labels dets c))
                 accepted)) /\
    forall c, In c accepted
              <-> In c labels /\ Spec.presence labels dets c = Spec.T dets.
Proof.
  intros Hh Hne Heps.
  destruct (discover_clusters 1 size Hh Hne Heps)
    as (labels & Hfit & Hl & Hrun).
  exists labels, (accepted_clusters 1 labels dets).
  split; [exact Hfit|]. rewrite Hrun. split; [reflexivity|].
  intros c. rewrite (@accepted_iff 1 labels dets c Hl).
  unfold Spec.recurs. pose proof (presence_le_T labels dets c) as Hle.
  split; intros [Hc H]; (split; [exact Hc|]).
  - apply Nat.le_antisymm; [exact Hle|].
    rewrite Qmult_1_l in H. unfold Nq in H. rewrite <- Zle_Qle in H. lia.
  - rewrite H, Qmult_1_l. apply Qle_refl.
Qed.

Lemma threshold_one_needs_every_frame_witness :
  holds (detections_frame scenario) scenario /\
  exists labels accepted,
    DBSCAN.fit 15 2 (centers scenario) = Ok labels /\
    fst (get_parking_spaces 15 1 (1 # 2) (detections_frame scenario))
    = Ok (spaces_frame
            (map (fun c => space_of_members (1 # 2)
                             (Spec.members labels scenario c))
                 accepted)) /\
    forall c, In c accepted
              <-> In c labels /\
                  Spec.presence labels scenario c = Spec.T scenario.
Proof.
  assert (H : holds (detections_frame scenario) scenario)
    by (repeat split; reflexivity).
  split; [exact H|].
  apply (@threshold_one_needs_every_frame
           (detections_frame scenario) scenario 15 (1 # 2) H);
    [discriminate | reflexivity].
Defined.

(** ** The recurrence threshold in float64

    The discoverer with the product of line 37 rounded as the machine
    rounds it is the discoverer with an exact product, for the fraction
    that makes the exact product equal to the rounded one. *)

Lemma index_where_ge_Qeq s t t' :
  t == t' -> index_where_ge s t = index_where_ge s t'.
Proof.
  intros E. unfold index_where_ge. f_equal. apply filter_ext. intros kv.
  apply Qleb_comp; [exact E | reflexivity].
Qed.

Lemma index_where_ge_f64_finite s x t :
  f64_value x = Some t -> index_where_ge_f64 s x = index_where_ge s t.
Proof.
  intros H. unfold index_where_ge_f64, index_where_ge, f64_le.
  now rewrite H.
Qed.

Lemma Nq_positive n : (0 < n)%nat -> ~ Nq n == 0.
Proof.
  intros H E. unfold Nq, inject_Z, Qeq in E. simpl in E. lia.
Qed.

Lemma aggregate_f64_exact df thr size ts t :
  getitem df "timestamp" = Ok ts -> (0 < nunique ts)%nat ->
  f64_value (PrimFloat.mul (f64_of_nat (nunique ts)) thr) = Some t ->
  aggregate_f64 df thr size = aggregate df (t / Nq (nunique ts)) size.
Proof.
  intros Hts Hpos Hv. unfold aggregate_f64, aggregate.
  rewrite Hts. cbn [bindR]. cbv zeta.
  destruct (groupby_nunique df "cluster" "timestamp") as [counts|e];
    [|reflexivity].
  cbn [bindR].
  rewrite (@index_where_ge_f64_finite counts _ t Hv).
  rewrite (@index_where_ge_Qeq counts t
             (Nq (nunique ts) * (t / Nq (nunique ts)))); [reflexivity|].
  field. now apply Nq_positive.
Qed.

Lemma discover_f64 df dets eps thr size t :
  holds df dets -> dets <> [] -> 0 < eps ->
  f64_value (PrimFloat.mul (f64_of_nat (Spec.T dets)) thr) = Some t ->
  get_parking_spaces_f64 eps thr size df
  = get_parking_spaces eps (t / Nq (Spec.T dets)) size df.
Proof.
  intros Hh Hne Heps Hv.
  destruct (@DBSCAN_facts.fit_total eps 2 (centers dets) Heps)
    as (labels & Hfit & Hl).
  { destruct dets; [contradiction | discriminate]. }
  rewrite length_centers in Hl.
  pose proof (@labelled_with_cluster df dets labels Hh Hl) as (_ & _ & Hts' & _).
  rewrite (map_snd_combine timestamp _ _ Hl) in Hts'.
  destruct Hh as (Hn & Hts & Hcx & Hcy & _).
  unfold get_parking_spaces_f64, get_parking_spaces, bind, reading, assign,
    getitems.
  cbn [mapR]. rewrite Hcx, Hcy. cbn [bindR].
  rewrite centers_values by exact Hn. rewrite Hfit.
  rewrite setitem_ok by (now rewrite length_map, Hl).
  fold (with_cluster df labels). f_equal.
  assert (ET : nunique (map timestamp dets) = Spec.T dets)
    by apply nunique_distinct.
  rewrite <- ET in *.
  apply (@aggregate_f64_exact _ thr size (map timestamp dets) t Hts'); [|exact Hv].
  rewrite ET. now apply T_positive.
Qed.

(** C4, as the code has it.  With [T] the number of distinct timestamps,
    and [t] the float64 product of [T] and [min_recurrence_fraction] of
    line 37, a cluster is accepted (a space is emitted for it) if and
    only if it has a member in at least [t] distinct timestamps; one
    present in [ceil(t) - 1] of them is rejected, one present in
    [ceil(t)] is accepted. *)
Theorem recurrence_threshold_float64 df dets eps thr size t :
  holds df dets -> dets <> [] -> 0 < eps ->
  f64_value (PrimFloat.mul (f64_of_nat (Spec.T dets)) thr) = Some t ->
  exists labels accepted,
    DBSCAN.fit eps 2 (centers dets) = Ok labels /\
    fst (get_parking_spaces_f64 eps thr size df)
    = Ok (spaces_frame
            (map (fun c => space_of_members size (Spec.members labels dets c))
                 accepted)) /\
    NoDup accepted /\
    (forall c, In c accepted
               <-> In c labels /\ t <= Nq (Spec.presence labels dets c)) /\
    (forall c, In c labels ->
       Z.of_nat (Spec.presence labels dets c) = (Qceiling t - 1)%Z ->
       ~ In c accepted) /\
    (forall c, In c labels ->
       Z.of_nat (Spec.presence labels dets c) = Qceiling t ->
       In c accepted).
Proof.
  intros Hh Hne Heps Hv.
  rewrite (@discover_f64 df dets eps thr size t Hh Hne Heps Hv).
  set (thr' := t / Nq (Spec.T dets)).
  destruct (discover_clusters thr' size Hh Hne Heps)
    as (labels & Hfit & Hl & Hrun).
  exists labels, (accepted_clusters thr' labels dets).
  split; [exact Hfit|]. rewrite Hrun. split; [reflexivity|].
  split; [apply accepted_NoDup|].
  assert (Et : thr' * Nq (Spec.T dets) == t).
  { unfold thr'. field. apply Nq_positive. now apply T_positive. }
  assert (Hiff : forall c, In c (accepted_clusters thr' labels dets)
            <-> In c labels /\ t <= Nq (Spec.presence labels dets c)).
  { intros c. rewrite (@accepted_iff thr' labels dets c Hl).
    unfold Spec.recurs. now rewrite Et. }
  split; [exact Hiff|]. split.
  - intros c _ Hp Hacc. apply Hiff in Hacc. destruct Hacc as [_ Hle].
    unfold Nq in Hle. rewrite Hp in Hle.
    apply (Qlt_not_le _ _ (Qceiling_lt t) Hle).
  - intros c Hc Hp. apply Hiff. split; [exact Hc|].
    unfold Nq. rewrite Hp. apply Qle_ceiling.
Qed.

(** Four frames and the fraction one half: the product is 2, exactly.
    The car seen in all four frames and the car seen in two of them are
    accepted; the boxes seen in one frame, [ceil(2) - 1], are rejected. *)
Lemma recurrence_threshold_float64_witness :
  holds (detections_frame four_frames) four_frames /\
  f64_value (PrimFloat.mul (f64_of_nat (Spec.T four_frames)) one_half)
  = Some 2 /\
  Qceiling 2 = 2%Z /\
  Spec.presence [0; 0; 0; 0; 1; 1; 2; 2]%Z four_frames 1%Z = 2%nat /\
  Spec.presence [0; 0; 0; 0; 1; 1; 2; 2]%Z four_frames 2%Z = 1%nat /\
  exists accepted,
    fst (get_parking_spaces_f64 15 one_half (1 # 2)
           (detections_frame four_frames))
    = Ok (spaces_frame
            (map (fun c => space_of_members (1 # 2)
                             (Spec.members [0; 0; 0; 0; 1; 1; 2; 2]%Z
                                           four_frames c))
                 accepted)) /\
    NoDup accepted /\
    In 0%Z accepted /\ In 1%Z accepted /\ ~ In 2%Z accepted.
Proof.
  assert (H : holds (detections_frame four_frames) four_frames)
    by (repeat split; reflexivity).
  assert (Hv : f64_value (PrimFloat.mul (f64_of_nat (Spec.T four_frames))
                                        one_half) = Some 2)
    by (vm_compute; reflexivity).
  split; [exact H|]. split; [exact Hv|].
  split; [reflexivity|].
  split; [vm_compute; reflexivity|]. split; [vm_compute; reflexivity|].
  destruct (@recurrence_threshold_float64
              (detections_frame four_frames) four_frames 15 one_half (1 # 2) 2 H)
    as (labels & accepted & Hfit & Hrun & Hnd & Hiff & Hbelow & Hat);
    [discriminate | reflexivity | exact Hv |].
  assert (Efit : DBSCAN.fit 15 2 (centers four_frames)
                 = Ok [0; 0; 0; 0; 1; 1; 2; 2]%Z)
    by (vm_compute; reflexivity).
  rewrite Efit in Hfit. injection Hfit as <-.
  exists accepted. split; [exact Hrun|]. split; [exact Hnd|].
  split; [|split].
  - apply Hiff. split; [simpl; tauto | vm_compute; discriminate].
  - apply Hat; [simpl; tauto | vm_compute; reflexivity].
  - apply Hbelow; [simpl; tauto | vm_compute; reflexivity].
Defined.

(** C4 fails as stated: with the fraction [0.1] and ten frames, the two
    boxes at (500, 500) are a cluster present in one frame.  The float
    [0.1] is a little above one tenth, so ten times the fraction is
    above 1, its ceiling is 2, and the claim rejects a cluster present in
    [1 = ceil - 1] frame.  The product of line 37 is rounded to [1.0],
    [1 >= 1.0] holds, and the cluster is accepted: a space is emitted for
    it at (501, 500). *)
Lemma recurrence_threshold_rounding :
  f64_value one_tenth = Some (3602879701896397 # 36028797018963968) /\
  Spec.T ten_frames = 10%nat /\
  DBSCAN.fit 15 2 (centers ten_frames)
  = Ok [0; 0; 0; 0; 0; 0; 0; 0; 0; 0; 1; 1]%Z /\
  Spec.presence [0; 0; 0; 0; 0; 0; 0; 0; 0; 0; 1; 1]%Z ten_frames 1%Z
  = 1%nat /\
  Nq 1 < (3602879701896397 # 36028797018963968) * Nq 10 /\
  Z.of_nat 1
  = (Qceiling ((3602879701896397 # 36028797018963968) * Nq 10) - 1)%Z /\
  f64_value (PrimFloat.mul (f64_of_nat 10) one_tenth) = Some 1 /\
  fst (get_parking_spaces_f64 15 one_tenth (1 # 2)
         (detections_frame ten_frames))
  = Ok (spaces_frame
          (map (fun c => space_of_members (1 # 2)
                  (Spec.members [0; 0; 0; 0; 0; 0; 0; 0; 0; 0; 1; 1]%Z
                                ten_frames c))
               [0; 1]%Z)) /\
  Spec.same_space
    (space_of_members (1 # 2)
       (Spec.members [0; 0; 0; 0; 0; 0; 0; 0; 0; 0; 1; 1]%Z ten_frames 1%Z))
    (mkParkingSpace 501 500 10).
Proof.
  split; [vm_compute; reflexivity|].
  split; [vm_compute; reflexivity|].
  split; [vm_compute; reflexivity|].
  split; [vm_compute; reflexivity|].
  split; [vm_compute; reflexivity|].
  split; [vm_compute; reflexivity|].
  split; [vm_compute; reflexivity|].
  split; [vm_compute; reflexivity|].
  repeat split; vm_compute; reflexivity.
Qed.

(** The other way round: the float [0.28] is a little above 28
    hundredths and the product with 25 is rounded to a float above 7, so
    the car seen in 7 frames of 25 is left out, where the product of the
    fractions 25 and 28/100 is 7 and lets it in.  Where the product is
    exact, as for one half of four frames, the two discoverers agree. *)
Lemma recurrence_threshold_examples :
  f64_value twenty_eight_hundredths
  = Some (1261007895663739 # 4503599627370496) /\
  f64_value (PrimFloat.mul (f64_of_nat 25) twenty_eight_hundredths)
  = Some (7881299347898369 # 1125899906842624) /\
  7 < 7881299347898369 # 1125899906842624 /\
  fst (get_parking_spaces_f64 15 twenty_eight_hundredths (1 # 2)
         (detections_frame twenty_five_frames))
  = Ok (spaces_frame [mkParkingSpace 100 100 (160 # 16)]) /\
  fst (get_parking_spaces 15 (28 # 100) (1 # 2)
         (detections_frame twenty_five_frames))
  = Ok (spaces_frame [mkParkingSpace 100 100 (160 # 16);
                      mkParkingSpace 300 300 (160 # 16)]) /\
  fst (get_parking_spaces 15 (3602879701896397 # 36028797018963968) (1 # 2)
         (detections_frame ten_frames))
  = Ok (spaces_frame [mkParkingSpace (200 # 2) (200 # 2) (1280 # 128)]) /\
  fst (get_parking_spaces_f64 15 one_half (1 # 2)
         (detections_frame four_frames))
  = fst (get_parking_spaces 15 (1 # 2) (1 # 2) (detections_frame four_frames)).
Proof. repeat split; vm_compute; reflexivity. Qed.

(** ** Failures and the caller's table *)

(** X19. Where a failing call leaves the caller's table.  A call that
    fails before the clustering is done (no [cx], no [cy], no rows)
    leaves the table as it was.  A call that fails later, for a missing
    [timestamp], [x1], [y1], [x2] or [y2], has already stored the labels:
    the table comes back with the [cluster] column although the call
    raised. *)
Theorem failing_call_and_callers_table df eps thr size :
  well_formed df -> 0 < eps ->
  (has_column df "cx" = false \/ has_column df "cy" = false \/
   nrows df = 0%nat ->
   snd (get_parking_spaces eps thr size df) = df) /\
  (has_column df "cx" = true -> has_column df "cy" = true ->
   nrows df <> 0%nat ->
   (exists k, In k ["timestamp"; "x1"; "y1"; "x2"; "y2"] /\
              has_column df k = false) ->
   fails_invalid_input (fst (get_parking_spaces eps thr size df)) /\
   exists labels,
     length labels = nrows df /\
     snd (get_parking_spaces eps thr size df) = with_cluster df labels /\
     getitem (snd (get_parking_spaces eps thr size df)) "cluster"
     = Ok (map Zq labels)).
Proof.
  intros Hwf Heps. rewrite get_parking_spaces_unfold. split.
  - intros Hbad.
    destruct (getitem df "cx") as [xs|e] eqn:Ex; [|reflexivity].
    destruct (getitem df "cy") as [ys|e] eqn:Ey; [|reflexivity].
    destruct Hbad as [H|[H|H]].
    + apply has_column_false in H. congruence.
    + apply has_column_false in H. congruence.
    + assert (Hv : values (mkDataFrame (index_name df) (index df)
                                       [("cx", xs); ("cy", ys)]) = []).
      { apply length_zero_iff_nil. rewrite length_values. exact H. }
      rewrite Hv.
      destruct (DBSCAN_facts.fit_raises_empty eps 2) as [e He].
      now rewrite He.
  - intros Hx Hy Hn (k & Hk & Hmiss).
    apply has_column_getitem in Hx. destruct Hx as [xs Hx].
    apply has_column_getitem in Hy. destruct Hy as [ys Hy].
    rewrite Hx, Hy.
    set (X := values _).
    assert (HX : length X = nrows df)
      by (unfold X; rewrite length_values; reflexivity).
    destruct (@DBSCAN_facts.fit_total eps 2 X Heps) as (labels & Hfit & Hl).
    { intros E. rewrite E in HX. simpl in HX. congruence. }
    rewrite Hfit. rewrite HX in Hl.
    rewrite setitem_ok by (now rewrite length_map).
    fold (with_cluster df labels). cbn [fst snd].
    assert (Hc : getitem (with_cluster df labels) "cluster" = Ok (map Zq labels))
      by apply getitem_update_same.
    split.
    + apply (@aggregate_fails_missing (with_cluster df labels) thr size
               (map Zq labels) k Hc).
      * simpl in Hk. simpl. tauto.
      * apply has_column_false. unfold with_cluster.
        rewrite getitem_update_other; [now apply has_column_false|].
        intros <-. simpl in Hk. intuition discriminate.
    + exists labels. now repeat split.
Qed.

Lemma failing_call_and_callers_table_witness :
  well_formed
    (mkDataFrame None (range 2) [("cx", [0; 5]); ("cy", [0; 5])]) /\
  fails_invalid_input
    (fst (get_parking_spaces 15 (9 # 10) (1 # 2)
            (mkDataFrame None (range 2) [("cx", [0; 5]); ("cy", [0; 5])]))) /\
  exists labels,
    length labels = 2%nat /\
    snd (get_parking_spaces 15 (9 # 10) (1 # 2)
           (mkDataFrame None (range 2) [("cx", [0; 5]); ("cy", [0; 5])]))
    = with_cluster
        (mkDataFrame None (range 2) [("cx", [0; 5]); ("cy", [0; 5])]) labels /\
    getitem
      (snd (get_parking_spaces 15 (9 # 10) (1 # 2)
              (mkDataFrame None (range 2) [("cx", [0; 5]); ("cy", [0; 5])])))
      "cluster"
    = Ok (map Zq labels).
Proof.
  assert (H : well_formed
                (mkDataFrame None (range 2) [("cx", [0; 5]); ("cy", [0; 5])]))
    by (repeat constructor).
  split; [exact H|].
  apply (proj2 (@failing_call_and_callers_table
                  (mkDataFrame None (range 2) [("cx", [0; 5]); ("cy", [0; 5])])
                  15 (9 # 10) (1 # 2) H eq_refl));
    try reflexivity; try discriminate.
  exists "timestamp". split; [now left | reflexivity].
Defined.

(** ** The emitted spaces and the detections they come from *)

Lemma sorted_values_perm l :
  Permutation (sorted_values l) l.
Proof.
  unfold sorted_values.
  apply perm_trans with (map fst (map (fun x : Q => (x, tt)) l)).
  - apply Permutation_map, sort_by_perm.
  - rewrite map_map. simpl. rewrite map_id. apply Permutation_refl.
Qed.

Lemma div2_lt n : (0 < n)%nat -> (n / 2 < n)%nat.
Proof. intros H. apply Nat.div_lt; lia. Qed.

(** The median is a value of the list, or the mean of two of them. *)
Lemma median_cases l :
  l <> [] ->
  In (median l) l \/
  exists a b, In a l /\ In b l /\ median l = (a + b) / 2.
Proof.
  intros Hne. unfold median.
  pose proof (sorted_values_perm l) as P.
  set (s := sorted_values l) in *.
  assert (Hlen : (0 < length s)%nat).
  { rewrite (Permutation_length P). destruct l; [contradiction | simpl; lia]. }
  assert (Hin : forall i, (i < length s)%nat -> In (nth i s 0) l)
    by (intros i Hi; apply (Permutation_in _ P), nth_In, Hi).
  pose proof (div2_lt Hlen) as Hhalf.
  destruct (Nat.even (length s)).
  - right. exists (nth (length s / 2 - 1) s 0), (nth (length s / 2) s 0).
    split; [apply Hin; lia|]. split; [now apply Hin | reflexivity].
  - left. now apply Hin.
Qed.

Lemma median_between l lo hi :
  l <> [] -> (forall x, In x l -> lo <= x /\ x <= hi) ->
  lo <= median l /\ median l <= hi.
Proof.
  intros Hne Hall.
  destruct (median_cases Hne) as [H|(a & b & Ha & Hb & E)]; [now apply Hall|].
  rewrite E. destruct (Hall a Ha), (Hall b Hb).
  split; [apply Qle_shift_div_l | apply Qle_shift_div_r]; lra.
Qed.

Lemma median_positive l :
  l <> [] -> (forall x, In x l -> 0 < x) -> 0 < median l.
Proof.
  intros Hne Hall.
  destruct (median_cases Hne) as [H|(a & b & Ha & Hb & E)]; [now apply Hall|].
  rewrite E. pose proof (Hall a Ha). pose proof (Hall b Hb).
  apply Qlt_shift_div_l; lra.
Qed.

Lemma members_nonempty labels dets c :
  length labels = length dets -> In c labels ->
  Spec.members labels dets c <> [].
Proof.
  unfold Spec.members. revert dets.
  induction labels as [|l labels IH]; intros [|d dets] Hl Hin;
    simpl in *; try contradiction; try discriminate.
  destruct (Z.eqb l c) eqn:E; [simpl; discriminate|].
  destruct Hin as [->|Hin]; [rewrite Z.eqb_refl in E; discriminate|].
  apply IH; [lia | exact Hin].
Qed.

(** *** The median

    [median] sorts and picks; [Spec.median_of] speaks of halves.  The two
    agree: the value the code computes is a median in the sense of the
    specification, and it is the only one. *)

Lemma sorted_values_ascending l : Spec.ascending (sorted_values l).
Proof.
  unfold sorted_values. intros i j [Hij Hj]. rewrite length_map in Hj.
  apply Qle_bool_iff.
  destruct (Nat.eq_dec i j) as [->|Hne]; [apply Qle_bool_refl|].
  apply (@sorted_keys_nth unit Qle_bool); [|lia].
  apply sort_by_sorted; [apply Qle_bool_total | apply Qle_bool_trans].
Qed.

Lemma skipn_nth (s : list Q) i :
  (i < length s)%nat -> skipn i s = nth i s 0 :: skipn (S i) s.
Proof.
  revert i. induction s as [|a s IH]; intros [|i] H; simpl in *;
    try lia; [reflexivity | apply IH; lia].
Qed.

Lemma split_nth (s : list Q) i :
  (i < length s)%nat -> s = firstn i s ++ nth i s 0 :: skipn (S i) s.
Proof.
  intros H. rewrite <- (skipn_nth s H). symmetry. apply firstn_skipn.
Qed.

Lemma in_firstn_nth (s : list Q) i x :
  In x (firstn i s) ->
  exists j, (j < i)%nat /\ (j < length s)%nat /\ nth j s 0 = x.
Proof.
  revert i. induction s as [|a s IH]; intros [|i] H; simpl in H;
    try contradiction.
  destruct H as [<-|H].
  - exists 0%nat. simpl. repeat split; lia.
  - destruct (IH i H) as (j & H1 & H2 & H3). exists (S j). simpl.
    repeat split; try lia. exact H3.
Qed.

Lemma in_skipn_nth (s : list Q) i x :
  In x (skipn i s) ->
  exists j, (i <= j)%nat /\ (j < length s)%nat /\ nth j s 0 = x.
Proof.
  revert i. induction s as [|a s IH]; intros [|i] H;
    try (simpl in H; contradiction).
  - apply (In_nth _ _ 0) in H. destruct H as (j & Hj & E).
    exists j. repeat split; [lia | exact Hj | exact E].
  - simpl in H. destruct (IH i H) as (j & H1 & H2 & H3). exists (S j).
    simpl. repeat split; try lia. exact H3.
Qed.

Lemma even_half n : Nat.even n = true -> n = (2 * (n / 2))%nat.
Proof.
  intros H. apply Nat.even_spec in H. destruct H as [m ->].
  now rewrite Nat.mul_comm, Nat.div_mul, Nat.mul_comm by discriminate.
Qed.

Lemma odd_half n : Nat.even n = false -> n = (2 * (n / 2) + 1)%nat.
Proof.
  intros H. assert (Ho : Nat.odd n = true)
    by (rewrite <- Nat.negb_even, H; reflexivity).
  apply Nat.odd_spec in Ho. destruct Ho as [m ->].
  rewrite (Nat.mul_comm 2 m), Nat.div_add_l by discriminate.
  simpl (1 / 2)%nat. lia.
Qed.

(** The median of the code is a median of the specification. *)
Lemma median_is_median_of l : l <> [] -> Spec.median_of l (median l).
Proof.
  intros Hne. unfold median.
  pose proof (sorted_values_perm l) as P.
  pose proof (sorted_values_ascending l) as Hasc.
  set (s := sorted_values l) in *.
  assert (Hlen : (0 < length s)%nat).
  { rewrite (Permutation_length P). destruct l; [contradiction | simpl; lia]. }
  destruct (Nat.even (length s)) eqn:E.
  - (* two middle values *)
    pose proof (even_half _ E) as Hn. right.
    set (k := (length s / 2)%nat) in *.
    assert (Hk : (1 <= k)%nat) by lia.
    exists (firstn (k - 1) s), (nth (k - 1) s 0), (nth k s 0),
           (skipn (S k) s).
    split.
    { assert (Es : s = firstn (k - 1) s
                       ++ nth (k - 1) s 0 :: nth k s 0 :: skipn (S k) s).
      { rewrite <- (@skipn_nth s k) by lia.
        replace (skipn k s) with (skipn (S (k - 1)) s) by (f_equal; lia).
        apply split_nth. lia. }
      rewrite <- Es. apply Permutation_sym, P. }
    split; [rewrite length_firstn, length_skipn; lia|].
    split.
    { intros x Hx. apply in_firstn_nth in Hx.
      destruct Hx as (j & H1 & H2 & <-). apply Hasc. lia. }
    split; [apply Hasc; lia|].
    split; [|reflexivity].
    intros x Hx. apply in_skipn_nth in Hx.
    destruct Hx as (j & H1 & H2 & <-). apply Hasc. lia.
  - (* one middle value *)
    pose proof (odd_half _ E) as Hn. left.
    set (k := (length s / 2)%nat) in *.
    exists (firstn k s), (nth k s 0), (skipn (S k) s).
    split.
    { rewrite <- (@split_nth s k) by lia. apply Permutation_sym, P. }
    split; [rewrite length_firstn, length_skipn; lia|].
    split.
    { intros x Hx. apply in_firstn_nth in Hx.
      destruct Hx as (j & H1 & H2 & <-). apply Hasc. lia. }
    split; [|reflexivity].
    intros x Hx. apply in_skipn_nth in Hx.
    destruct Hx as (j & H1 & H2 & <-). apply Hasc. lia.
Qed.

(** Counting the values below and above a bound. *)

Lemma count_perm (p : Q -> bool) l l' :
  Permutation l l' -> length (filter p l) = length (filter p l').
Proof.
  induction 1 as [|x l l' _ IH|x y l|l l' l'' _ IH1 _ IH2]; simpl.
  - reflexivity.
  - destruct (p x); simpl; now rewrite IH.
  - destruct (p x), (p y); reflexivity.
  - now rewrite IH1.
Qed.

Lemma count_le (p : Q -> bool) l : (length (filter p l) <= length l)%nat.
Proof.
  induction l as [|x l IH]; simpl; [lia|]. destruct (p x); simpl; lia.
Qed.

Lemma count_all (p : Q -> bool) l :
  (forall x, In x l -> p x = true) -> length (filter p l) = length l.
Proof.
  induction l as [|x l IH]; simpl; intros H; [reflexivity|].
  rewrite (H x (or_introl eq_refl)). simpl. f_equal.
  apply IH. intros y Hy. apply H. now right.
Qed.

Lemma count_none (p : Q -> bool) l :
  (forall x, In x l -> p x = false) -> length (filter p l) = 0%nat.
Proof.
  induction l as [|x l IH]; simpl; intros H; [reflexivity|].
  rewrite (H x (or_introl eq_refl)).
  apply IH. intros y Hy. apply H. now right.
Qed.

Lemma Qltb_true a b : Qltb a b = true <-> a < b.
Proof.
  unfold Qltb. rewrite negb_true_iff. split.
  - apply Qle_bool_false_lt.
  - intros H. destruct (Qle_bool b a) eqn:E; [|reflexivity].
    apply Qle_bool_iff in E. exfalso. exact (Qlt_not_le _ _ H E).
Qed.

Lemma Qltb_false a b : Qltb a b = false <-> b <= a.
Proof.
  unfold Qltb. rewrite negb_false_iff. apply Qle_bool_iff.
Qed.

Lemma count_app (p : Q -> bool) a b :
  length (filter p (a ++ b))
  = (length (filter p a) + length (filter p b))%nat.
Proof. now rewrite filter_app, length_app. Qed.

(** With at most [i] values below [x], the value of rank [i] is not
    below [x]. *)
Lemma rank_low s l i x :
  Permutation s l -> Spec.ascending s -> (i < length s)%nat ->
  (length (filter (fun y => Qltb y x) l) <= i)%nat ->
  x <= nth i s 0.
Proof.
  intros P Hasc Hi Hc. apply Qnot_lt_le. intros Hlt.
  rewrite <- (count_perm _ P) in Hc.
  pose proof (count_app (fun y => Qltb y x) (firstn (S i) s) (skipn (S i) s))
    as E.
  rewrite firstn_skipn in E. rewrite (count_all _ (firstn (S i) s)) in E.
  - rewrite length_firstn in E. lia.
  - intros y Hy. apply in_firstn_nth in Hy.
    destruct Hy as (j & H1 & H2 & <-). apply Qltb_true.
    apply Qle_lt_trans with (nth i s 0); [apply Hasc; lia | exact Hlt].
Qed.

(** With at most [n - i - 1] values above [x], the value of rank [i] is
    not above [x]. *)
Lemma rank_high s l i x :
  Permutation s l -> Spec.ascending s -> (i < length s)%nat ->
  (length (filter (fun y => Qltb x y) l) + S i <= length s)%nat ->
  nth i s 0 <= x.
Proof.
  intros P Hasc Hi Hc. apply Qnot_lt_le. intros Hlt.
  rewrite <- (count_perm _ P) in Hc.
  pose proof (count_app (fun y => Qltb x y) (firstn i s) (skipn i s)) as E.
  rewrite firstn_skipn in E. rewrite (count_all _ (skipn i s)) in E.
  - rewrite length_skipn in E. lia.
  - intros y Hy. apply in_skipn_nth in Hy.
    destruct Hy as (j & H1 & H2 & <-). apply Qltb_true.
    apply Qlt_le_trans with (nth i s 0); [exact Hlt | apply Hasc; lia].
Qed.

(** The values below and above a bound, in a list cut in three. *)
Lemma count_three (p : Q -> bool) lo mid hi :
  length (filter p (lo ++ mid ++ hi))
  = (length (filter p lo) + length (filter p mid)
     + length (filter p hi))%nat.
Proof. rewrite !count_app. lia. Qed.

Lemma count_below_none x l :
  (forall y, In y l -> x <= y) ->
  length (filter (fun y => Qltb y x) l) = 0%nat.
Proof.
  intros H. apply count_none. intros y Hy. apply Qltb_false. now apply H.
Qed.

Lemma count_above_none x l :
  (forall y, In y l -> y <= x) ->
  length (filter (fun y => Qltb x y) l) = 0%nat.
Proof.
  intros H. apply count_none. intros y Hy. apply Qltb_false. now apply H.
Qed.

(** A median of the specification is the median of the code. *)
Lemma median_of_unique l m : Spec.median_of l m -> m == median l.
Proof.
  pose proof (sorted_values_perm l) as P.
  pose proof (sorted_values_ascending l) as Hasc.
  intros [(lo & mid & hi & Pl & Hlen & Hlo & Hhi & ->)
         |(lo & a & b & hi & Pl & Hlen & Hlo & Hab & Hhi & ->)];
    unfold median; set (s := sorted_values l) in *;
    pose proof (Permutation_length (perm_trans P Pl)) as Hn;
    rewrite length_app in Hn; simpl in Hn.
  - (* odd length *)
    assert (Hodd : Nat.even (length s) = false).
    { rewrite Hn, Hlen.
      replace (length hi + S (length hi))%nat with (S (2 * length hi)) by lia.
      rewrite Nat.even_succ, Nat.odd_mul. reflexivity. }
    rewrite Hodd. pose proof (odd_half _ Hodd) as Hh.
    assert (Hk : (length s / 2)%nat = length hi) by lia.
    rewrite Hk.
    change (lo ++ mid :: hi) with (lo ++ [mid] ++ hi) in Pl.
    apply Qle_antisym.
    + apply (@rank_low s l); [exact P | exact Hasc | lia|].
      rewrite (count_perm _ Pl), count_three.
      rewrite (@count_below_none mid [mid]), (@count_below_none mid hi).
      * pose proof (count_le (fun y => Qltb y mid) lo). lia.
      * exact Hhi.
      * intros y [<-|[]]. apply Qle_refl.
    + apply (@rank_high s l); [exact P | exact Hasc | lia|].
      rewrite (count_perm _ Pl), count_three.
      rewrite (@count_above_none mid lo), (@count_above_none mid [mid]).
      * pose proof (count_le (fun y => Qltb mid y) hi). lia.
      * intros y [<-|[]]. apply Qle_refl.
      * exact Hlo.
  - (* even length *)
    assert (Heven : Nat.even (length s) = true).
    { rewrite Hn, Hlen.
      replace (length hi + S (S (length hi)))%nat
        with (2 * S (length hi))%nat by lia.
      rewrite Nat.even_mul. reflexivity. }
    rewrite Heven. pose proof (even_half _ Heven) as Hh.
    assert (Hk : (length s / 2)%nat = S (length hi)) by lia.
    rewrite Hk. replace (S (length hi) - 1)%nat with (length hi) by lia.
    change (lo ++ a :: b :: hi) with (lo ++ [a; b] ++ hi) in Pl.
    assert (Hlo_b : forall y, In y lo -> y <= b)
      by (intros y Hy; apply Qle_trans with a; [now apply Hlo | exact Hab]).
    assert (Hhi_a : forall y, In y hi -> a <= y)
      by (intros y Hy; apply Qle_trans with b; [exact Hab | now apply Hhi]).
    assert (Ea : nth (length hi) s 0 == a).
    { apply Qle_antisym.
      - apply (@rank_high s l); [exact P | exact Hasc | lia|].
        rewrite (count_perm _ Pl), count_three.
        rewrite (@count_above_none a lo) by exact Hlo.
        pose proof (count_le (fun y => Qltb a y) hi).
        assert (length (filter (fun y => Qltb a y) [a; b]) <= 1)%nat.
        { simpl. replace (Qltb a a) with false
            by (symmetry; apply Qltb_false, Qle_refl).
          destruct (Qltb a b); simpl; lia. }
        lia.
      - apply (@rank_low s l); [exact P | exact Hasc | lia|].
        rewrite (count_perm _ Pl), count_three.
        rewrite (@count_below_none a [a; b]), (@count_below_none a hi).
        + pose proof (count_le (fun y => Qltb y a) lo). lia.
        + exact Hhi_a.
        + intros y [<-|[<-|[]]]; [apply Qle_refl | exact Hab]. }
    assert (Eb : nth (S (length hi)) s 0 == b).
    { apply Qle_antisym.
      - apply (@rank_high s l); [exact P | exact Hasc | lia|].
        rewrite (count_perm _ Pl), count_three.
        rewrite (@count_above_none b lo), (@count_above_none b [a; b]).
        + pose proof (count_le (fun y => Qltb b y) hi). lia.
        + intros y [<-|[<-|[]]]; [exact Hab | apply Qle_refl].
        + exact Hlo_b.
      - apply (@rank_low s l); [exact P | exact Hasc | lia|].
        rewrite (count_perm _ Pl), count_three.
        rewrite (@count_below_none b hi) by exact Hhi.
        pose proof (count_le (fun y => Qltb y b) lo).
        assert (length (filter (fun y => Qltb y b) [a; b]) <= 1)%nat.
        { simpl. replace (Qltb b b) with false
            by (symmetry; apply Qltb_false, Qle_refl).
          destruct (Qltb a b); simpl; lia. }
        lia. }
    now rewrite Ea, Eb.
Qed.

(** The specification determines the median. *)
Lemma median_of_determined l m m' :
  Spec.median_of l m -> Spec.median_of l m' -> m == m'.
Proof.
  intros H H'. apply median_of_unique in H, H'. now rewrite H, H'.
Qed.

(** The radius of lines 58-59 is [min(w, h) * space_size / 2]. *)
Lemma min_side_radius (w h size : Q) :
  (if Qltb w h then w else h) * (size / 2) == Qmin w h * size / 2.
Proof.
  unfold Qltb. destruct (Qle_bool h w) eqn:E; simpl.
  - apply Qle_bool_iff in E. rewrite (Q.min_r _ _ E). field.
  - apply Qle_bool_false_lt in E.
    rewrite (Q.min_l w h) by now apply Qlt_le_weak. field.
Qed.

(** The space computed for a group that has a member is its canonical
    space. *)
Lemma space_of_members_canonical size ms :
  ms <> [] -> Spec.is_canonical size ms (space_of_members size ms).
Proof.
  intros Hne.
  assert (Hmap : forall f : Detection -> Q, map f ms <> [])
    by (intros f E; apply map_eq_nil in E; contradiction).
  unfold Spec.is_canonical, space_of_members. cbn [p_cx p_cy p_radius].
  split; [apply median_is_median_of, Hmap|].
  split; [apply median_is_median_of, Hmap|].
  exists (median (map Spec.width ms)), (median (map Spec.height ms)).
  split; [apply median_is_median_of, Hmap|].
  split; [apply median_is_median_of, Hmap|].
  apply min_side_radius.
Qed.

(** The canonical space of a group is determined, up to numeric
    equality. *)
Lemma is_canonical_determined size ms p q :
  Spec.is_canonical size ms p -> Spec.is_canonical size ms q ->
  Spec.same_space p q.
Proof.
  intros (Hx & Hy & w & h & Hw & Hh & Hr) (Hx' & Hy' & w' & h' & Hw' & Hh' & Hr').
  split; [exact (median_of_determined Hx Hx')|].
  split; [exact (median_of_determined Hy Hy')|].
  rewrite Hr, Hr'.
  now rewrite (median_of_determined Hw Hw'), (median_of_determined Hh Hh').
Qed.

(** C3. For every accepted cluster the emitted space has the median
    centre of the cluster's detections, coordinate by coordinate, and
    the radius [min(median_width, median_height) * space_size / 2], the
    two medians being taken independently over the member detections:
    the emitted rows are, in order, canonical spaces of the accepted
    clusters, and the accepted clusters are the labels that meet the
    recurrence test. *)
Theorem canonical_space_of_accepted_clusters df dets eps thr size :
  holds df dets -> dets <> [] -> 0 < eps ->
  exists labels ps,
    DBSCAN.fit eps 2 (centers dets) = Ok labels /\
    fst (get_parking_spaces eps thr size df) = Ok (spaces_frame ps) /\
    Forall2 (fun p c =>
               Spec.is_canonical size (Spec.members labels dets c) p)
            ps (accepted_clusters thr labels dets) /\
    (forall c, In c (accepted_clusters thr labels dets)
               <-> In c labels /\ Spec.recurs thr labels dets c).
Proof.
  intros Hh Hne Heps.
  destruct (discover_clusters thr size Hh Hne Heps) as (labels & Hfit & Hl & Hrun).
  exists labels. eexists. split; [exact Hfit|]. rewrite Hrun.
  split; [reflexivity|]. split.
  - rewrite <- (map_id (accepted_clusters thr labels dets)) at 2.
    apply Forall2_map_map. intros c Hc.
    apply (@accepted_iff thr labels dets c Hl) in Hc. destruct Hc as [Hc _].
    apply space_of_members_canonical. now apply members_nonempty.
  - intros c. now apply accepted_iff.
Qed.

(** The median of three values, from the halves alone. *)
Lemma median_of_three a b c m l :
  Permutation l [a; b; c] -> a <= b -> b <= c -> m == b ->
  Spec.median_of l m.
Proof.
  intros P Hab Hbc E. left. exists [a], b, [c].
  split; [exact P|]. split; [reflexivity|].
  split; [intros x [<-|[]]; exact Hab|].
  split; [intros x [<-|[]]; exact Hbc | exact E].
Qed.

(** The parked car of the scenario, by the specification alone: the
    middle one of 99, 100, 101 in both coordinates, and boxes of 40 by
    40, so a space at (100, 100) of radius [40 * (1/2) / 2 = 10]. *)
Lemma scenario_canonical_space :
  Spec.is_canonical (1 # 2)
    [box 1 100 100 40 40; box 2 101 99 40 40; box 3 99 101 40 40]
    (mkParkingSpace 100 100 10).
Proof.
  unfold Spec.is_canonical. cbn [p_cx p_cy p_radius map].
  split; [|split].
  - apply (@median_of_three 99 100 101); try (vm_compute; discriminate);
      [|reflexivity].
    apply perm_trans with [100; 99; 101];
      [apply perm_skip, perm_swap | apply perm_swap].
  - apply (@median_of_three 99 100 101); try (vm_compute; discriminate);
      [|reflexivity].
    apply perm_swap.
  - exists 40, 40. split; [|split; [|vm_compute; reflexivity]].
    + eapply median_of_three;
        [apply Permutation_refl | | | ]; vm_compute;
        (discriminate || reflexivity).
    + eapply median_of_three;
        [apply Permutation_refl | | | ]; vm_compute;
        (discriminate || reflexivity).
Qed.

(** On the scenario the theorem pins the result: one space, the
    canonical space of the three detections of the parked car, which is
    the space at (100, 100) of radius 10. *)
Lemma canonical_space_of_accepted_clusters_witness :
  holds (detections_frame scenario) scenario /\
  exists p,
    fst (get_parking_spaces 15 (9 # 10) (1 # 2) (detections_frame scenario))
    = Ok (spaces_frame [p]) /\
    Spec.is_canonical (1 # 2)
      [box 1 100 100 40 40; box 2 101 99 40 40; box 3 99 101 40 40] p /\
    Spec.same_space p (mkParkingSpace 100 100 10).
Proof.
  assert (H : holds (detections_frame scenario) scenario)
    by (repeat split; reflexivity).
  split; [exact H|].
  destruct (@canonical_space_of_accepted_clusters
              (detections_frame scenario) scenario 15 (9 # 10) (1 # 2) H)
    as (labels & ps & Hfit & Hrun & Hall & _);
    [discriminate | reflexivity |].
  assert (Efit : DBSCAN.fit 15 2 (centers scenario) = Ok [0; 0; 0; -1]%Z)
    by (vm_compute; reflexivity).
  rewrite Efit in Hfit. injection Hfit as <-.
  replace (accepted_clusters (9 # 10) [0; 0; 0; -1]%Z scenario)
    with [0%Z] in Hall by (vm_compute; reflexivity).
  inversion Hall as [|p c ps' cs Hp Hrest]; subst.
  inversion Hrest; subst.
  replace (Spec.members [0; 0; 0; -1]%Z scenario 0%Z)
    with [box 1 100 100 40 40; box 2 101 99 40 40; box 3 99 101 40 40]
    in Hp by (vm_compute; reflexivity).
  exists p. split; [exact Hrun|]. split; [exact Hp|].
  exact (is_canonical_determined Hp scenario_canonical_space).
Defined.

(** X20. Every emitted centre lies among the detections of its cluster:
    row by row, in the order of the accepted clusters (the labels that
    meet the recurrence test), [cx] is between the least and the
    greatest [cx] of the members, and [cy] likewise; an accepted cluster
    always has a member. *)
Theorem emitted_centre_within_cluster df dets eps thr size :
  holds df dets -> dets <> [] -> 0 < eps ->
  exists labels ps,
    DBSCAN.fit eps 2 (centers dets) = Ok labels /\
    fst (get_parking_spaces eps thr size df) = Ok (spaces_frame ps) /\
    (forall c, In c (accepted_clusters thr labels dets)
               <-> In c labels /\ Spec.recurs thr labels dets c) /\
    Forall2
      (fun p c =>
         Spec.members labels dets c <> [] /\
         forall lo hi,
           ((forall d, In d (Spec.members labels dets c) ->
                       lo <= cx d /\ cx d <= hi) ->
            lo <= p_cx p /\ p_cx p <= hi) /\
           ((forall d, In d (Spec.members labels dets c) ->
                       lo <= cy d /\ cy d <= hi) ->
            lo <= p_cy p /\ p_cy p <= hi))
      ps (accepted_clusters thr labels dets).
Proof.
  intros Hh Hne Heps.
  destruct (discover_clusters thr size Hh Hne Heps)
    as (labels & Hfit & Hl & Hrun).
  exists labels. eexists.
  split; [exact Hfit|]. rewrite Hrun. split; [reflexivity|].
  split; [intros c; now apply accepted_iff|].
  rewrite <- (map_id (accepted_clusters thr labels dets)) at 2.
  apply Forall2_map_map. intros c Hc.
  apply (@accepted_iff thr labels dets c Hl) in Hc. destruct Hc as [Hc _].
  pose proof (@members_nonempty labels dets c Hl Hc) as Hm.
  split; [exact Hm|]. intros lo hi.
  unfold space_of_members. cbn [p_cx p_cy].
  assert (Hmap : forall f : Detection -> Q,
            map f (Spec.members labels dets c) <> []).
  { intros f E. apply map_eq_nil in E. contradiction. }
  split; intros Hall; apply median_between; try apply Hmap;
    intros x Hx; apply in_map_iff in Hx; destruct Hx as (d & <- & Hd);
    now apply Hall.
Qed.

Lemma emitted_centre_within_cluster_witness :
  holds (detections_frame scenario) scenario /\
  exists labels ps,
    DBSCAN.fit 15 2 (centers scenario) = Ok labels /\
    fst (get_parking_spaces 15 (9 # 10) (1 # 2) (detections_frame scenario))
    = Ok (spaces_frame ps) /\
    (forall c, In c (accepted_clusters (9 # 10) labels scenario)
               <-> In c labels /\ Spec.recurs (9 # 10) labels scenario c) /\
    Forall2
      (fun p c =>
         Spec.members labels scenario c <> [] /\
         forall lo hi,
           ((forall d, In d (Spec.members labels scenario c) ->
                       lo <= cx d /\ cx d <= hi) ->
            lo <= p_cx p /\ p_cx p <= hi) /\
           ((forall d, In d (Spec.members labels scenario c) ->
                       lo <= cy d /\ cy d <= hi) ->
            lo <= p_cy p /\ p_cy p <= hi))
      ps (accepted_clusters (9 # 10) labels scenario).
Proof.
  assert (H : holds (detections_frame scenario) scenario)
    by (repeat split; reflexivity).
  split; [exact H|].
  apply (@emitted_centre_within_cluster
           (detections_frame scenario) scenario 15 (9 # 10) (1 # 2) H);
    [discriminate | reflexivity].
Defined.

(** X21. When every bounding box has [x1 < x2] and [y1 < y2] and
    [space_size] is positive, every emitted radius is positive. *)
Theorem emitted_radius_positive df dets eps thr size :
  holds df dets -> dets <> [] -> 0 < eps -> 0 < size ->
  (forall d, In d dets -> x1 d < x2 d /\ y1 d < y2 d) ->
  exists ps,
    fst (get_parking_spaces eps thr size df) = Ok (spaces_frame ps) /\
    forall p, In p ps -> 0 < p_radius p.
Proof.
  intros Hh Hne Heps Hsize Hbox.
  destruct (discover_clusters thr size Hh Hne Heps)
    as (labels & Hfit & Hl & Hrun).
  eexists. rewrite Hrun. split; [reflexivity|].
  intros p Hp. apply in_map_iff in Hp. destruct Hp as (c & <- & Hc).
  apply (@accepted_iff thr labels dets c Hl) in Hc. destruct Hc as [Hc _].
  pose proof (@members_nonempty labels dets c Hl Hc) as Hm.
  unfold space_of_members. cbn [p_radius].
  assert (Hw : 0 < median (map Spec.width (Spec.members labels dets c))).
  { apply median_positive.
    - intros E. apply map_eq_nil in E. contradiction.
    - intros x Hx. apply in_map_iff in Hx. destruct Hx as (d & <- & Hd).
      apply members_incl in Hd. destruct (Hbox d Hd). unfold Spec.width. lra. }
  assert (Hh' : 0 < median (map Spec.height (Spec.members labels dets c))).
  { apply median_positive.
    - intros E. apply map_eq_nil in E. contradiction.
    - intros x Hx. apply in_map_iff in Hx. destruct Hx as (d & <- & Hd).
      apply members_incl in Hd. destruct (Hbox d Hd). unfold Spec.height. lra. }
  assert (Hs2 : 0 < size / 2) by (apply Qlt_shift_div_l; lra).
  destruct (Qltb _ _); nra.
Qed.

Lemma emitted_radius_positive_witness :
  holds (detections_frame scenario) scenario /\
  (forall d, In d scenario -> x1 d < x2 d /\ y1 d < y2 d) /\
  exists ps,
    fst (get_parking_spaces 15 (9 # 10) (1 # 2) (detections_frame scenario))
    = Ok (spaces_frame ps) /\
    forall p, In p ps -> 0 < p_radius p.
Proof.
  assert (H : holds (detections_frame scenario) scenario)
    by (repeat split; reflexivity).
  assert (B : forall d, In d scenario -> x1 d < x2 d /\ y1 d < y2 d).
  { intros d Hd. simpl in Hd.
    repeat (destruct Hd as [<-|Hd]; [split; reflexivity|]). contradiction. }
  split; [exact H|]. split; [exact B|].
  apply (@emitted_radius_positive
           (detections_frame scenario) scenario 15 (9 # 10) (1 # 2) H);
    [discriminate | reflexivity | reflexivity | exact B].
Defined.

(** ** Which samples the clustering calls noise *)

Module DBSCAN_noise.
Import DBSCAN.

Lemma sq_dist_sym p : forall q, sq_dist p q == sq_dist q p.
Proof.
  unfold sq_dist. induction p as [|a p IH]; intros [|b q]; simpl;
    try reflexivity.
  rewrite (IH q). ring.
Qed.

Lemma sq_dist_self p : sq_dist p p == 0.
Proof.
  unfold sq_dist. induction p as [|a p IH]; simpl; [reflexivity|].
  rewrite IH. ring.
Qed.

Lemma nth_set_label_other i w v labels :
  i <> w -> nth w (set_label i v labels) 0%Z = nth w labels 0%Z.
Proof.
  revert i w. induction labels as [|x t IH]; intros [|i] [|w] H; simpl;
    try reflexivity; try contradiction.
  apply IH. congruence.
Qed.

Lemma unlabelled_set_label_same i v labels :
  v <> (-1)%Z -> unlabelled (set_label i v labels) i = false.
Proof.
  intros Hv. unfold unlabelled. revert i.
  induction labels as [|x t IH]; intros [|i]; simpl; try reflexivity.
  - now apply Z.eqb_neq.
  - apply IH.
Qed.

Section Labelling.

Variable eps : Q.
Variable X : list (list Q).

Let n := length X.
Let nbs := neighborhoods eps X.
Let is_core := core_samples 2 nbs.

Let near := DBSCAN.near eps X.

Lemma near_sym i j : near i j = near j i.
Proof.
  unfold near, DBSCAN.near. apply Qleb_comp; [apply sq_dist_sym | reflexivity].
Qed.

Lemma near_self i : near i i = true.
Proof.
  unfold near, DBSCAN.near. apply Qle_bool_iff. rewrite sq_dist_self.
  destruct (Qlt_le_dec eps 0); nra.
Qed.

Lemma nbs_nth i :
  nth i nbs [] = if Nat.ltb i n then neighborhood eps X i else [].
Proof.
  unfold nbs, neighborhoods. fold n.
  destruct (Nat.ltb i n) eqn:E.
  - apply Nat.ltb_lt in E.
    rewrite (nth_indep _ [] (neighborhood eps X 0))
      by (now rewrite length_map, length_seq).
    rewrite map_nth, seq_nth by exact E. reflexivity.
  - apply Nat.ltb_ge in E. apply nth_overflow.
    now rewrite length_map, length_seq.
Qed.

Lemma in_neighborhood i j :
  In j (neighborhood eps X i) <-> (j < n)%nat /\ near i j = true.
Proof.
  unfold neighborhood. rewrite filter_In, in_seq. fold n.
  unfold near, DBSCAN.near.
  split; intros [H1 H2]; (split; [lia | exact H2]).
Qed.

Lemma is_core_nth i :
  nth i is_core false
  = Nat.ltb i n && Nat.leb 2 (length (neighborhood eps X i)).
Proof.
  unfold is_core, core_samples.
  etransitivity;
    [exact (map_nth (fun nb : list nat => Nat.leb 2 (length nb)) nbs [] i)|].
  cbv beta. rewrite nbs_nth. now destruct (Nat.ltb i n).
Qed.

(** *** A sample with nothing near it *)

Variable v : nat.
Hypothesis v_in_range : (v < n)%nat.
Hypothesis v_isolated : forall j, (j < n)%nat -> j <> v -> near v j = false.

Lemma isolated_neighborhood : neighborhood eps X v = [v].
Proof.
  unfold neighborhood. fold n. apply filter_seq_single; [lia|].
  intros j Hj. change (near v j = true <-> j = v). split.
  - intros H. destruct (Nat.eq_dec j v) as [E|E]; [exact E|].
    rewrite v_isolated in H by lia. discriminate.
  - intros ->. apply near_self.
Qed.

Lemma isolated_not_core : nth v is_core false = false.
Proof.
  rewrite is_core_nth, isolated_neighborhood. simpl. apply andb_false_r.
Qed.

Lemma isolated_not_pushed i : i <> v -> ~ In v (nth i nbs []).
Proof.
  intros Hne Hin. rewrite nbs_nth in Hin.
  destruct (Nat.ltb i n) eqn:E; [|contradiction].
  apply Nat.ltb_lt in E. apply in_neighborhood in Hin.
  destruct Hin as [_ Hin]. rewrite near_sym, v_isolated in Hin by lia.
  discriminate.
Qed.

Lemma expand_isolated label_num : forall fuel i stack labels labels',
  i <> v -> ~ In v stack -> unlabelled labels v = true ->
  expand fuel is_core nbs label_num i stack labels = Some labels' ->
  unlabelled labels' v = true.
Proof.
  induction fuel as [|fuel IH]; intros i stack labels labels' Hi Hs Hv;
    simpl; [discriminate|].
  set (labels1 := if unlabelled labels i then _ else labels).
  assert (Hv1 : unlabelled labels1 v = true).
  { unfold labels1. destruct (unlabelled labels i); [|exact Hv].
    unfold unlabelled in *. now rewrite nth_set_label_other. }
  set (stack1 := if _ && _ then _ else stack).
  assert (Hs1 : ~ In v stack1).
  { unfold stack1. destruct (_ && _); [|exact Hs].
    intros Hin. apply in_app_or in Hin. destruct Hin as [Hin|Hin]; [|auto].
    apply in_rev, filter_In in Hin. destruct Hin as [Hin _].
    exact (isolated_not_pushed Hi Hin). }
  destruct stack1 as [|j stack2].
  - intros H. injection H as <-. exact Hv1.
  - apply IH; [|intros H; apply Hs1; now right | exact Hv1].
    intros ->. apply Hs1. now left.
Qed.

Lemma loop_isolated : forall idx labels label_num labels' num',
  unlabelled labels v = true ->
  fold_left (inner_step is_core nbs) idx (Some (labels, label_num))
  = Some (labels', num') ->
  unlabelled labels' v = true.
Proof.
  induction idx as [|i idx IH]; intros labels label_num labels' num' Hv;
    cbn [fold_left].
  - intros H. injection H as <- _. exact Hv.
  - unfold inner_step at 2.
    destruct (negb (unlabelled labels i) || negb (nth i is_core false)) eqn:E.
    + apply IH, Hv.
    + destruct (expand _ _ _ _ _ _ _) as [labels1|] eqn:Ex.
      * apply IH.
        refine (@expand_isolated label_num _ i [] labels labels1 _ _ Hv Ex);
          [|intros []].
        intros ->. rewrite isolated_not_core in E.
        rewrite orb_true_r in E. discriminate.
      * clear. intros H. exfalso. induction idx as [|j idx IHidx];
          simpl in H; [discriminate | auto].
Qed.

End Labelling.

(** *** A sample with another one near it *)

Section Labelled.

Variable is_core : list bool.
Variable nbs : list (list nat).

Lemma expand_keeps_labelled label_num : label_num <> (-1)%Z ->
  forall fuel i stack labels labels' w,
    unlabelled labels w = false ->
    expand fuel is_core nbs label_num i stack labels = Some labels' ->
    unlabelled labels' w = false.
Proof.
  intros Hnum. induction fuel as [|fuel IH];
    intros i stack labels labels' w Hw; simpl; [discriminate|].
  set (labels1 := if unlabelled labels i then _ else labels).
  assert (Hw1 : unlabelled labels1 w = false).
  { unfold labels1. destruct (unlabelled labels i) eqn:Ei; [|exact Hw].
    destruct (Nat.eq_dec i w) as [->|Hne];
      [now apply unlabelled_set_label_same|].
    unfold unlabelled in *. now rewrite nth_set_label_other. }
  destruct (if _ && _ then _ else stack) as [|j stack2].
  - intros H. injection H as <-. exact Hw1.
  - now apply IH.
Qed.

Lemma expand_labels_start label_num : label_num <> (-1)%Z ->
  forall fuel i stack labels labels',
    expand fuel is_core nbs label_num i stack labels = Some labels' ->
    unlabelled labels' i = false.
Proof.
  intros Hnum fuel i stack labels labels'.
  destruct fuel as [|fuel]; simpl; [discriminate|].
  set (labels1 := if unlabelled labels i then _ else labels).
  assert (Hi : unlabelled labels1 i = false).
  { unfold labels1. destruct (unlabelled labels i) eqn:Ei; [|exact Ei].
    now apply unlabelled_set_label_same. }
  destruct (if _ && _ then _ else stack) as [|j stack2].
  - intros H. injection H as <-. exact Hi.
  - now apply expand_keeps_labelled.
Qed.

Lemma fold_inner_none idx :
  fold_left (inner_step is_core nbs) idx None = None.
Proof. induction idx; simpl; auto. Qed.

Lemma loop_labels_cores : forall idx labels label_num labels' num' w,
  (0 <= label_num)%Z ->
  unlabelled labels w = false \/ (In w idx /\ nth w is_core false = true) ->
  fold_left (inner_step is_core nbs) idx (Some (labels, label_num))
  = Some (labels', num') ->
  unlabelled labels' w = false.
Proof.
  induction idx as [|i idx IH]; intros labels label_num labels' num' w Hnum Hw;
    cbn [fold_left].
  - intros H. injection H as <- _. destruct Hw as [Hw|[[] _]]. exact Hw.
  - unfold inner_step at 2.
    destruct (negb (unlabelled labels i) || negb (nth i is_core false)) eqn:E.
    + apply IH; [exact Hnum|].
      destruct Hw as [Hw|[[->|Hin] Hc]]; auto.
      left. rewrite Hc in E. simpl in E. rewrite orb_false_r in E.
      now apply negb_true_iff.
    + destruct (expand _ _ _ _ _ _ _) as [labels1|] eqn:Ex;
        [|rewrite fold_inner_none; discriminate].
      apply IH; [lia|].
      destruct Hw as [Hw|[[->|Hin] Hc]]; auto.
      * left. refine (@expand_keeps_labelled label_num _
                        _ i [] labels labels1 w Hw Ex). lia.
      * left. refine (@expand_labels_start label_num _
                        _ w [] labels labels1 Ex). lia.
Qed.

End Labelled.

End DBSCAN_noise.

Lemma fit_inner eps min_samples X labels :
  DBSCAN.fit eps min_samples X = Ok labels ->
  exists num,
    fold_left (DBSCAN.inner_step
                 (DBSCAN.core_samples min_samples (DBSCAN.neighborhoods eps X))
                 (DBSCAN.neighborhoods eps X))
              (seq 0 (length X)) (Some (repeat (-1)%Z (length X), 0%Z))
    = Some (labels, num).
Proof.
  unfold DBSCAN.fit, DBSCAN.dbscan_inner.
  destruct (negb (Qltb 0 eps)); [discriminate|].
  destruct (Nat.eqb (length X) 0); [discriminate|].
  rewrite repeat_length.
  destruct (fold_left _ _ _) as [[l num]|]; simpl; [|discriminate].
  intros H. injection H as <-. now exists num.
Qed.

Lemma unlabelled_initially n v :
  (v < n)%nat -> DBSCAN.unlabelled (repeat (-1)%Z n) v = true.
Proof.
  intros H. unfold DBSCAN.unlabelled.
  rewrite (nth_indep _ 0%Z (-1)%Z) by (now rewrite repeat_length).
  now rewrite nth_repeat.
Qed.

(** X22. With [min_samples = 2], a sample that has no other sample within
    [eps] is labelled noise. *)
Theorem isolated_sample_is_noise eps X labels v :
  DBSCAN.fit eps 2 X = Ok labels ->
  (v < length X)%nat ->
  (forall j, (j < length X)%nat -> j <> v ->
     eps * eps < DBSCAN.sq_dist (nth v X []) (nth j X [])) ->
  nth v labels 0%Z = noise_label.
Proof.
  intros Hfit Hv Hiso. apply fit_inner in Hfit. destruct Hfit as [num Hfold].
  assert (Hiso' : forall j, (j < length X)%nat -> j <> v ->
            DBSCAN.near eps X v j = false).
  { intros j Hj Hne. unfold DBSCAN.near.
    destruct (Qle_bool _ _) eqn:E; [|reflexivity].
    apply Qle_bool_iff in E. exfalso.
    exact (Qlt_not_le _ _ (Hiso j Hj Hne) E). }
  pose proof (@DBSCAN_noise.loop_isolated eps X v Hv Hiso'
                (seq 0 (length X)) (repeat (-1)%Z (length X)) 0%Z labels num
                (unlabelled_initially Hv) Hfold) as H.
  unfold DBSCAN.unlabelled in H. now apply Z.eqb_eq in H.
Qed.

Lemma isolated_sample_is_noise_witness :
  DBSCAN.fit 15 2 (centers scenario) = Ok [0; 0; 0; -1]%Z /\
  (forall j, (j < length (centers scenario))%nat -> j <> 3%nat ->
     15 * 15 < DBSCAN.sq_dist (nth 3 (centers scenario) [])
                              (nth j (centers scenario) [])) /\
  nth 3 [0; 0; 0; -1]%Z 0%Z = noise_label.
Proof.
  assert (F : DBSCAN.fit 15 2 (centers scenario) = Ok [0; 0; 0; -1]%Z)
    by (vm_compute; reflexivity).
  assert (I : forall j, (j < length (centers scenario))%nat -> j <> 3%nat ->
            15 * 15 < DBSCAN.sq_dist (nth 3 (centers scenario) [])
                                     (nth j (centers scenario) [])).
  { intros j Hj Hne. simpl in Hj.
    destruct j as [|[|[|[|j]]]]; try (vm_compute; reflexivity);
      [contradiction | lia]. }
  split; [exact F|]. split; [exact I|].
  apply (@isolated_sample_is_noise 15 (centers scenario) [0; 0; 0; -1]%Z 3 F);
    [simpl; lia | exact I].
Defined.

Lemma two_members_length {A : Type} (l : list A) a b :
  In a l -> In b l -> a <> b -> (2 <= length l)%nat.
Proof.
  destruct l as [|x [|y t]]; simpl; intros Ha Hb Hne; try contradiction;
    [|lia].
  destruct Ha as [<-|[]], Hb as [<-|[]]. contradiction.
Qed.

(** X23. With [min_samples = 2], a sample that has another sample within
    [eps] is never noise: it is given the label of a cluster. *)
Theorem sample_with_neighbour_is_not_noise eps X labels i j :
  DBSCAN.fit eps 2 X = Ok labels ->
  (i < length X)%nat -> (j < length X)%nat -> j <> i ->
  DBSCAN.sq_dist (nth i X []) (nth j X []) <= eps * eps ->
  nth i labels 0%Z <> noise_label.
Proof.
  intros Hfit Hi Hj Hne Hnear. apply fit_inner in Hfit.
  destruct Hfit as [num Hfold].
  assert (Hcore : nth i (DBSCAN.core_samples 2 (DBSCAN.neighborhoods eps X))
                      false = true).
  { rewrite DBSCAN_noise.is_core_nth.
    apply andb_true_intro. split; [now apply Nat.ltb_lt|].
    apply Nat.leb_le. apply (@two_members_length nat _ i j); [| |congruence].
    - apply DBSCAN_noise.in_neighborhood. split; [exact Hi|].
      apply DBSCAN_noise.near_self.
    - apply DBSCAN_noise.in_neighborhood. split; [exact Hj|].
      unfold DBSCAN.near. now apply Qle_bool_iff. }
  assert (Hin : In i (seq 0 (length X))) by (apply in_seq; lia).
  pose proof (@DBSCAN_noise.loop_labels_cores _ _
                (seq 0 (length X)) (repeat (-1)%Z (length X)) 0%Z labels num i
                (Z.le_refl 0) (or_intror (conj Hin Hcore)) Hfold) as H.
  unfold DBSCAN.unlabelled in H. apply Z.eqb_neq in H. exact H.
Qed.

Lemma sample_with_neighbour_is_not_noise_witness :
  DBSCAN.fit 15 2 (centers scenario) = Ok [0; 0; 0; -1]%Z /\
  DBSCAN.sq_dist (nth 0 (centers scenario) []) (nth 1 (centers scenario) [])
  <= 15 * 15 /\
  nth 0 [0; 0; 0; -1]%Z 0%Z <> noise_label.
Proof.
  assert (F : DBSCAN.fit 15 2 (centers scenario) = Ok [0; 0; 0; -1]%Z)
    by (vm_compute; reflexivity).
  assert (N : DBSCAN.sq_dist (nth 0 (centers scenario) [])
                             (nth 1 (centers scenario) []) <= 15 * 15)
    by (vm_compute; discriminate).
  split; [exact F|]. split; [exact N|].
  apply (@sample_with_neighbour_is_not_noise 15 (centers scenario)
           [0; 0; 0; -1]%Z 0 1 F);
    [simpl; lia | simpl; lia | discriminate | exact N].
Defined.
